(** * Meeba Farm: a shallow embedding of the simulation core

    The JavaScript sources are embedded function by function.  A JavaScript
    number is an exact rational ([Q]) wherever the code only adds, multiplies,
    divides, floors and compares; integers known to be integers (bytes, array
    indexes, the PRNG seed) are [Z].  The trigonometric and power code of the
    spikes and of the collision helpers is embedded over the real numbers
    ([R]).  Arithmetic is exact but for the whole numbers of the generator:
    a seed read by [parseInt] and its product with 16807 are rounded to a
    double from 2^53 on.  Where the rounding of the code decides more than
    the last digits of a value, the definition says so and what is proved
    leaves those inputs out.

    Randomness is the repository's own generator: a state monad over the
    numeric seed kept by the closure that [getPrng] returns.

    The sources hold two generations of several files; each is embedded in
    a module of its own:
    - [Prng], [MathLut]: utils/math.js (src/unnamed/part_001, third part);
    - [GenomeV0]: src/app/meebas/genome.js, with fixed rates;
    - [Genome]: genome.js with configurable rates (src/unnamed/part_001);
    - [VitalsV0]: vitals.js returning new objects (src/unnamed/part_002);
    - [Vitals]: src/app/meebas/vitals.js, with upkeep, drained in place;
    - [Spikes.V0]: src/app/meebas/spikes.js; [Spikes.spawnSpike]: spikes.js
      with a drain by length (src/tests/app/simulation.test.js, second part);
    - [Bodies]: bodies.js (src/unnamed/part_002, first part), with the
      vitals of [Vitals] and a [setCalories] that writes them;
    - [Helpers]: the early math helpers (src/.eslintrc.json, second part). *)

From Stdlib Require Import ZArith QArith Qround Qminmax Lia Psatz.
From Stdlib Require Import List String Ascii Permutation Sorted Bool.
From Stdlib Require Import Reals.
From stdpp Require Import base option list.
Import ListNotations.

Set Default Proof Using "Type".

(* ===================================================================== *)
(** ** JavaScript numbers as rationals *)
(* ===================================================================== *)

Module Js.

(** [a < b] on numbers. *)
Definition ltb (a b : Q) : bool :=
  (Qnum a * QDen b <? Qnum b * QDen a)%Z.

(** [a >= b] on numbers. *)
Definition geb (a b : Q) : bool := Qle_bool b a.

(** [a > b] on numbers. *)
Definition gtb (a b : Q) : bool := ltb b a.

(** [Math.floor], as a number again. *)
Definition floor (a : Q) : Q := inject_Z (Qfloor a).

(** [Math.max]. *)
Definition max (a b : Q) : Q := if ltb a b then b else a.

(** A typed array of bytes stores each number modulo 256. *)
Definition toUint8 (n : Z) : Z := (n mod 256)%Z.

(** [Uint8Array.from(items)]: an item that is [undefined] ([None]) is
    stored as 0, a number modulo 256. *)
Definition uint8ArrayFrom (items : list (option Z)) : list Z :=
  List.map (fun item => match item with
                        | Some n => toUint8 n
                        | None => 0%Z
                        end) items.

(** The character of a digit, for radices up to 36. *)
Definition digitChar (d : Z) : ascii :=
  if (d <? 10)%Z then ascii_of_nat (Z.to_nat (48 + d))
  else ascii_of_nat (Z.to_nat (87 + d)).

(** [n.toString(radix)] of a non-negative integer: its digits, the most
    significant first; [fuel] bounds their number. *)
Fixpoint toStringFrom (fuel : nat) (radix n : Z) : string :=
  match fuel with
  | O => EmptyString
  | S fuel' =>
      if (n <? radix)%Z then String (digitChar n) EmptyString
      else (toStringFrom fuel' radix (n / radix)
            ++ String (digitChar (n mod radix)) EmptyString)%string
  end.

(** [n.toString(16)]; a number has no more hexadecimal than binary digits. *)
Definition toString16 (n : Z) : string :=
  toStringFrom (S (Z.to_nat (Z.log2 n))) 16 n.

(** [str.padStart(targetLength, pad)] for a [pad] of one character. *)
Definition padStart (str : string) (targetLength : nat) (pad : ascii) : string :=
  (string_of_list_ascii (repeat pad (targetLength - String.length str)) ++ str)%string.

(** The number that holds a whole number: a double has 53 significant
    bits, so a whole number below 2^53 in size is held as it is, and a
    larger one is rounded to the nearest double, a tie going to the even
    one.  A whole number of 2^1024 or more in size is held by no double
    (the code would have Infinity); what is proved stays below. *)
Definition toDouble (n : Z) : Z :=
  let size := Z.abs n in
  if (size <? 2 ^ 53)%Z then n
  else
    let exponent := (Z.log2 size - 52)%Z in
    let unit := (2 ^ exponent)%Z in
    let kept := (size / unit)%Z in
    let rest := (size mod unit)%Z in
    let rounded :=
      if (2 * rest <? unit)%Z then kept
      else if (unit <? 2 * rest)%Z then (kept + 1)%Z
      else if Z.even kept then kept else (kept + 1)%Z in
    (Z.sgn n * (rounded * unit))%Z.

End Js.

(* ===================================================================== *)
(** ** utils/math.js: the seeded generator *)
(* ===================================================================== *)

Module Prng.

(** A computation that draws from the generator: it receives the seed held
    by the closure and returns its result with the new seed. *)
Definition Rand (A : Type) : Type := Z -> A * Z.

Definition ret {A : Type} (a : A) : Rand A := fun s => (a, s).

Definition bind {A B : Type} (m : Rand A) (k : A -> Rand B) : Rand B :=
  fun s => let (a, s') := m s in k a s'.

(** Value of one character as a digit, for radices up to 36. *)
Definition digitOf (c : ascii) : option Z :=
  let n := Z.of_nat (nat_of_ascii c) in
  if ((48 <=? n) && (n <=? 57))%Z then Some (n - 48)%Z
  else if ((97 <=? n) && (n <=? 122))%Z then Some (n - 87)%Z
  else if ((65 <=? n) && (n <=? 90))%Z then Some (n - 55)%Z
  else None.

(** The digits of [parseInt]: the longest prefix of digits below the
    radix is read; [None] stands for NaN (no digit at all). *)
Fixpoint parseDigits (radix : Z) (acc : Z) (s : string) : Z :=
  match s with
  | EmptyString => acc
  | String c rest =>
      match digitOf c with
      | Some d => if (d <? radix)%Z
                  then parseDigits radix (acc * radix + d)%Z rest
                  else acc
      | None => acc
      end
  end.

Definition parseUnsigned (s : string) (radix : Z) : option Z :=
  match s with
  | EmptyString => None
  | String c _ =>
      match digitOf c with
      | Some d => if (d <? radix)%Z then Some (parseDigits radix 0 s) else None
      | None => None
      end
  end.

(** White space at the start of the string is skipped (a character of
    the model is one code unit below 256: tab to carriage return, space
    and the no-break space). *)
Definition isBlank (c : ascii) : bool :=
  let n := nat_of_ascii c in
  ((9 <=? n) && (n <=? 13) || (n =? 32) || (n =? 160))%nat.

Fixpoint trimStart (s : string) : string :=
  match s with
  | EmptyString => EmptyString
  | String c rest => if isBlank c then trimStart rest else s
  end.

(** [parseInt(str, radix)] for a radix from 2 to 36 other than 16 (which
    would skip a prefix [0x]): leading white space, a sign, then the digits.
    The result is a number: a whole number of 2^53 or more is rounded, and
    for a radix such as 36 the language leaves it to the implementation
    how; it is taken as the nearest double. *)
Definition parseInt (s : string) (radix : Z) : option Z :=
  let trimmed := trimStart s in
  let mathInt :=
    match trimmed with
    | String "-" rest => option_map Z.opp (parseUnsigned rest radix)
    | String "+" rest => parseUnsigned rest radix
    | _ => parseUnsigned trimmed radix
    end in
  option_map Js.toDouble mathInt.

Definition MODULUS : Z := 2147483647.
Definition MULTIPLIER : Z := 16807.
Definition DIVISOR : Z := 2147483646.

(** The closure returned by [getPrng]: [seed = (seed * 16807) % 2147483647;
    return seed / 2147483646].  The product of the two numbers is a number:
    from 2^53 on it is rounded.  [%] is exact and truncates, like [Z.rem];
    the quotient returned is kept exact.  (Only a seed string of some 200
    characters gives a seed whose product is past the doubles, and NaN for
    every draw.) *)
Definition nextSeed (seed : Z) : Z := Z.rem (Js.toDouble (seed * MULTIPLIER)) MODULUS.

Definition rand : Rand Q :=
  fun seed => let seed' := nextSeed seed in ((inject_Z seed' / inject_Z DIVISOR)%Q, seed').

(** [getPrng(alphaNumSeed)]: the initial seed of the closure; [None] is
    the seed NaN of a string without a digit. *)
Definition getPrng (alphaNumSeed : string) : option Z := parseInt alphaNumSeed 36.

(** [randInt(min, max) = min + Math.floor(rand() * (max - min))]. *)
Definition randInt (min max : Q) : Rand Q :=
  bind rand (fun r => ret (min + Js.floor (r * (max - min)))%Q).

(** The same draw read as an integer, for the call sites whose [min] is one
    (array lengths and indexes): the result is then a whole number. *)
Definition randIndex (min : Z) (max : Q) : Rand Z :=
  bind (randInt (inject_Z min) max) (fun n => ret (Qfloor n)).

(** [arr.map(fn)] for a callback that draws: left to right. *)
Fixpoint mapM {A B : Type} (fn : A -> Rand B) (arr : list A) : Rand (list B) :=
  match arr with
  | [] => ret []
  | x :: rest =>
      bind (fn x) (fun y => bind (mapM fn rest) (fun ys => ret (y :: ys)))
  end.

(** [arr.filter(fn)] for a callback that draws: left to right. *)
Fixpoint filterM {A : Type} (fn : A -> Rand bool) (arr : list A) : Rand (list A) :=
  match arr with
  | [] => ret []
  | x :: rest =>
      bind (fn x) (fun keep =>
      bind (filterM fn rest) (fun ys => ret (if keep then x :: ys else ys)))
  end.

(** The first [n] numbers [rand()] returns from a seed. *)
Fixpoint rands (n : nat) : Rand (list Q) :=
  match n with
  | O => ret []
  | S k => bind rand (fun r => bind (rands k) (fun rs => ret (r :: rs)))
  end.

(** The seed after [n] calls. *)
Fixpoint seedAfter (n : nat) (seed : Z) : Z :=
  match n with
  | O => seed
  | S k => seedAfter k (nextSeed seed)
  end.

End Prng.

Notation "'let*' x ':=' m 'in' k" := (Prng.bind m (fun x => k))
  (at level 10, x pattern, m at level 100, k at level 200).

Example ex_parse : Prng.getPrng "c8gmgn" = Some 739806647%Z.
Proof. reflexivity. Qed.

(* ===================================================================== *)
(** ** Arrays: built-in methods and utils/arrays.js *)
(* ===================================================================== *)

Module Arrays.

Section Builtins.
Context {A : Type}.

(** An index argument of [slice] and [splice], made relative to the length:
    negative counts from the end, and the result is clamped to the array. *)
Definition relativeIndex (len : nat) (k : Z) : nat :=
  if (k <? 0)%Z then Z.to_nat (Z.max (Z.of_nat len + k) 0)
  else Nat.min (Z.to_nat k) len.

(** [arr.slice(start, end)]; [None] is an [end] that is [undefined]. *)
Definition slice (arr : list A) (start : Z) (stop : option Z) : list A :=
  let from := relativeIndex (length arr) start in
  let to := match stop with
            | Some e => relativeIndex (length arr) e
            | None => length arr
            end in
  take (to - from) (drop from arr).

(** [arr.splice(start, 0, item)]: the array with [item] inserted. *)
Definition splice_insert (arr : list A) (start : Z) (item : A) : list A :=
  let at_ := relativeIndex (length arr) start in
  take at_ arr ++ item :: drop at_ arr.

(** [arr[i]] for an integer [i]; [None] is [undefined]. *)
Definition at_index (arr : list A) (i : Z) : option A :=
  if (i <? 0)%Z then None else arr !! Z.to_nat i.

(** [arr.map((x, i) => fn(x, i))]. *)
Definition mapi {B : Type} (fn : A -> Z -> B) (arr : list A) : list B :=
  imap (fun i x => fn x (Z.of_nat i)) arr.

End Builtins.

(** Modelled from the spec: [range] of utils/arrays.js is not among the
    sources; every call site maps over [range(n)] to repeat a draw [n]
    times, so it is the array [0, 1, ..., n - 1] (empty for [n <= 0]). *)
Definition range (n : Z) : list Z := map Z.of_nat (seq 0 (Z.to_nat n)).

(** Modelled from the spec: [flatten] of utils/arrays.js is not among the
    sources; [createGenome] "concatenates into one genome". *)
Definition flatten {A : Type} (arrs : list (list A)) : list A := concat arrs.

(** Modelled from the spec: [concatBytes] of utils/arrays.js is not among
    the sources; [replicateGenome] "re-concatenate[s] genes back into one
    byte sequence". *)
Definition concatBytes (arrs : list (list Z)) : list Z :=
  map Js.toUint8 (concat arrs).

(** Modelled from the spec: [findIndexes] of utils/arrays.js is not among
    the sources; it lists, in order, the indexes whose item passes the test,
    as the earlier [toGenes] does inline with [map] and [filter]. *)
Definition findIndexes {A : Type} (arr : list A) (test : A -> bool) : list Z :=
  List.filter (fun i => negb (i =? -1)%Z)
    (mapi (fun x i => if test x then i else (-1)%Z) arr).

(** Modelled from the spec: [chunkBy] of utils/arrays.js is not among the
    sources; the stream is "re-segment[ed] ... into genes by control-byte
    position": one chunk per index the function returns, from that index up
    to the next one (the last chunk runs to the end), so that items before
    the first index belong to no chunk. *)
Definition chunkBy {A : Type} (arr : list A) (indexesOf : list A -> list Z)
  : list (list A) :=
  let indexes := indexesOf arr in
  mapi (fun index i => slice arr index (at_index indexes (i + 1))) indexes.

End Arrays.

(** The functions of utils/arrays.js and utils/functions.js that take a
    callback; they are used under their qualified names. *)
Module Utils.

(** Modelled from the spec: [map] of utils/arrays.js is not among the
    sources; the pipeline applies "per-element stochastic operators", so it
    is taken as [arr.map(fn)], the callback called on each item from left
    to right. *)
Definition map {A B : Type} (arr : list A) (fn : A -> Prng.Rand B) : Prng.Rand (list B) :=
  Prng.mapM fn arr.

(** Modelled from the spec: [filter] of utils/arrays.js is not among the
    sources; it is taken as [arr.filter(fn)], the callback called on each
    item from left to right. *)
Definition filter {A : Type} (arr : list A) (fn : A -> Prng.Rand bool) : Prng.Rand (list A) :=
  Prng.filterM fn arr.

End Utils.

(* ===================================================================== *)
(** ** Genes and bit counting, shared by both genome modules *)
(* ===================================================================== *)

Module Bits.

(** [n.toString(2)] of a non-negative integer. *)
Fixpoint pos_toString2 (p : positive) : string :=
  match p with
  | xH => "1"
  | xO q => pos_toString2 q ++ "0"
  | xI q => pos_toString2 q ++ "1"
  end.

Definition toString2 (n : Z) : string :=
  match n with
  | Z0 => "0"
  | Zpos p => pos_toString2 p
  | Zneg p => "-" ++ pos_toString2 p
  end.

(** [str.split('').filter(bit => bit === '1').length]. *)
Definition countOnes (s : string) : Z :=
  Z.of_nat (length (List.filter (fun c => Ascii.eqb c "1"%char) (list_ascii_of_string s))).

(** [countBits]: the number of 1 bits in a series of bytes. *)
Definition countBits (bytes : list Z) : Z :=
  fold_left (fun count byte => (count + countOnes (toString2 byte))%Z) bytes 0%Z.

(** [byte >= 0xF0]: the byte opens a gene. *)
Definition isControl (byte : Z) : bool := (240 <=? byte)%Z.

End Bits.

(** The parsed representation of a single gene. *)
Record Gene : Type := mkGene {
  type : Z;
  location : Q;
  bytes : list Z
}.

(** Instructions for building a spike. *)
Record SpikeCommand : Type := mkSpikeCommand {
  sc_angle : Q;
  sc_length : Q
}.

(* ===================================================================== *)
(** ** src/app/meebas/genome.js: the genome with fixed rates *)
(* ===================================================================== *)

Module GenomeV0.
Import Prng Arrays Bits.

(** settings.meebas *)
Definition averageStartingGeneCount : Q := 48.
Definition averageStartingGeneSize : Q := 6.

Definition MAX_GENES : Q := 2 * averageStartingGeneCount.
Definition MAX_BYTES : Q := 2 * averageStartingGeneSize.

Definition CONTROL_BYTE_FREQUENCY : list Z :=
  [240; 240; 240; 240; 240; 240; 240; 240; 240; 241]%Z.

Definition BITS_PER_SIZE_PIXEL : Q := 1.
Definition BITS_PER_SPIKE_LENGTH : Q := 2.

Definition MUTATE_BIT_CHANCE : Q := 5 # 10000.

(** Instructions for building a meeba. *)
Record Commands : Type := mkCommands {
  size : Q;
  spikes : list SpikeCommand
}.

(** [randGene]: the control byte is drawn first, then the body.  An item is
    [None] where the array holds [undefined] (an index past the table). *)
Definition randGene : Rand (list (option Z)) :=
  let* i := randIndex 0 (inject_Z (Z.of_nat (length CONTROL_BYTE_FREQUENCY))) in
  let type := at_index CONTROL_BYTE_FREQUENCY i in
  let* n := randIndex 1 MAX_BYTES in
  let* body := mapM (fun _ => randIndex 0 256) (range n) in
  ret (type :: map Some body).

Definition createGenome : Rand (list Z) :=
  let* n := randIndex 1 MAX_GENES in
  let* genes := mapM (fun _ => randGene) (range n) in
  ret (Js.uint8ArrayFrom (flatten genes)).

(** [toGenes]: the indexes of the control bytes, then one gene per index. *)
Definition toGenes (genome : list Z) : list Gene :=
  let indexes :=
    List.filter (fun index => negb (index =? -1)%Z)
      (mapi (fun byte i => if (240 <=? byte)%Z then i else (-1)%Z) genome) in
  mapi (fun index i =>
          {| type := default 0%Z (at_index genome index);
             location := inject_Z index / inject_Z (Z.of_nat (length genome));
             bytes := slice genome (index + 1) (at_index indexes (i + 1)) |})
       indexes.

Definition readSizeGene (gene : Gene) : Q :=
  Js.floor (inject_Z (countBits (bytes gene)) / BITS_PER_SIZE_PIXEL).

Definition readSpikeGene (gene : Gene) : SpikeCommand :=
  {| sc_angle := location gene;
     sc_length := Js.floor (inject_Z (countBits (bytes gene)) / BITS_PER_SPIKE_LENGTH) |}.

Definition readGenome (genome : list Z) : Commands :=
  let genes := toGenes genome in
  let size :=
    fold_left (fun sum gene => (sum + readSizeGene gene)%Q)
      (List.filter (fun gene => (type gene =? 240)%Z) genes) 0%Q in
  let spikes :=
    map readSpikeGene (List.filter (fun gene => (type gene =? 241)%Z) genes) in
  {| size := size; spikes := spikes |}.

(** [mutateBits]: eight draws give the digits of a binary mask, first draw
    first; the byte is xor-ed with the mask ([NaN] would count as 0). *)
Definition mutateBits (byte : Z) : Rand Z :=
  let* digits := mapM (fun _ => let* r := rand in
                                ret (if Js.ltb r MUTATE_BIT_CHANCE then "1" else "0")%string)
                      (range 8) in
  let xorMask := parseInt (String.concat "" digits) 2 in
  ret (Z.lxor byte (default 0%Z xorMask)).

(** [replicateGenome = genome => genome.map(mutateBits)]; the typed array
    keeps each result modulo 256. *)
Definition replicateGenome (genome : list Z) : Rand (list Z) :=
  mapM (fun byte => let* mutated := mutateBits byte in ret (Js.toUint8 mutated)) genome.

End GenomeV0.

(* ===================================================================== *)
(** ** meebas/genome.js with configurable rates (src/unnamed/part_001) *)
(* ===================================================================== *)

Module Genome.
Import Prng Arrays Bits.

(** settings.genome, as far as this module reads it. *)
Record Fixed : Type := mkFixed {
  averageGeneCount : Q;
  averageGeneSize : Q;
  baseChanceMutateBit : Q;
  baseChanceDropByte : Q;
  baseChanceRepeatByte : Q;
  baseChanceTransposeByte : Q;
  baseChanceDropGene : Q;
  baseChanceRepeatGene : Q;
  baseChanceTransposeGene : Q;
  percentSpikeGenes : Q;
  percentSizeGenes : Q;
  percentRedGenes : Q;
  percentGreenGenes : Q;
  percentBlueGenes : Q;
  bitsPerMass : Q;
  bitsPerSpikeLength : Q
}.

Record Roll : Type := mkRoll { byte : Z; maxRoll : Q }.

(** The dynamically calculated genome settings. *)
Record Dynamic : Type := mkDynamic {
  maxGeneCount : Q;
  maxGeneSize : Q;
  chanceMutateBit : Q;
  chanceDropByte : Q;
  chanceRepeatByte : Q;
  chanceTransposeByte : Q;
  chanceDropGene : Q;
  chanceRepeatGene : Q;
  chanceTransposeGene : Q;
  controlByteRolls : list Roll
}.

(** The cumulative rolls: entry [i] adds its share to [rolls[i].maxRoll],
    the entry pushed before it (the reduce starts from a dummy entry that
    [slice(1)] removes).  The sums are exact here; those of the code are
    rounded, so that its last roll can lie just below or above 1, which
    decides the byte only for a draw that is exactly 1. *)
Definition cumulativeRolls (ratioToOne : Q) (entries : list (Z * Q)) : list Roll :=
  let rolls :=
    fold_left (fun rolls '(entry, i) =>
                 let prev := match at_index rolls i with
                             | Some r => maxRoll r
                             | None => 0%Q
                             end in
                 rolls ++ [ {| byte := fst entry;
                               maxRoll := (snd entry * ratioToOne + prev)%Q |} ])
              (mapi (fun entry i => (entry, i)) entries)
              [ {| byte := 0%Z; maxRoll := 0%Q |} ] in
  slice rolls 1 None.

(** The update listener: [dynamic] as a function of the settings. *)
Definition updateDynamic (volatility : Q) (fixed : Fixed) : Dynamic :=
  let volatilityAdjustment := (volatility / 100)%Q in
  let BYTES := [ (240%Z, percentSizeGenes fixed);
                 (241%Z, percentSpikeGenes fixed);
                 (242%Z, percentRedGenes fixed);
                 (243%Z, percentGreenGenes fixed);
                 (244%Z, percentBlueGenes fixed) ] in
  let ratioToOne := (1 / fold_left (fun sum entry => sum + snd entry) BYTES 0)%Q in
  {| maxGeneCount := 2 * averageGeneCount fixed;
     maxGeneSize := 2 * averageGeneSize fixed;
     chanceMutateBit := baseChanceMutateBit fixed * volatilityAdjustment;
     chanceDropByte := baseChanceDropByte fixed * volatilityAdjustment;
     chanceRepeatByte := baseChanceRepeatByte fixed * volatilityAdjustment;
     chanceTransposeByte := baseChanceTransposeByte fixed * volatilityAdjustment;
     chanceDropGene := baseChanceDropGene fixed * volatilityAdjustment;
     chanceRepeatGene := baseChanceRepeatGene fixed * volatilityAdjustment;
     chanceTransposeGene := baseChanceTransposeGene fixed * volatilityAdjustment;
     controlByteRolls := cumulativeRolls ratioToOne BYTES |}.

(** A draw that may not return: [None] when the loop bound of the model is
    used up. *)
Definition RandOpt (A : Type) : Type := Z -> option (A * Z).

Definition lift {A : Type} (m : Rand A) : RandOpt A := fun s => Some (m s).

Definition bindOpt {A B : Type} (m : RandOpt A) (k : A -> RandOpt B) : RandOpt B :=
  fun s => match m s with
           | Some (a, s') => k a s'
           | None => None
           end.

Section WithSettings.
Variable volatility : Q.
Variable fixed : Fixed.

(** The module-level [dynamic] object: only the update listener writes it. *)
Definition dynamic : Dynamic := updateDynamic volatility fixed.

(** [randControlByte]: the first roll entry above the draw, else the last
    entry of the table (which always holds five entries). *)
Definition randControlByte : Rand Z :=
  let* roll := rand in
  let matchingByte :=
    match List.find (fun entry => Js.ltb roll (maxRoll entry)) (controlByteRolls dynamic) with
    | Some entry => entry
    | None => List.last (controlByteRolls dynamic) {| byte := 0%Z; maxRoll := 0%Q |}
    end in
  ret (byte matchingByte).

(** [randGene]: the body is drawn first, then the control byte. *)
Definition randGene : Rand (list (option Z)) :=
  let* n := randIndex 1 (maxGeneSize dynamic) in
  let* body := mapM (fun _ => randIndex 0 256) (range n) in
  let* control := randControlByte in
  ret (Some control :: map Some body).

Definition createGenome : Rand (list Z) :=
  let* n := randIndex 1 (maxGeneCount dynamic) in
  let* genes := mapM (fun _ => randGene) (range n) in
  ret (Js.uint8ArrayFrom (flatten genes)).

Definition findControlIndexes (genome : list Z) : list Z :=
  findIndexes genome isControl.

Definition toGenes (genome : list Z) : list Gene :=
  let indexes := findControlIndexes genome in
  mapi (fun index i =>
          {| type := default 0%Z (at_index genome index);
             location := inject_Z index / inject_Z (Z.of_nat (length genome));
             bytes := slice genome (index + 1) (at_index indexes (i + 1)) |})
       indexes.

Definition countTypeBits (typeByte : Z) (genes : list Gene) : Z :=
  fold_left (fun sum gene => (sum + countBits (bytes gene))%Z)
    (List.filter (fun gene => (type gene =? typeByte)%Z) genes) 0%Z.

Definition readSpikeGene (gene : Gene) : SpikeCommand :=
  {| sc_angle := location gene;
     sc_length := Js.floor (inject_Z (countBits (bytes gene)) / bitsPerSpikeLength fixed) |}.

(** Instructions for building a meeba. *)
Record Commands : Type := mkCommands {
  size : Q;
  spikes : list SpikeCommand;
  hue : Q
}.

(** [rgbToHue] of utils/colors.js is an external collaborator. *)
Variable rgbToHue : Q -> Q -> Q -> Q.

Definition readGenome (genome : list Z) : Commands :=
  let genes := toGenes genome in
  let size := Js.floor (inject_Z (countTypeBits 240 genes) / bitsPerMass fixed) in
  let spikes :=
    map readSpikeGene (List.filter (fun gene => (type gene =? 241)%Z) genes) in
  let hue := rgbToHue (inject_Z (countTypeBits 242 genes))
                      (inject_Z (countTypeBits 243 genes))
                      (inject_Z (countTypeBits 244 genes)) in
  {| size := size; spikes := spikes; hue := hue |}.

(** [mutateBits]: eight draws give the digits of a binary mask, first draw
    first; the byte is xor-ed with the mask ([NaN] would count as 0). *)
Definition mutateBits (byte : Z) : Rand Z :=
  let* digits := mapM (fun _ => let* r := rand in
                                ret (if Js.ltb r (chanceMutateBit dynamic) then "1" else "0")%string)
                      (range 8) in
  let xorMask := parseInt (String.concat "" digits) 2 in
  ret (Z.lxor byte (default 0%Z xorMask)).

(** [repeatItems]: the loop [for (i = 0; i < arr.length; i += 1)] pushes
    [arr[i]] and steps [i] back when the draw is below [chance].  [arr[i]]
    exists exactly while [i < arr.length] ([i] is never negative at the
    test).  [fuel] bounds the number of iterations of the model. *)
Fixpoint repeatLoop {A : Type} (arr : list A) (chance : Q) (fuel : nat)
  (i : Z) (repeated : list A) : RandOpt (list A) :=
  fun seed =>
  match fuel with
  | O => None
  | S fuel' =>
      match at_index arr i with
      | None => Some (repeated, seed)
      | Some item =>
          let repeated' := repeated ++ [item] in
          let (r, seed') := rand seed in
          let i' := if Js.ltb r chance then (i - 1)%Z else i in
          repeatLoop arr chance fuel' (i' + 1)%Z repeated' seed'
      end
  end.

Definition repeatItems {A : Type} (arr : list A) (chance : Q) (fuel : nat)
  : RandOpt (list A) :=
  repeatLoop arr chance fuel 0%Z [].

(** [transposeItems], first loop: an item goes to [toTranspose] when its
    draw is below [chance], to [transposed] otherwise. *)
Fixpoint pickLoop {A : Type} (arr : list A) (chance : Q)
  (transposed toTranspose : list A) : Rand (list A * list A) :=
  match arr with
  | [] => ret (transposed, toTranspose)
  | item :: rest =>
      let* r := rand in
      if Js.ltb r chance
      then pickLoop rest chance transposed (toTranspose ++ [item])
      else pickLoop rest chance (transposed ++ [item]) toTranspose
  end.

(** [transposeItems], second loop:
    [transposed.splice(randInt(0, transposed.length), 0, item)]. *)
Fixpoint insertLoop {A : Type} (toTranspose transposed : list A) : Rand (list A) :=
  match toTranspose with
  | [] => ret transposed
  | item :: rest =>
      let* at_ := randIndex 0 (inject_Z (Z.of_nat (length transposed))) in
      insertLoop rest (splice_insert transposed at_ item)
  end.

Definition transposeItems {A : Type} (arr : list A) (chance : Q) : Rand (list A) :=
  let* picked := pickLoop arr chance [] [] in
  insertLoop (snd picked) (fst picked).

Definition joinGeneArray (geneArray : list (list Z)) : list Z :=
  concatBytes geneArray.

(** The predicate of both [filter] stages: [() => rand() >= chance]. *)
Definition survives {A : Type} (chance : Q) (_ : A) : Rand bool :=
  let* r := rand in ret (Js.geb r chance).

(** [replicateGenome]: [pipe(genome).into(fn, ...args)] hands the value
    so far to [fn] as its first argument, before [args], and [done()]
    returns the last value ([pipe] of utils/functions.js is not among the
    sources; the chain is read as the specification's "ordered pipeline",
    each stage applied to the result of the one before). *)
Definition replicateGenome (fuel : nat) (genome : list Z) : RandOpt (list Z) :=
  bindOpt (lift (Utils.map genome mutateBits)) (fun mutated =>
  bindOpt (lift (Utils.filter mutated (survives (chanceDropByte dynamic)))) (fun kept =>
  bindOpt (repeatItems kept (chanceRepeatByte dynamic) fuel) (fun repeated =>
  bindOpt (lift (transposeItems repeated (chanceTransposeByte dynamic))) (fun transposed =>
  let chunks := chunkBy transposed findControlIndexes in
  bindOpt (lift (Utils.filter chunks (survives (chanceDropGene dynamic)))) (fun keptGenes =>
  bindOpt (repeatItems keptGenes (chanceRepeatGene dynamic) fuel) (fun repeatedGenes =>
  bindOpt (lift (transposeItems repeatedGenes (chanceTransposeGene dynamic)))
    (fun transposedGenes =>
  lift (ret (joinGeneArray transposedGenes))))))))).

End WithSettings.
End Genome.

(* ===================================================================== *)
(** ** meebas/vitals.js, the variant that returns new objects
       (src/unnamed/part_002) *)
(* ===================================================================== *)

Module VitalsV0.

(** The life-cycle properties of a meeba. *)
Record Vitals : Type := mkVitals {
  calories : Q;
  diesAt : Q;
  spawnsAt : Q;
  isDead : bool
}.

Definition CALORIES_DEATH : Q := 1 # 2.
Definition CALORIES_SPAWN : Q := 2.
Definition CALORIES_START : Q := (CALORIES_DEATH + CALORIES_SPAWN) / 2.

Definition initVitals (mass : Q) : Vitals :=
  let calories := Js.floor (mass * CALORIES_START) in
  let diesAt := Js.floor (mass * CALORIES_DEATH) in
  let spawnsAt := Js.floor (mass * CALORIES_SPAWN) in
  let isDead := Js.ltb calories diesAt in
  {| calories := calories; diesAt := diesAt; spawnsAt := spawnsAt; isDead := isDead |}.

(** [setCalories]: a new object; the argument is not written. *)
Definition setCalories (vitals : Vitals) (calories : Q) : Vitals :=
  {| calories := calories;
     diesAt := diesAt vitals;
     spawnsAt := spawnsAt vitals;
     isDead := Js.ltb calories (diesAt vitals) |}.

(** [drainCalories]: the new vitals and the calories actually drained. *)
Definition drainCalories (vitals : Vitals) (drain : Q) : Vitals * Q :=
  let calories' := if Js.ltb drain (calories vitals)
                   then (calories vitals - drain)%Q else 0%Q in
  ({| calories := calories';
      diesAt := diesAt vitals;
      spawnsAt := spawnsAt vitals;
      isDead := Js.ltb calories' (diesAt vitals) |},
   if Js.gtb calories' 0 then drain else calories vitals).

(** [isDead == (calories < diesAt)]. *)
Definition invariant (vitals : Vitals) : Prop :=
  isDead vitals = Js.ltb (calories vitals) (diesAt vitals).

End VitalsV0.

(* ===================================================================== *)
(** ** src/app/meebas/vitals.js: vitals with upkeep, drained in place *)
(* ===================================================================== *)

Module Vitals.

(** The life-cycle properties of a meeba. *)
Record Vitals : Type := mkVitals {
  calories : Q;
  upkeep : Q;
  diesAt : Q;
  spawnsAt : Q;
  isDead : bool
}.

(** settings.vitals, as far as this module reads it. *)
Record Fixed : Type := mkFixed {
  percentDiesAt : Q;
  percentSpawnsAt : Q;
  baseUpkeepAdjustment : Q;
  upkeepPerSpike : Q;
  spikeCountExponent : Q;
  massCalorieExponent : Q;
  upkeepPerMass : Q
}.

(** The dynamically calculated settings. *)
Record Dynamic : Type := mkDynamic {
  percentStartsAt : Q;
  upkeepAdjustment : Q
}.

(** The update listener: [dynamic] as a function of the settings. *)
Definition updateDynamic (temperature : Q) (fixed : Fixed) : Dynamic :=
  let temperatureAdjustment := (Js.max 0 temperature / 30)%Q in
  {| percentStartsAt := (percentDiesAt fixed + percentSpawnsAt fixed) / 2;
     upkeepAdjustment := baseUpkeepAdjustment fixed * temperatureAdjustment |}.

Section WithSettings.
(** The exponentiation operator [**] of the language. *)
Variable pow : Q -> Q -> Q.
(** A spike, of which this module reads the length only. *)
Variable Spike : Type.
Variable spikeLength : Spike -> Q.
Variable temperature : Q.
Variable fixed : Fixed.

Definition dynamic : Dynamic := updateDynamic temperature fixed.

Definition calcSpikeUpkeep (spikes : list Spike) : Q :=
  let countCost :=
    pow (inject_Z (Z.of_nat (length spikes)) * upkeepPerSpike fixed)
        (spikeCountExponent fixed) in
  let lengthCost :=
    fold_left (fun total perSpike => (total + perSpike)%Q) (map spikeLength spikes) 0%Q in
  (countCost + lengthCost)%Q.

Definition calcUpkeep (mass : Q) (spikes : list Spike) : Q :=
  let massAdjustment := (1 / pow mass (massCalorieExponent fixed))%Q in
  let massCost := (mass * upkeepPerMass fixed)%Q in
  let spikeCost := calcSpikeUpkeep spikes in
  Js.floor ((massCost + spikeCost) * massAdjustment * upkeepAdjustment dynamic).

Definition initVitals (mass : Q) (spikes : list Spike) : Vitals :=
  let calories := Js.floor (mass * percentStartsAt dynamic) in
  let diesAt := Js.floor (mass * percentDiesAt fixed) in
  {| calories := calories;
     upkeep := calcUpkeep mass spikes;
     diesAt := diesAt;
     spawnsAt := Js.floor (mass * percentSpawnsAt fixed);
     isDead := Js.ltb calories diesAt |}.

End WithSettings.

(** [drainCalories]: [vitals.calories -= actualDrain] writes the one field
    of the object it is given; the function returns the object as it is
    afterwards, with [actualDrain]. *)
Definition drainCalories (vitals : Vitals) (drain : Q) : Vitals * Q :=
  let actualDrain := if Js.gtb (calories vitals) drain then drain else calories vitals in
  ({| calories := (calories vitals - actualDrain)%Q;
      upkeep := upkeep vitals;
      diesAt := diesAt vitals;
      spawnsAt := spawnsAt vitals;
      isDead := isDead vitals |},
   actualDrain).

(** Modelled from the spec: the [setCalories] that bodies.js imports from
    vitals.js, beside [initVitals(mass, spikes)], is not among the sources:
    this file exports none, and the one of src/unnamed/part_002 belongs to
    the vitals without upkeep and returns a new object.  bodies.js calls it
    as a statement, to set the "starting calories" of a child, so it writes
    the object it is given; [isDead] is "recomputed on every calorie
    change".  The function returns the object as it is afterwards. *)
Definition setCalories (vitals : Vitals) (calories : Q) : Vitals :=
  {| calories := calories;
     upkeep := upkeep vitals;
     diesAt := diesAt vitals;
     spawnsAt := spawnsAt vitals;
     isDead := Js.ltb calories (diesAt vitals) |}.

(** [isDead == (calories < diesAt)]. *)
Definition invariant (vitals : Vitals) : Prop :=
  isDead vitals = Js.ltb (calories vitals) (diesAt vitals).

End Vitals.

(* ===================================================================== *)
(** ** utils/math.js: the lookup-table trigonometry, over the reals *)
(* ===================================================================== *)

Module MathLut.
Local Open Scope R_scope.

Definition PI_2 : R := 2 * PI.

Definition LUT_RES : Z := 1024.
Definition HALF_LUT_RES : Z := 512.

(** The cached tables, entry [i]. *)
Definition SIN (i : Z) : R := Rtrigo_def.sin (PI_2 * IZR i / IZR LUT_RES).
Definition COS (i : Z) : R := Rtrigo_def.cos (PI_2 * IZR i / IZR LUT_RES).
Definition ASIN (i : Z) : R := Ratan.asin ((IZR i - IZR HALF_LUT_RES) / IZR HALF_LUT_RES).
Definition ACOS (i : Z) : R := Ratan.acos ((IZR i - IZR HALF_LUT_RES) / IZR HALF_LUT_RES).

Definition sqr (n : R) : R := n * n.

(** [roundAngle]: an angle in turns, normalized between 0 and 1
    ([turns % 1] of a positive number is its fractional part). *)
Definition roundAngle (turns : R) : R :=
  if Rle_dec 1 turns then turns - IZR (Zfloor turns)
  else if Rlt_dec turns 0 then turns + IZR (Zceil (Rabs turns))
  else turns.

(** [getTrigFn]: the table is read at an index from 0 to 1023 for every
    angle as [roundAngle] is above.  The code adds
    [turns + Math.ceil(Math.abs(turns))] as doubles: for an angle from
    -2^-54 up to, not including, 0 that sum is rounded to 1, the index is
    1024 and [lut[1024]] is [undefined].  The table of the model has no
    such entry to give: what is proved of [sin] and [cos] leaves these
    angles out. *)
Definition getTrigFn (lut : Z -> R) (turns : R) : R :=
  lut (Zfloor (roundAngle turns * IZR LUT_RES)).

Definition sin : R -> R := getTrigFn SIN.
Definition cos : R -> R := getTrigFn COS.

(** For a ratio between -1 and 1, where the table has an entry. *)
Definition getInverseTrigFn (lut : Z -> R) (ratio : R) : R :=
  let index := Zfloor (ratio * IZR HALF_LUT_RES + IZR HALF_LUT_RES) in
  lut index / PI_2.

Definition asin : R -> R := getInverseTrigFn ASIN.
Definition acos : R -> R := getInverseTrigFn ACOS.

(** A line segment defined by a pair of x/y coordinates. *)
Record Line : Type := mkLine { lx1 : R; ly1 : R; lx2 : R; ly2 : R }.

(** [isShorter]: checks if a line is shorter than a distance (no sqrt). *)
Definition isShorter (line : Line) (distance : R) : bool :=
  if Rlt_dec (sqr (lx1 line - lx2 line) + sqr (ly1 line - ly2 line)) (sqr distance)
  then true else false.

(** [getGap]: the size of the gap between two angles in turns. *)
Definition getGap (angle1 angle2 : R) : R :=
  let gap := Rabs (roundAngle angle1 - roundAngle angle2) in
  if Rle_dec gap (5 / 10) then gap else 1 - gap.

End MathLut.

(* ===================================================================== *)
(** ** meebas/spikes.js, both variants, over the reals *)
(* ===================================================================== *)

Module Spikes.
Local Open Scope R_scope.

Record Offset : Type := mkOffset {
  ox1 : R; oy1 : R; ox2 : R; oy2 : R; ox3 : R; oy3 : R
}.

(** A spike attached to a body; [deactivateTime] is [None] for [null]. *)
Record Spike : Type := mkSpike {
  fill : string;
  length : R;
  drain : R;
  x1 : R; y1 : R; x2 : R; y2 : R; x3 : R; y3 : R;
  offset : Offset;
  deactivateTime : option R
}.

Definition SPIKE_WIDTH : R := 6.
Definition HALF_WIDTH : R := SPIKE_WIDTH / 2.

Definition getXOffset (angle distance : R) : R :=
  IZR (Zfloor (MathLut.cos angle * distance)).

Definition getYOffset (angle distance : R) : R :=
  IZR (Zfloor (- MathLut.sin angle * distance)).

(** The spike but for its drain, which the two variants set differently. *)
Definition spikeWith (drain radius angle length : R) : Spike :=
  let offsetAngle := MathLut.asin (HALF_WIDTH / radius) in
  {| fill := "black";
     length := length;
     drain := drain;
     x1 := 0; y1 := 0; x2 := 0; y2 := 0; x3 := 0; y3 := 0;
     offset := {| ox1 := getXOffset angle (length + radius);
                  oy1 := getYOffset angle (length + radius);
                  ox2 := getXOffset (angle - offsetAngle) (radius - 1);
                  oy2 := getYOffset (angle - offsetAngle) (radius - 1);
                  ox3 := getXOffset (angle + offsetAngle) (radius - 1);
                  oy3 := getYOffset (angle + offsetAngle) (radius - 1) |};
     deactivateTime := None |}.

(** [getSpikeMover(x, y)(spike)]: the spike at the body's position. *)
Definition getSpikeMover (x y : R) (spike : Spike) : Spike :=
  {| fill := fill spike;
     length := length spike;
     drain := drain spike;
     x1 := x + ox1 (offset spike);
     y1 := y + oy1 (offset spike);
     x2 := x + ox2 (offset spike);
     y2 := y + oy2 (offset spike);
     x3 := x + ox3 (offset spike);
     y3 := y + oy3 (offset spike);
     offset := offset spike;
     deactivateTime := deactivateTime spike |}.

(** src/app/meebas/spikes.js: every spike drains the same. *)
Module V0.

Definition SPIKE_DRAIN : R := 320.

Definition spawnSpike (radius angle length : R) : Spike :=
  spikeWith SPIKE_DRAIN radius angle length.

End V0.

(** The variant with [BASE_DRAIN] and [DRAIN_LENGTH_QUOTIENT]; for a
    positive length [length ** 1.2] is [Rpower length 1.2]. *)
Section Scaled.
(** settings.simulation.temperature *)
Variable temperature : R.

Definition BASE_DRAIN : R := 25000 * Rmax 0 temperature / 30.
Definition DRAIN_LENGTH_QUOTIENT : R := 12 / 10.

Definition spawnSpike (radius angle length : R) : Spike :=
  spikeWith (BASE_DRAIN / Rpower length DRAIN_LENGTH_QUOTIENT) radius angle length.

End Scaled.
End Spikes.

(* ===================================================================== *)
(** ** The early helper functions for general math calculation
       (second document of src/.eslintrc.json), over the reals *)
(* ===================================================================== *)

Module Helpers.
Local Open Scope R_scope.

Record Vec : Type := mkVec { vx : R; vy : R }.
Record Polar : Type := mkPolar { p_angle : R; p_speed : R }.

(** The fields of a body that [collide] reads and writes
    ([size] is [body.core.size]). *)
Record Body : Type := mkBody {
  x : R; y : R; angle : R; speed : R; size : R
}.

(** Convert angle from turns into radians. *)
Definition getRadians (turns : R) : R := turns * PI * 2.

(** Break magnitude and angle into x/y vector. *)
Definition breakVector (angle magnitude : R) : Vec :=
  {| vx := Rtrigo_def.cos (getRadians angle) * magnitude;
     vy := - Rtrigo_def.sin (getRadians angle) * magnitude |}.

(** Takes an x/y vector and combines it to an angle (in turns) and a
    magnitude; the three [if] statements run one after the other.  (For
    [x = 0] the quotient is infinite in the source; this model is for
    [x <> 0].) *)
Definition mergeVector (x y : R) : Polar :=
  let angle0 := atan (- y / x) / (2 * PI) in
  let speed := sqrt (x * x + y * y) in
  let angle1 := if Rlt_dec angle0 0 then angle0 + 1 else angle0 in
  let angle2 := if Rlt_dec x 0 then
                  if Rlt_dec y 0 then angle1 - 5 / 10 else angle1
                else angle1 in
  let angle3 := if Rlt_dec x 0 then
                  if Rgt_dec y 0 then angle2 + 5 / 10 else angle2
                else angle2 in
  {| p_angle := angle3; p_speed := speed |}.

(** The velocities after the collision, as vectors: the part of [collide]
    before the conversion back to angle and magnitude. *)
Definition collideVectors (body1 body2 : Body) : Vec * Vec :=
  let m1 := size body1 in
  let m2 := size body2 in
  let v1 := breakVector (angle body1) (speed body1) in
  let v2 := breakVector (angle body2) (speed body2) in
  (* unit normal vector and unit tangent vector *)
  let n := {| vx := x body2 - x body1; vy := y body2 - y body1 |} in
  let mn := sqrt (vx n * vx n + vy n * vy n) in
  let un := {| vx := vx n / mn; vy := vy n / mn |} in
  let ut := {| vx := - vy un; vy := vx un |} in
  (* scalar velocities on the normal and the tangent *)
  let vn1 := vx un * vx v1 + vy un * vy v1 in
  let vt1 := vx ut * vx v1 + vy ut * vy v1 in
  let vn2 := vx un * vx v2 + vy un * vy v2 in
  let vt2 := vx ut * vx v2 + vy ut * vy v2 in
  (* final velocities along the normal (tangent will not change) *)
  let vn1_f := (vn1 * (m1 - m2) + 2 * m2 * vn2) / (m1 + m2) in
  let vn2_f := (vn2 * (m2 - m1) + 2 * m1 * vn1) / (m1 + m2) in
  (* scalar velocities back into vectors *)
  let vn1_fv := {| vx := vn1_f * vx un; vy := vn1_f * vy un |} in
  let vt1v := {| vx := vt1 * vx ut; vy := vt1 * vy ut |} in
  let vn2_fv := {| vx := vn2_f * vx un; vy := vn2_f * vy un |} in
  let vt2v := {| vx := vt2 * vx ut; vy := vt2 * vy ut |} in
  (* final vectors, by adding normal and tangent vectors *)
  ({| vx := vx vn1_fv + vx vt1v; vy := vy vn1_fv + vy vt1v |},
   {| vx := vx vn2_fv + vx vt2v; vy := vy vn2_fv + vy vt2v |}).

(** [collide]: both bodies with their new speed and angle. *)
Definition collide (body1 body2 : Body) : Body * Body :=
  let (v1, v2) := collideVectors body1 body2 in
  let p1 := mergeVector (vx v1) (vy v1) in
  let p2 := mergeVector (vx v2) (vy v2) in
  ({| x := x body1; y := y body1; angle := p_angle p1; speed := p_speed p1;
      size := size body1 |},
   {| x := x body2; y := y body2; angle := p_angle p2; speed := p_speed p2;
      size := size body2 |}).

(** [roundAngle] of these helpers: [turns % 1] of a number from 1 on is
    its fractional part; for a negative number [Math.ceil(turns)] is added.
    Every real number meets one of the three tests. *)
Definition roundAngle (turns : R) : R :=
  if Rge_dec turns 0 then
    if Rlt_dec turns 1 then turns
    else turns - IZR (Zfloor turns)
  else turns + IZR (Zceil turns).

(** [getGap] of these helpers. *)
Definition getGap (angle1 angle2 : R) : R :=
  let angle1' := roundAngle angle1 in
  let angle2' := roundAngle angle2 in
  let diff0 := angle1' - angle2' in
  let diff1 := if Rgt_dec (Rabs diff0) (5 / 10) then
                 if Rlt_dec diff0 0 then diff0 + 1 else diff0 - 1
               else diff0 in
  Rabs diff1.

(** The angle after a bounce off a vertical wall. *)
Definition bounceX (angle : R) : R :=
  if Req_dec_T angle (5 / 10) then 0
  else if Rlt_dec angle (5 / 10) then 25 / 100 - (angle - 25 / 100)
  else 75 / 100 - (angle - 75 / 100).

(** The angle after a bounce off a horizontal wall. *)
Definition bounceY (angle : R) : R :=
  if Req_dec_T angle 0 then 0
  else if Rlt_dec angle (25 / 100) then 1 - angle
  else if Rgt_dec angle (75 / 100) then 1 - angle
  else 5 / 10 - (angle - 5 / 10).

End Helpers.

(* ===================================================================== *)
(** ** meebas/bodies.js (src/unnamed/part_002): building bodies *)
(* ===================================================================== *)

Module Bodies.
Import Prng Arrays.

(** The vitals objects live in a store and a body holds a reference to
    its own: [setCalories] and the simulation are handed that reference.
    The vitals are those with upkeep, which [initVitals(mass, spikes)]
    makes and [spawnMote] writes out. *)
Abbreviation Store := (list Vitals.Vitals).
Abbreviation Ref := nat.

Definition alloc (store : Store) (vitals : Vitals.Vitals) : Ref * Store :=
  (length store, store ++ [vitals]).

(** A statement that writes the object behind a reference. *)
Definition write (store : Store) (ref : Ref) (vitals : Vitals.Vitals) : Store :=
  <[ref := vitals]> store.

Record Velocity : Type := mkVelocity { v_angle : Q; v_speed : Q }.

Record Meta : Type := mkMeta {
  nextX : Q;
  nextY : Q;
  lastCollisionBody : option Ref
}.

(** A body to be simulated and drawn. *)
Record Body (Spike : Type) : Type := mkBody {
  dna : string;
  fill : string;
  x : Q;
  y : Q;
  mass : Q;
  radius : Q;
  velocity : Velocity;
  vitals : Ref;
  spikes : list Spike;
  meta : Meta
}.
Arguments mkBody {Spike}.
Arguments dna {Spike}.
Arguments fill {Spike}.
Arguments x {Spike}.
Arguments y {Spike}.
Arguments mass {Spike}.
Arguments radius {Spike}.
Arguments velocity {Spike}.
Arguments vitals {Spike}.
Arguments spikes {Spike}.
Arguments meta {Spike}.

(** Modelled from the spec: [toHex] and [toBytes] of utils/arrays.js are
    not among the sources; "genome hex-string encoding (byte sequence <->
    hex text)" that "must round-trip exactly": two hexadecimal digits per
    byte. *)
Definition hexDigit (n : Z) : ascii :=
  if (n <? 10)%Z then ascii_of_nat (Z.to_nat (48 + n))
  else ascii_of_nat (Z.to_nat (87 + n)).

Definition toHex (bytes : list Z) : string :=
  fold_right (fun b rest => String (hexDigit (b / 16)) (String (hexDigit (b mod 16)) rest))
    EmptyString bytes.

Fixpoint toBytes (hex : string) : list Z :=
  match hex with
  | String hi (String lo rest) =>
      (default 0%Z (digitOf hi) * 16 + default 0%Z (digitOf lo))%Z :: toBytes rest
  | _ => []
  end.

(** [arr.sort(compare)]: stable, by insertion. *)
Fixpoint insertSorted {A : Type} (compare : A -> A -> Q) (a : A) (sorted : list A) : list A :=
  match sorted with
  | [] => [a]
  | b :: rest =>
      if Js.gtb (compare a b) 0 then b :: insertSorted compare a rest
      else a :: sorted
  end.

Definition sort {A : Type} (compare : A -> A -> Q) (arr : list A) : list A :=
  fold_right (insertSorted compare) [] arr.

(** settings.core and settings.bodies, as far as [replicateParent] reads
    them. *)
Record Settings : Type := mkSettings {
  energy : Q;
  width : Q;
  height : Q;
  minRadius : Q;
  spawningEnergyAdjustment : Q
}.

Definition COLOR_RANGE : Q := 256 * 256 * 256.

Section WithCollaborators.
(** [Math.PI] and [Math.sqrt]. *)
Variable PI : Q.
Variable sqrt : Q -> Q.
(** spikes.js: [spawnSpike], the mover that [getSpikeMover(x, y)] returns,
    and the length of a spike. *)
Variable Spike : Type.
Variable spawnSpike : Q -> Q -> Q -> Spike.
Variable getSpikeMover : Q -> Q -> Spike -> Spike.
Variable spikeLength : Spike -> Q.
(** utils/physics.js: [toVector({ angle, speed })] as [(x, y)]. *)
Variable toVector : Q -> Q -> Q * Q.
(** utils/colors.js *)
Variable rgbToHue : Q -> Q -> Q -> Q.
Variable settings : Settings.
Variable volatility : Q.
Variable genomeFixed : Genome.Fixed.
(** vitals.js: the operator [**], the temperature and settings.vitals
    that [initVitals(mass, spikes)] reads. *)
Variable pow : Q -> Q -> Q.
Variable temperature : Q.
Variable vitalsFixed : Vitals.Fixed.

(** The dynamically calculated body settings read here. *)
Definition minMass : Q := inject_Z (Qceiling (PI * (minRadius settings * minRadius settings))).

Definition maxSpawningEnergy : Q :=
  let tankSizeAdjustment := (width settings * height settings / 2073600)%Q in
  inject_Z (Qceiling (2 * energy settings * spawningEnergyAdjustment settings
                      * tankSizeAdjustment)).

(** [initBody]: a new body, with a new vitals object in the store, the
    one [initVitals(mass, spikes)] returns. *)
Definition initBody (dna : list Z) (store : Store) : Body Spike * Store :=
  let dnaCommands := Genome.readGenome genomeFixed rgbToHue dna in
  let mass := (minMass + Genome.size dnaCommands)%Q in
  let radius := Js.floor (sqrt (mass / PI)) in
  let spikes :=
    sort (fun a b => (spikeLength b - spikeLength a)%Q)
      (map (fun command => spawnSpike radius (sc_angle command) (sc_length command))
           (Genome.spikes dnaCommands)) in
  let (ref, store') :=
    alloc store (Vitals.initVitals pow Spike spikeLength temperature vitalsFixed
                   mass spikes) in
  ({| dna := toHex dna;
      fill := "black";
      x := 0; y := 0;
      mass := mass;
      radius := radius;
      velocity := {| v_angle := 0; v_speed := 0 |};
      vitals := ref;
      spikes := spikes;
      meta := {| nextX := 0; nextY := 0; lastCollisionBody := None |} |},
   store').

(** [replicateParent].  The statement
    [setCalories(body.vitals, Math.floor(parent.vitals.calories / 2))]
    writes the vitals of the new body, and
    [body.spikes.forEach(getSpikeMover(body.x, body.y))] moves each of its
    spikes.  [None]: the loop bound of [replicateGenome] is used up, or a
    reference is not in the store. *)
Definition replicateParent (fuel : nat) (parent : Body Spike) (angle : Q)
  (store : Store) : Genome.RandOpt (Body Spike * Store) :=
  Genome.bindOpt (Genome.replicateGenome volatility genomeFixed fuel (toBytes (dna parent)))
    (fun dna' =>
  let (body, store1) := initBody dna' store in
  match store1 !! vitals body, store1 !! vitals parent with
  | Some bodyVitals, Some parentVitals =>
      let store2 :=
        write store1 (vitals body)
          (Vitals.setCalories bodyVitals (Js.floor (Vitals.calories parentVitals / 2))) in
      let relativeLocation := toVector angle (2 * radius body)%Q in
      let x' := (x parent + fst relativeLocation)%Q in
      let y' := (y parent + snd relativeLocation)%Q in
      Genome.lift
        (let* bonus := randInt 0 (maxSpawningEnergy / mass body)%Q in
         ret ({| dna := dna body;
                 fill := fill parent;
                 x := x'; y := y';
                 mass := mass body;
                 radius := radius body;
                 velocity := {| v_angle := angle;
                                v_speed := (v_speed (velocity parent) + bonus)%Q |};
                 vitals := vitals body;
                 spikes := map (getSpikeMover x' y') (spikes body);
                 meta := meta body |},
              store2))
  | _, _ => fun _ => None
  end).

(** settings.bodies.initialEnergyAdjustment *)
Variable initialEnergyAdjustment : Q.

Definition maxEnergy : Q :=
  inject_Z (Qceiling (2 * energy settings * initialEnergyAdjustment)).

(** [getRandomBody]: a body for a new genome, with a random color, place
    and velocity; the draws are made in the order of the statements. *)
Definition getRandomBody (store : Store) : Rand (Body Spike * Store) :=
  let* genome := Genome.createGenome volatility genomeFixed in
  let (body, store') := initBody genome store in
  let* color := randInt 0 COLOR_RANGE in
  let* x' := randInt (radius body) (width settings - radius body)%Q in
  let* y' := randInt (radius body) (height settings - radius body)%Q in
  let* angle := rand in
  let* speed := randInt 0 (maxEnergy / mass body)%Q in
  ret ({| dna := dna body;
          fill := String "#" (Js.padStart (Js.toString16 (Qfloor color)) 6 "0");
          x := x'; y := y';
          mass := mass body;
          radius := radius body;
          velocity := {| v_angle := angle; v_speed := speed |};
          vitals := vitals body;
          spikes := spikes body;
          meta := meta body |},
       store').

End WithCollaborators.
End Bodies.

(* ===================================================================== *)
(** * The specification's words and sample inputs *)
(* ===================================================================== *)

(** ** The replication pipeline as the specification words it *)

(** These definitions follow the specification, not the source: each
    operator is written as a recursion over the items, and an event "with
    probability p" is one draw below [p]. *)
Module ReplicateSpec.
Import Prng.

(** An event of the given probability. *)
Definition happens (chance : Q) : Rand bool :=
  let* r := rand in ret (Js.ltb r chance).

(** (a) Each of the [bits] low bits of the byte is flipped with
    probability [chance], the most significant first. *)
Fixpoint flipBits (chance : Q) (bits : nat) (byte : Z) : Rand Z :=
  match bits with
  | O => ret byte
  | S lower =>
      let* flip := happens chance in
      flipBits chance lower
        (if flip then Z.lxor byte (2 ^ Z.of_nat lower) else byte)
  end.

(** (b) Each item is dropped with probability [chance]. *)
Fixpoint dropEach {A : Type} (chance : Q) (items : list A) : Rand (list A) :=
  match items with
  | [] => ret []
  | item :: rest =>
      let* dropped := happens chance in
      let* kept := dropEach chance rest in
      ret (if dropped then kept else item :: kept)
  end.

(** (c) Each item is put out, and with probability [chance] it stays in
    front to be put out and rolled for again: a geometric repeat.  [fuel]
    bounds the number of items put out. *)
Fixpoint repeatEach {A : Type} (chance : Q) (fuel : nat) (items : list A)
  : Genome.RandOpt (list A) :=
  fun seed =>
  match fuel with
  | O => None
  | S fuel' =>
      match items with
      | [] => Some ([], seed)
      | item :: rest =>
          let (again, seed') := happens chance seed in
          match repeatEach chance fuel' (if again then item :: rest else rest) seed' with
          | Some (out, seed'') => Some (item :: out, seed'')
          | None => None
          end
      end
  end.

(** (d) Each item is taken out with probability [chance]; the items taken
    out are then put back, one after the other, each at a random position
    among the items in place. *)
Fixpoint takeOut {A : Type} (chance : Q) (items : list A) : Rand (list A * list A) :=
  match items with
  | [] => ret ([], [])
  | item :: rest =>
      let* taken := happens chance in
      let* others := takeOut chance rest in
      ret (if taken then (fst others, item :: snd others)
           else (item :: fst others, snd others))
  end.

Fixpoint putBack {A : Type} (taken inPlace : list A) : Rand (list A) :=
  match taken with
  | [] => ret inPlace
  | item :: rest =>
      let* position := randIndex 0 (inject_Z (Z.of_nat (length inPlace))) in
      putBack rest (Arrays.splice_insert inPlace position item)
  end.

Definition relocateEach {A : Type} (chance : Q) (items : list A) : Rand (list A) :=
  let* parts := takeOut chance items in
  putBack (snd parts) (fst parts).

(** The stream is re-segmented into genes at the control bytes. *)
Definition segment (stream : list Z) : list (list Z) :=
  Arrays.chunkBy stream (fun bytes => Arrays.findIndexes bytes Bits.isControl).

(** The ordered pipeline: mutate, drop, repeat and transpose the bytes,
    segment, then drop, repeat and transpose the genes, and concatenate. *)
Definition replicate (rates : Genome.Dynamic) (fuel : nat) (genome : list Z)
  : Genome.RandOpt (list Z) :=
  Genome.bindOpt (Genome.lift (mapM (flipBits (Genome.chanceMutateBit rates) 8) genome))
    (fun mutated =>
  Genome.bindOpt (Genome.lift (dropEach (Genome.chanceDropByte rates) mutated))
    (fun kept =>
  Genome.bindOpt (repeatEach (Genome.chanceRepeatByte rates) fuel kept)
    (fun repeated =>
  Genome.bindOpt (Genome.lift (relocateEach (Genome.chanceTransposeByte rates) repeated))
    (fun transposed =>
  Genome.bindOpt (Genome.lift (dropEach (Genome.chanceDropGene rates) (segment transposed)))
    (fun keptGenes =>
  Genome.bindOpt (repeatEach (Genome.chanceRepeatGene rates) fuel keptGenes)
    (fun repeatedGenes =>
  Genome.bindOpt (Genome.lift (relocateEach (Genome.chanceTransposeGene rates) repeatedGenes))
    (fun transposedGenes =>
  Genome.lift (ret (Arrays.concatBytes transposedGenes))))))))).

End ReplicateSpec.

(** ** Vocabulary of the statements *)

(** A generated gene: a control byte from 0xF0 to [lastControl], then a
    body of at most [maxGeneSize] numbers. *)
Definition geneShape (lastControl : Z) (maxGeneSize : Q) (gene : list (option Z)) : Prop :=
  exists (control : Z) (body : list Z),
    gene = Some control :: map Some body /\
    (240 <= control <= lastControl)%Z /\
    (1 <= length body)%nat /\
    (inject_Z (Z.of_nat (length body)) <= maxGeneSize)%Q /\
    Forall (fun b => 0 <= b <= 256)%Z body.

(** The next [n] draws from the seed are all below 1. *)
Definition belowOneFor (n : nat) (seed : Z) : Prop :=
  forall k : nat, (k < n)%nat -> Prng.seedAfter (S k) seed <> Prng.DIVISOR.

Fixpoint belowOneForb (n : nat) (seed : Z) : bool :=
  match n with
  | O => true
  | S n' => negb (Prng.nextSeed seed =? Prng.DIVISOR)%Z
            && belowOneForb n' (Prng.nextSeed seed)
  end.

(** The number of bits set among the eight low bits of a byte. *)
Definition setBits (byte : Z) : Z :=
  Z.of_nat (length (List.filter (Z.testbit byte) (map Z.of_nat (seq 0 8)))).

(** The bytes of a genome from its first control byte on. *)
Fixpoint fromFirstControl (genome : list Z) : list Z :=
  match genome with
  | [] => []
  | byte :: rest => if Bits.isControl byte then genome else fromFirstControl rest
  end.

(** The bytes in front of the next control byte. *)
Fixpoint upToControl (bytes : list Z) : list Z :=
  match bytes with
  | [] => []
  | byte :: rest => if Bits.isControl byte then [] else byte :: upToControl rest
  end.

(** The genes of a genome read from the left: each control byte with the
    bytes that follow it up to the next control byte. *)
Fixpoint splitGenes (genome : list Z) : list (Z * list Z) :=
  match genome with
  | [] => []
  | byte :: rest =>
      if Bits.isControl byte then (byte, upToControl rest) :: splitGenes rest
      else splitGenes rest
  end.

(** The positions, counted from [k], of the items that pass a test. *)
Fixpoint positionsFrom {A : Type} (test : A -> bool) (k : nat) (arr : list A) : list nat :=
  match arr with
  | [] => []
  | item :: rest =>
      if test item then k :: positionsFrom test (S k) rest
      else positionsFrom test (S k) rest
  end.

(** Each item with the one after it. *)
Fixpoint withNext {A : Type} (arr : list A) : list (A * option A) :=
  match arr with
  | [] => []
  | item :: rest => (item, head rest) :: withNext rest
  end.

(** The share of the settings for the genes of a control byte. *)
Definition percentOf (fixed : Genome.Fixed) (byte : Z) : Q :=
  if (byte =? 240)%Z then Genome.percentSizeGenes fixed
  else if (byte =? 241)%Z then Genome.percentSpikeGenes fixed
  else if (byte =? 242)%Z then Genome.percentRedGenes fixed
  else if (byte =? 243)%Z then Genome.percentGreenGenes fixed
  else if (byte =? 244)%Z then Genome.percentBlueGenes fixed
  else 0%Q.

(** The sum of the five shares. *)
Definition percentTotal (fixed : Genome.Fixed) : Q :=
  (Genome.percentSizeGenes fixed + Genome.percentSpikeGenes fixed
   + Genome.percentRedGenes fixed + Genome.percentGreenGenes fixed
   + Genome.percentBlueGenes fixed)%Q.

(** A byte of a typed array. *)
Definition isByte (b : Z) : Prop := (0 <= b <= 255)%Z.

(** A series of bytes that is empty or opens with a control byte. *)
Definition opensWithControl (bytes : list Z) : Prop :=
  match bytes with
  | [] => True
  | b :: _ => (240 <= b <= 255)%Z
  end.

(** A chunk of bytes that is a gene: a control byte and what follows. *)
Definition isGeneChunk (chunk : list Z) : Prop :=
  match chunk with
  | [] => False
  | b :: _ => (240 <= b <= 255)%Z
  end.

(** An angle for which the code reads its tables of sines and cosines
    inside them: not a negative angle above -2^-53 (see [MathLut.getTrigFn]). *)
Definition inTrigTable (turns : R) : Prop :=
  (0 <= turns \/ turns <= - / 2 ^ 53)%R.

(** The points of a spike lie near a body at [(x, y)]: on each axis the tip
    is within the length and the radius (and 1 for the flooring), and the
    two points of the base are within the radius. *)
Definition spikeNear (x y radius length : R) (spike : Spikes.Spike) : Prop :=
  (Rabs (Spikes.x1 spike - x) <= length + radius + 1 /\
   Rabs (Spikes.y1 spike - y) <= length + radius + 1 /\
   Rabs (Spikes.x2 spike - x) <= radius /\
   Rabs (Spikes.y2 spike - y) <= radius /\
   Rabs (Spikes.x3 spike - x) <= radius /\
   Rabs (Spikes.y3 spike - y) <= radius)%R.

Module Geometry.
Local Open Scope R_scope.

(** The unit normal of two bodies, from the first to the second. *)
Definition unitNormal (body1 body2 : Helpers.Body) : Helpers.Vec :=
  let nx := Helpers.x body2 - Helpers.x body1 in
  let ny := Helpers.y body2 - Helpers.y body1 in
  let mn := sqrt (nx * nx + ny * ny) in
  Helpers.mkVec (nx / mn) (ny / mn).

Definition unitTangent (body1 body2 : Helpers.Body) : Helpers.Vec :=
  Helpers.mkVec (- Helpers.vy (unitNormal body1 body2))
                (Helpers.vx (unitNormal body1 body2)).

Definition dot (u v : Helpers.Vec) : R :=
  Helpers.vx u * Helpers.vx v + Helpers.vy u * Helpers.vy v.

Definition velocity (body : Helpers.Body) : Helpers.Vec :=
  Helpers.breakVector (Helpers.angle body) (Helpers.speed body).

End Geometry.

(** ** Sample inputs *)

Module Sample.

(** Stand-ins for the collaborators when [replicateParent] is run: a
    [Math.sqrt] that is right to the integer part, a spike that records
    its arguments, and the [toVector] of the angle 0. *)
Definition sqrtFloor (q : Q) : Q := inject_Z (Z.sqrt (Qfloor q)).
Definition spikeStub (radius angle length : Q) : Q * Q * Q := (radius, angle, length).
Definition toVectorEast (angle speed : Q) : Q * Q := (speed, 0%Q).

Definition genomeSettings : Genome.Fixed :=
  Genome.mkFixed 48 6 (5 # 10000) (1 # 1000) (1 # 1000) (1 # 1000) (1 # 100)
    (1 # 100) (1 # 100) (1 # 10) (6 # 10) (1 # 10) (1 # 10) (1 # 10) 1 2.

Definition bodySettings : Bodies.Settings :=
  Bodies.mkSettings 3500000 1920 1080 10 (1 # 100).

(** Settings of the vitals with whole exponents, and [**] for such an
    exponent. *)
Definition vitalsSettings : Vitals.Fixed :=
  Vitals.mkFixed (1 # 2) 2 1 4 2 1 (1 # 10).

Definition powWhole (base exponent : Q) : Q := Qpower base (Qfloor exponent).

(** A parent of mass 322 that has gathered 1000 calories. *)
Definition parentBody : Bodies.Body (Q * Q * Q) :=
  Bodies.mkBody "f07f00f10f" "#336699" 100 100 322 10
    (Bodies.mkVelocity 0 5) 0%nat [] (Bodies.mkMeta 0 0 None).

Definition parentStore : list Vitals.Vitals :=
  [Vitals.mkVitals 1000 0 161 644 false].

(** The rates of src/app/meebas/genome.js read as rates of the pipeline:
    bits flipped at the chance 0.0005, and no other operator. *)
Definition earlyRates : Genome.Dynamic :=
  Genome.mkDynamic 96 12 (5 # 10000) 0 0 0 0 0 0 [].

(** A genome that opens with a byte that is no control byte. *)
Definition strayGenome : list Z := [7; 240; 127]%Z.

(** Two bodies of mass 314, 30 apart on a horizontal line, closing at
    speed 10: the first heads east (angle 0), the second west (angle 0.5). *)
Definition eastbound : Helpers.Body := Helpers.mkBody 35 50 0 10 314.
Definition westbound : Helpers.Body := Helpers.mkBody 65 50 (1 / 2) 10 314.

End Sample.

(* ===================================================================== *)
(** * Properties *)
(* ===================================================================== *)

Import Geometry Sample.

(** ** Comparisons of numbers *)

Lemma ltb_lt (a b : Q) : Js.ltb a b = true <-> (a < b)%Q.
Proof. unfold Js.ltb, Qlt. apply Z.ltb_lt. Qed.

Lemma ltb_ge (a b : Q) : Js.ltb a b = false <-> (b <= a)%Q.
Proof. unfold Js.ltb, Qle. apply Z.ltb_ge. Qed.

Lemma geb_le (a b : Q) : Js.geb a b = true <-> (b <= a)%Q.
Proof. unfold Js.geb. apply Qle_bool_iff. Qed.

Lemma geb_negb_ltb (a b : Q) : Js.geb a b = negb (Js.ltb a b).
Proof.
  destruct (Js.ltb a b) eqn:E; simpl.
  - apply ltb_lt in E. destruct (Js.geb a b) eqn:G; [|reflexivity].
    apply geb_le in G. exfalso. apply (Qlt_not_le _ _ E G).
  - apply ltb_ge in E. apply geb_le. exact E.
Qed.

(** ** Drawing *)

Lemma bind_eq {A B : Type} (m : Prng.Rand A) (k : A -> Prng.Rand B) (seed : Z) :
  Prng.bind m k seed = let (a, seed') := m seed in k a seed'.
Proof. reflexivity. Qed.

(** ** The generator *)

Lemma digitOf_nonneg (c : ascii) (d : Z) : Prng.digitOf c = Some d -> (0 <= d)%Z.
Proof.
  unfold Prng.digitOf. cbv zeta.
  set (n := Z.of_nat (nat_of_ascii c)).
  destruct (Z.leb_spec 48 n), (Z.leb_spec n 57), (Z.leb_spec 97 n),
    (Z.leb_spec n 122), (Z.leb_spec 65 n), (Z.leb_spec n 90);
    cbn; intros E; inversion E; lia.
Qed.

Lemma parseDigits_bound (radix acc : Z) (s : string) :
  (1 <= radix)%Z -> (0 <= acc)%Z ->
  (0 <= Prng.parseDigits radix acc s < (acc + 1) * radix ^ Z.of_nat (String.length s))%Z.
Proof.
  intros Hr. revert acc. induction s as [|c rest IH]; intros acc Hacc.
  - cbn. lia.
  - cbn [Prng.parseDigits String.length].
    rewrite Nat2Z.inj_succ, Z.pow_succ_r by lia.
    assert (Hpow : (1 <= radix ^ Z.of_nat (String.length rest))%Z).
    { pose proof (Z.pow_le_mono_r radix 0 (Z.of_nat (String.length rest))
                    ltac:(lia) ltac:(lia)) as Hle.
      rewrite Z.pow_0_r in Hle. exact Hle. }
    assert (Hstop : (0 <= acc < (acc + 1) * (radix * radix ^ Z.of_nat (String.length rest)))%Z)
      by nia.
    destruct (Prng.digitOf c) as [d|] eqn:Ed; [|exact Hstop].
    destruct (Z.ltb_spec d radix) as [Hd|Hd]; [|exact Hstop].
    apply digitOf_nonneg in Ed.
    specialize (IH (acc * radix + d)%Z ltac:(nia)). nia.
Qed.

Lemma parseUnsigned_bound (s : string) (radix value : Z) :
  (1 <= radix)%Z -> Prng.parseUnsigned s radix = Some value ->
  (0 <= value < radix ^ Z.of_nat (String.length s))%Z.
Proof.
  intros Hr. unfold Prng.parseUnsigned. destruct s as [|c rest]; [discriminate|].
  pose proof (parseDigits_bound radix 0 (String c rest) Hr ltac:(lia)) as Hparse.
  set (read := Prng.parseDigits radix 0 (String c rest)) in *. clearbody read.
  destruct (Prng.digitOf c); [|discriminate].
  destruct (_ <? _)%Z; [|discriminate].
  intros [= <-]. lia.
Qed.

Lemma trimStart_length (s : string) :
  (String.length (Prng.trimStart s) <= String.length s)%nat.
Proof.
  induction s as [|c rest IH]; [reflexivity|].
  cbn [Prng.trimStart]. destruct (Prng.isBlank c); cbn [String.length]; lia.
Qed.

Lemma toDouble_exact (n : Z) : (Z.abs n < 2 ^ 53)%Z -> Js.toDouble n = n.
Proof.
  intros H. unfold Js.toDouble. cbv zeta.
  destruct (Z.ltb_spec (Z.abs n) (2 ^ 53)); [reflexivity|lia].
Qed.

Lemma toDouble_nonneg (n : Z) : (0 <= n)%Z -> (0 <= Js.toDouble n)%Z.
Proof.
  intros H. unfold Js.toDouble. cbv zeta.
  destruct (Z.ltb_spec (Z.abs n) (2 ^ 53)) as [|Hbig]; [exact H|].
  set (unit := (2 ^ (Z.log2 (Z.abs n) - 52))%Z).
  assert (Hunit : (0 < unit)%Z) by (apply Z.pow_pos_nonneg; [lia|];
    pose proof (Z.log2_le_mono _ _ Hbig) as Hlog; rewrite Z.log2_pow2 in Hlog; lia).
  assert (Hkept : (0 <= Z.abs n / unit)%Z) by (apply Z.div_pos; lia).
  assert (Hsgn : (0 <= Z.sgn n)%Z) by lia.
  apply Z.mul_nonneg_nonneg; [exact Hsgn|].
  apply Z.mul_nonneg_nonneg; [|lia].
  destruct (_ <? _)%Z; [exact Hkept|].
  destruct (_ <? _)%Z; [lia|]. destruct (Z.even _); lia.
Qed.

(** A seed string of at most seven characters is read exactly, and its
    first product with 16807 is below 2^53. *)
Lemma getPrng_short (alphaNumSeed : string) (seed : Z) :
  (String.length alphaNumSeed <= 7)%nat ->
  Prng.getPrng alphaNumSeed = Some seed ->
  (Z.abs seed < 36 ^ 7)%Z /\ (Z.abs seed * 16807 < 2 ^ 53)%Z.
Proof.
  intros Hlen. unfold Prng.getPrng, Prng.parseInt. cbv zeta.
  pose proof (trimStart_length alphaNumSeed) as Htrim.
  set (trimmed := Prng.trimStart alphaNumSeed) in *.
  assert (Hread : forall (s : string) (value : Z),
             (String.length s <= 7)%nat -> Prng.parseUnsigned s 36 = Some value ->
             (0 <= value < 36 ^ 7)%Z).
  { intros s value Hs Hvalue.
    pose proof (parseUnsigned_bound s 36 value ltac:(lia) Hvalue) as [H0 H1].
    split; [exact H0|]. eapply Z.lt_le_trans; [exact H1|].
    apply Z.pow_le_mono_r; lia. }
  assert (Hdone : forall mathInt : Z,
             (Z.abs mathInt < 36 ^ 7)%Z -> Some (Js.toDouble mathInt) = Some seed ->
             (Z.abs seed < 36 ^ 7)%Z /\ (Z.abs seed * 16807 < 2 ^ 53)%Z).
  { intros mathInt Hsmall. rewrite toDouble_exact by lia. intros [= <-]. lia. }
  assert (Hplain : option_map Js.toDouble (Prng.parseUnsigned trimmed 36) = Some seed ->
                   (Z.abs seed < 36 ^ 7)%Z /\ (Z.abs seed * 16807 < 2 ^ 53)%Z).
  { destruct (Prng.parseUnsigned trimmed 36) as [value|] eqn:E; [|discriminate].
    cbn [option_map]. apply Hdone.
    pose proof (Hread trimmed value ltac:(lia) E). lia. }
  destruct trimmed as [|c rest] eqn:Etrim; [exact Hplain|].
  cbn [String.length] in Htrim.
  destruct (Ascii.eqb_spec c "-"%char) as [->|Hminus].
  - destruct (Prng.parseUnsigned rest 36) as [value|] eqn:E; [|discriminate].
    cbn [option_map]. apply Hdone.
    pose proof (Hread rest value ltac:(lia) E). lia.
  - destruct (Ascii.eqb_spec c "+"%char) as [->|Hplus].
    + destruct (Prng.parseUnsigned rest 36) as [value|] eqn:E; [|discriminate].
      cbn [option_map]. apply Hdone.
      pose proof (Hread rest value ltac:(lia) E). lia.
    + intros Hparse. apply Hplain. rewrite <- Hparse.
      destruct c as [[] [] [] [] [] [] [] []]; try reflexivity; contradiction.
Qed.

Lemma nextSeed_range (seed : Z) :
  (0 <= seed)%Z -> (0 <= Prng.nextSeed seed <= Prng.DIVISOR)%Z.
Proof.
  intros H. unfold Prng.nextSeed, Prng.MODULUS, Prng.MULTIPLIER, Prng.DIVISOR.
  pose proof (toDouble_nonneg (seed * 16807) ltac:(lia)) as Hproduct.
  pose proof (Z.rem_bound_pos (Js.toDouble (seed * 16807)) 2147483647) as B. lia.
Qed.

(** Where the product is below 2^53 the step is exact. *)
Lemma nextSeed_exact (seed : Z) :
  (0 <= seed)%Z -> (seed * 16807 < 2 ^ 53)%Z ->
  Prng.nextSeed seed = ((seed * 16807) mod 2147483647)%Z.
Proof.
  intros H Hsmall. unfold Prng.nextSeed, Prng.MODULUS, Prng.MULTIPLIER.
  rewrite toDouble_exact by lia. apply Z.rem_mod_nonneg; lia.
Qed.

Lemma rand_range (seed : Z) :
  (0 <= seed)%Z ->
  (0 <= fst (Prng.rand seed) <= 1)%Q /\ (0 <= snd (Prng.rand seed))%Z.
Proof.
  intros H. pose proof (nextSeed_range seed H) as [Hlo Hhi].
  unfold Prng.rand. cbn [fst snd]. split; [split|exact Hlo].
  - apply Qle_shift_div_l; [reflexivity|].
    rewrite Qmult_0_l. rewrite <- (Zle_Qle 0). exact Hlo.
  - apply Qle_shift_div_r; [reflexivity|].
    rewrite Qmult_1_l. rewrite <- Zle_Qle. exact Hhi.
Qed.

(** C3, where the code departs from it.  The seed string "c8gmgn" is read
    as 739806647; the recurrence takes it to 2147483646, and the first
    [rand()] is 2147483646 / 2147483646: exactly 1, not below 1.  With it
    [randInt(0, 256)] is 256, its exclusive maximum. *)
Theorem rand_returns_one :
  Prng.getPrng "c8gmgn" = Some 739806647%Z /\
  Prng.nextSeed 739806647 = 2147483646%Z /\
  (fst (Prng.rand 739806647%Z) == 1)%Q /\
  ~ (fst (Prng.rand 739806647%Z) < 1)%Q /\
  (fst (Prng.randInt 0 256 739806647%Z) == 256)%Q.
Proof.
  repeat split; try reflexivity.
  vm_compute. discriminate.
Qed.

(** ** The sequence of [rand()] *)

Lemma rands_unfold (n : nat) (seed : Z) :
  Prng.rands (S n) seed
  = ((inject_Z (Prng.nextSeed seed) / inject_Z Prng.DIVISOR)%Q
       :: fst (Prng.rands n (Prng.nextSeed seed)),
     snd (Prng.rands n (Prng.nextSeed seed))).
Proof.
  cbn [Prng.rands]. rewrite bind_eq. unfold Prng.rand at 1. rewrite bind_eq.
  destruct (Prng.rands n (Prng.nextSeed seed)) as [rs seed']. reflexivity.
Qed.

Lemma rands_recurrence (n : nat) (seed : Z) :
  fst (Prng.rands n seed)
  = map (fun k => (inject_Z (Prng.seedAfter (S k) seed) / inject_Z Prng.DIVISOR)%Q)
        (seq 0 n) /\
  snd (Prng.rands n seed) = Prng.seedAfter n seed.
Proof.
  revert seed. induction n as [|n IH]; intros seed; [split; reflexivity|].
  rewrite rands_unfold. cbn [fst snd]. destruct (IH (Prng.nextSeed seed)) as [Hrs Hseed].
  split.
  - rewrite Hrs. cbn [seq map]. f_equal.
    rewrite <- seq_shift, map_map. reflexivity.
  - rewrite Hseed. reflexivity.
Qed.

Lemma rands_range (n : nat) (seed : Z) :
  (0 <= seed)%Z -> Forall (fun r => (0 <= r <= 1)%Q) (fst (Prng.rands n seed)).
Proof.
  revert seed. induction n as [|n IH]; intros seed Hseed; [constructor|].
  rewrite rands_unfold. cbn [fst].
  destruct (rand_range seed Hseed) as [Hr Hs]. constructor.
  - exact Hr.
  - apply IH. exact Hs.
Qed.

Lemma seedAfter_S (n : nat) (seed : Z) :
  Prng.seedAfter (S n) seed = Prng.nextSeed (Prng.seedAfter n seed).
Proof.
  revert seed. induction n as [|n IH]; intros seed; [reflexivity|].
  cbn [Prng.seedAfter] in *. apply IH.
Qed.

Lemma seedAfter_range (n : nat) (seed : Z) :
  (0 <= seed)%Z -> (0 <= Prng.seedAfter (S n) seed <= Prng.DIVISOR)%Z.
Proof.
  intros Hseed. induction n as [|n IH].
  - apply nextSeed_range. exact Hseed.
  - rewrite seedAfter_S. apply nextSeed_range. lia.
Qed.

(** X2.  From a seed that is not negative (and below 2^1000, far inside
    the doubles), after the first call of [rand()] the seed kept by the
    closure is a whole number from 0 to 2147483646, so every later product
    [seed * 16807] is below 2^53 and the recurrence
    [seed := (seed * 16807) % 2147483647] is exact.  Only the first product
    can be rounded to a double; it is exact when it is below 2^53, as it is
    for every seed string of at most seven characters.  The values of
    [rand()] are the seeds divided by 2147483646, each from 0 to 1, both
    included. *)
Theorem rand_follows_recurrence (seed : Z) (n : nat) :
  (0 <= seed < 2 ^ 1000)%Z ->
  (0 <= Prng.seedAfter (S n) seed < 2147483647)%Z /\
  Prng.seedAfter (S (S n)) seed = ((Prng.seedAfter (S n) seed * 16807) mod 2147483647)%Z /\
  ((seed * 16807 < 2 ^ 53)%Z ->
     Prng.seedAfter 1 seed = ((seed * 16807) mod 2147483647)%Z) /\
  (forall alphaNumSeed : string,
      (String.length alphaNumSeed <= 7)%nat ->
      Prng.getPrng alphaNumSeed = Some seed -> (seed * 16807 < 2 ^ 53)%Z) /\
  fst (Prng.rands n seed)
    = map (fun k => (inject_Z (Prng.seedAfter (S k) seed) / inject_Z 2147483646)%Q)
          (seq 0 n) /\
  Forall (fun r => (0 <= r <= 1)%Q) (fst (Prng.rands n seed)).
Proof.
  intros [Hseed _]. pose proof (seedAfter_range n seed Hseed) as Hrange.
  unfold Prng.DIVISOR in Hrange.
  split; [lia|]. split; [|split; [|split; [|split]]].
  - rewrite (seedAfter_S (S n)). apply nextSeed_exact; lia.
  - intros Hsmall. apply nextSeed_exact; assumption.
  - intros alphaNumSeed Hlen Hparse.
    destruct (getPrng_short alphaNumSeed seed Hlen Hparse) as [_ Hsmall]. lia.
  - apply rands_recurrence.
  - apply rands_range. exact Hseed.
Qed.

Lemma rand_follows_recurrence_witness :
  (0 <= Prng.seedAfter 3 739806647 < 2147483647)%Z /\
  Prng.seedAfter 4 739806647 = ((Prng.seedAfter 3 739806647 * 16807) mod 2147483647)%Z.
Proof.
  pose proof (rand_follows_recurrence 739806647%Z 2 ltac:(split; [lia|reflexivity]))
    as (Hrange & Hstep & _).
  split; [exact Hrange|exact Hstep].
Defined.

(** The rounding of the first product is that of the language: the seed
    string "4fzyo82mvyr" is read as 16249489069550932, one more than its
    digits say, and the first seed after it is 656893287, where the exact
    product would give 656869772. *)
Example rounded_first_product :
  Prng.getPrng "4fzyo82mvyr" = Some 16249489069550932%Z /\
  Prng.nextSeed 16249489069550932 = 656893287%Z /\
  ((16249489069550931 * 16807) mod 2147483647 = 656869772)%Z.
Proof. repeat split; vm_compute; reflexivity. Qed.

(** ** The generator never leaves, and never reaches, the seed 0 *)

Lemma nextSeed_of_multiple (seed : Z) :
  (0 <= seed)%Z -> (seed * 16807 < 2 ^ 53)%Z -> (seed mod Prng.MODULUS = 0)%Z ->
  Prng.nextSeed seed = 0%Z.
Proof.
  intros Hseed Hsmall Hmod. rewrite nextSeed_exact by assumption.
  unfold Prng.MODULUS in Hmod. rewrite Z.mul_mod, Hmod by lia. reflexivity.
Qed.

Lemma nextSeed_of_other (seed : Z) :
  (0 <= seed)%Z -> (seed * 16807 < 2 ^ 53)%Z -> (seed mod Prng.MODULUS <> 0)%Z ->
  (1 <= Prng.nextSeed seed <= Prng.DIVISOR)%Z /\
  (Prng.nextSeed seed mod Prng.MODULUS <> 0)%Z.
Proof.
  intros Hseed Hsmall Hmod.
  pose proof (nextSeed_range seed Hseed) as [Hlo Hhi].
  assert (Hnz : Prng.nextSeed seed <> 0%Z).
  { rewrite nextSeed_exact by assumption. unfold Prng.MODULUS in Hmod. intros E.
    apply Z.mod_divide in E; [|lia].
    rewrite Z.mul_comm in E. apply Z.gauss in E; [|reflexivity].
    apply Hmod. apply Z.mod_divide; [lia|exact E]. }
  split; [lia|].
  unfold Prng.MODULUS, Prng.DIVISOR in *. rewrite Z.mod_small by lia. exact Hnz.
Qed.

(** X7.  Where the first product [seed * 16807] is below 2^53 (no
    rounding): from a seed that is a multiple of 2147483647 (the seed
    string "0" gives one) every [rand()] is 0; from any other seed no
    [rand()] is ever 0: each lies above 0 and up to 1. *)
Theorem rand_zero_only_from_zero_seed (seed : Z) (n : nat) :
  (0 <= seed)%Z -> (seed * 16807 < 2 ^ 53)%Z ->
  ((seed mod 2147483647 = 0)%Z ->
     Forall (fun r => (r == 0)%Q) (fst (Prng.rands n seed))) /\
  ((seed mod 2147483647 <> 0)%Z ->
     Forall (fun r => (0 < r <= 1)%Q) (fst (Prng.rands n seed))).
Proof.
  revert seed. induction n as [|n IH]; intros seed Hseed Hsmall; [split; constructor|].
  rewrite rands_unfold. cbn [fst].
  pose proof (nextSeed_range seed Hseed) as [Hlo Hhi].
  assert (Hnext : (Prng.nextSeed seed * 16807 < 2 ^ 53)%Z)
    by (unfold Prng.DIVISOR in Hhi; lia).
  destruct (IH (Prng.nextSeed seed) Hlo Hnext) as [IHzero IHother].
  split; intros Hmod; constructor.
  - rewrite (nextSeed_of_multiple seed Hseed Hsmall Hmod). reflexivity.
  - apply IHzero. rewrite (nextSeed_of_multiple seed Hseed Hsmall Hmod). reflexivity.
  - destruct (nextSeed_of_other seed Hseed Hsmall Hmod) as [[H1 H2] _]. split.
    + apply Qlt_shift_div_l; [reflexivity|]. rewrite Qmult_0_l.
      rewrite <- (Zlt_Qlt 0). lia.
    + apply Qle_shift_div_r; [reflexivity|]. rewrite Qmult_1_l.
      rewrite <- Zle_Qle. exact H2.
  - apply IHother. apply (nextSeed_of_other seed Hseed Hsmall Hmod).
Qed.

Lemma rand_zero_only_from_zero_seed_witness :
  Forall (fun r => (r == 0)%Q) (fst (Prng.rands 3 0%Z)) /\
  Forall (fun r => (0 < r <= 1)%Q) (fst (Prng.rands 3 12345%Z)).
Proof.
  split.
  - apply (proj1 (rand_zero_only_from_zero_seed 0 3 ltac:(lia) ltac:(lia))). reflexivity.
  - apply (proj2 (rand_zero_only_from_zero_seed 12345 3 ltac:(lia) ltac:(lia))).
    vm_compute. discriminate.
Defined.

(** Past 2^53 the rounded product decides: the seed string "6uamm89b" is
    read as 536131105103, no multiple of 2147483647, and its first seed is
    0; "rfiyvfvb" is read as 1001 * 2147483647 and its first seed is
    2147483646, so that the first [rand()] is 1. *)
Example rounded_product_and_zero :
  Prng.getPrng "6uamm89b" = Some 536131105103%Z /\
  (536131105103 mod 2147483647 <> 0)%Z /\
  Prng.nextSeed 536131105103 = 0%Z /\
  Prng.getPrng "rfiyvfvb" = Some (1001 * 2147483647)%Z /\
  Prng.nextSeed (1001 * 2147483647) = 2147483646%Z.
Proof. repeat split; try (vm_compute; reflexivity). vm_compute. discriminate. Qed.

(** X8.  [randInt(min, max)] with a whole [min] and [max >= min] makes one
    draw and returns a whole number from [min] to [max]; it is below [max]
    when the draw is below 1 and [max] is above [min]. *)
Theorem randInt_range (min : Z) (max : Q) (seed : Z) :
  (0 <= seed)%Z -> (inject_Z min <= max)%Q ->
  exists n : Z,
    (fst (Prng.randInt (inject_Z min) max seed) == inject_Z n)%Q /\
    (min <= n)%Z /\ (inject_Z n <= max)%Q /\
    ((fst (Prng.rand seed) < 1)%Q -> (inject_Z min < max)%Q -> (inject_Z n < max)%Q) /\
    snd (Prng.randInt (inject_Z min) max seed) = Prng.nextSeed seed.
Proof.
  intros Hseed Hmax.
  destruct (rand_range seed Hseed) as [[Hr0 Hr1] _].
  unfold Prng.randInt. rewrite bind_eq.
  assert (Hnext : snd (Prng.rand seed) = Prng.nextSeed seed) by reflexivity.
  destruct (Prng.rand seed) as [r seed']. cbn [fst snd Prng.ret] in *.
  set (span := (r * (max - inject_Z min))%Q).
  exists (min + Qfloor span)%Z.
  assert (Hspan0 : (0 <= span)%Q) by (unfold span; nra).
  assert (Hspan1 : (span <= max - inject_Z min)%Q) by (unfold span; nra).
  pose proof (Qfloor_le span) as Hle.
  assert (Hge : (0 <= Qfloor span)%Z).
  { rewrite <- (Qfloor_Z 0). apply Qfloor_resp_le. exact Hspan0. }
  split; [unfold Js.floor; rewrite inject_Z_plus; reflexivity|].
  split; [lia|]. rewrite inject_Z_plus.
  split; [lra|]. split; [|exact Hnext].
  intros Hbelow Hwide.
  assert (span < max - inject_Z min)%Q by (unfold span; nra). lra.
Qed.

Lemma randInt_range_witness :
  exists n : Z,
    (fst (Prng.randInt (inject_Z 1) 96 12345%Z) == inject_Z n)%Q /\
    (1 <= n)%Z /\ (inject_Z n <= 96)%Q /\
    ((fst (Prng.rand 12345%Z) < 1)%Q -> (inject_Z 1 < 96)%Q -> (inject_Z n < 96)%Q) /\
    snd (Prng.randInt (inject_Z 1) 96 12345%Z) = Prng.nextSeed 12345.
Proof.
  apply randInt_range.
  - lia.
  - vm_compute. discriminate.
Defined.

(** ** Creating a genome *)

Lemma randIndex_range (min : Z) (max : Q) (seed : Z) :
  (0 <= seed)%Z -> (inject_Z min <= max)%Q ->
  (min <= fst (Prng.randIndex min max seed))%Z /\
  (inject_Z (fst (Prng.randIndex min max seed)) <= max)%Q /\
  (0 <= snd (Prng.randIndex min max seed))%Z.
Proof.
  intros Hseed Hmax.
  destruct (rand_range seed Hseed) as [[Hr0 Hr1] Hs].
  unfold Prng.randIndex, Prng.randInt. rewrite !bind_eq.
  destruct (Prng.rand seed) as [r seed']. cbn [fst snd Prng.ret] in *.
  set (span := (r * (max - inject_Z min))%Q).
  assert (Hfloor : Qfloor (inject_Z min + Js.floor span) = (min + Qfloor span)%Z).
  { unfold Js.floor. rewrite <- (Qfloor_Z (min + Qfloor span)).
    apply Qfloor_comp. rewrite inject_Z_plus. reflexivity. }
  rewrite Hfloor.
  assert (Hspan0 : (0 <= span)%Q) by (unfold span; nra).
  assert (Hspan1 : (span <= max - inject_Z min)%Q) by (unfold span; nra).
  pose proof (Qfloor_le span) as Hle.
  assert (Hge : (0 <= Qfloor span)%Z).
  { rewrite <- (Qfloor_Z 0). apply Qfloor_resp_le. exact Hspan0. }
  split; [lia|]. split; [|exact Hs].
  rewrite inject_Z_plus. lra.
Qed.

Lemma range_length (n : Z) : length (Arrays.range n) = Z.to_nat n.
Proof. unfold Arrays.range. rewrite length_map, length_seq. reflexivity. Qed.

(** What [mapM] keeps: the length, a property of every result, and a
    property of the seed. *)
Lemma mapM_Forall {A B : Type} (P : B -> Prop) (fn : A -> Prng.Rand B) (arr : list A) :
  (forall (item : A) (seed : Z),
      (0 <= seed)%Z -> P (fst (fn item seed)) /\ (0 <= snd (fn item seed))%Z) ->
  forall seed : Z, (0 <= seed)%Z ->
    Forall P (fst (Prng.mapM fn arr seed)) /\
    length (fst (Prng.mapM fn arr seed)) = length arr /\
    (0 <= snd (Prng.mapM fn arr seed))%Z.
Proof.
  intros Hfn. induction arr as [|item rest IH]; intros seed Hseed.
  - cbn. auto.
  - cbn [Prng.mapM]. rewrite bind_eq.
    destruct (Hfn item seed Hseed) as [HP Hs].
    destruct (fn item seed) as [y seed1]. cbn [fst snd] in *.
    rewrite bind_eq. destruct (IH seed1 Hs) as (HF & Hlen & Hs2).
    destruct (Prng.mapM fn rest seed1) as [ys seed2]. cbn [fst snd Prng.ret] in *.
    repeat split; [constructor; assumption|cbn; lia|assumption].
Qed.

(** C8, where the early [createGenome] departs from it.  From the seed
    string "b40mbv" the first draw gives 33 genes and the second is exactly
    1 (the value of C3): [CONTROL_BYTE_FREQUENCY[10]] is [undefined], the
    typed array stores 0 for it, and the genome opens with a gene that has
    no control byte. *)
Theorem createGenome_early_gene_without_control_byte :
  Prng.getPrng "b40mbv" = Some 671875339%Z /\
  Prng.randIndex 1 GenomeV0.MAX_GENES 671875339%Z = (33%Z, 739806647%Z) /\
  fst (GenomeV0.randGene 739806647%Z)
    = [None; Some 222; Some 62; Some 138; Some 119; Some 199; Some 243;
       Some 82; Some 82; Some 16; Some 157; Some 123]%Z /\
  take 12 (fst (GenomeV0.createGenome 671875339%Z))
    = [0; 222; 62; 138; 119; 199; 243; 82; 82; 16; 157; 123]%Z /\
  Bits.isControl 0 = false.
Proof.
  repeat split; vm_compute; reflexivity.
Qed.

(** *** The genome of [createGenome] with configurable rates *)

Lemma controlByteRolls_bytes (volatility : Q) (fixed : Genome.Fixed) :
  map Genome.byte (Genome.controlByteRolls (Genome.dynamic volatility fixed))
    = [240; 241; 242; 243; 244]%Z.
Proof. reflexivity. Qed.

Lemma randControlByte_range (volatility : Q) (fixed : Genome.Fixed) (seed : Z) :
  (0 <= seed)%Z ->
  (240 <= fst (Genome.randControlByte volatility fixed seed) <= 244)%Z /\
  (0 <= snd (Genome.randControlByte volatility fixed seed))%Z.
Proof.
  intros Hseed. destruct (rand_range seed Hseed) as [_ Hs].
  unfold Genome.randControlByte. rewrite bind_eq.
  destruct (Prng.rand seed) as [roll seed']. cbn [fst snd Prng.ret] in *.
  split; [|exact Hs].
  pose proof (controlByteRolls_bytes volatility fixed) as Hbytes.
  destruct (Genome.controlByteRolls (Genome.dynamic volatility fixed))
    as [|[b1 q1] [|[b2 q2] [|[b3 q3] [|[b4 q4] [|[b5 q5] [|]]]]]];
    try discriminate Hbytes.
  injection Hbytes as -> -> -> -> ->.
  cbn [find Genome.maxRoll List.last Genome.byte].
  destruct (Js.ltb roll q1), (Js.ltb roll q2), (Js.ltb roll q3),
    (Js.ltb roll q4), (Js.ltb roll q5); cbn; lia.
Qed.

Lemma randGene_shape (volatility : Q) (fixed : Genome.Fixed) (seed : Z) :
  (0 <= seed)%Z ->
  (1 <= Genome.maxGeneSize (Genome.dynamic volatility fixed))%Q ->
  geneShape 244 (Genome.maxGeneSize (Genome.dynamic volatility fixed))
            (fst (Genome.randGene volatility fixed seed)) /\
  (0 <= snd (Genome.randGene volatility fixed seed))%Z.
Proof.
  intros Hseed Hsize. unfold Genome.randGene. rewrite bind_eq.
  destruct (randIndex_range 1 _ seed Hseed Hsize) as (Hn1 & Hn2 & Hs1).
  destruct (Prng.randIndex 1 _ seed) as [n seed1]. cbn [fst snd] in *.
  rewrite bind_eq.
  destruct (mapM_Forall (fun b => 0 <= b <= 256)%Z (fun _ => Prng.randIndex 0 256)
              (Arrays.range n)) with (seed := seed1) as (Hbody & Hlen & Hs2).
  { intros _ s Hs. destruct (randIndex_range 0 256 s Hs) as (H0 & H256 & Hs').
    - discriminate.
    - split; [split; [exact H0|]|exact Hs'].
      rewrite Zle_Qle. exact H256. }
  { exact Hs1. }
  destruct (Prng.mapM _ (Arrays.range n) seed1) as [body seed2]. cbn [fst snd] in *.
  rewrite bind_eq.
  destruct (randControlByte_range volatility fixed seed2 Hs2) as [Hc Hs3].
  destruct (Genome.randControlByte volatility fixed seed2) as [control seed3].
  cbn [fst snd Prng.ret] in *.
  rewrite range_length in Hlen.
  split; [|exact Hs3].
  exists control, body.
  split; [reflexivity|split; [exact Hc|split; [lia|split; [|exact Hbody]]]].
  rewrite Hlen, Z2Nat.id by lia. exact Hn2.
Qed.

Lemma uint8ArrayFrom_shaped (lastControl : Z) (maxGeneSize : Q)
  (genes : list (list (option Z))) :
  (lastControl <= 255)%Z ->
  Forall (geneShape lastControl maxGeneSize) genes ->
  exists parsed : list (Z * list Z),
    Js.uint8ArrayFrom (Arrays.flatten genes)
      = concat (map (fun gene => fst gene :: snd gene) parsed) /\
    length parsed = length genes /\
    Forall (fun gene =>
              (240 <= fst gene <= lastControl)%Z /\
              (1 <= length (snd gene))%nat /\
              (inject_Z (Z.of_nat (length (snd gene))) <= maxGeneSize)%Q /\
              Forall (fun b => 0 <= b <= 255)%Z (snd gene)) parsed.
Proof.
  intros Hlast. induction 1 as [|gene rest Hgene _ IH].
  - exists []. repeat split. constructor.
  - destruct IH as (parsed & Heq & Hlen & Hall).
    destruct Hgene as (control & body & -> & Hc & Hb1 & Hb2 & Hbytes).
    exists ((control, map Js.toUint8 body) :: parsed).
    split; [|split].
    + unfold Arrays.flatten in *. cbn [concat map fst snd].
      unfold Js.uint8ArrayFrom in *. rewrite map_app, Heq.
      cbn [app map]. f_equal.
      * unfold Js.toUint8. apply Z.mod_small. lia.
      * f_equal. rewrite map_map. reflexivity.
    + cbn. rewrite Hlen. reflexivity.
    + constructor; [|exact Hall]. cbn [fst snd]. rewrite length_map.
      split; [exact Hc|split; [exact Hb1|split; [exact Hb2|]]].
      apply Forall_map. eapply Forall_impl; [exact Hbytes|].
      intros b Hb. cbn. unfold Js.toUint8.
      pose proof (Z.mod_pos_bound b 256). lia.
Qed.

(** X1.  Every genome that [createGenome] (the variant with configurable
    rates) produces from a seed read off a seed string is the
    concatenation, in generation order, of between 1 and [maxGeneCount]
    genes, each one control byte of the table followed by between 1 and
    [maxGeneSize] bytes. *)
Theorem createGenome_shape (volatility : Q) (fixed : Genome.Fixed) (seed : Z) :
  (0 <= seed)%Z ->
  (1 <= Genome.maxGeneCount (Genome.dynamic volatility fixed))%Q ->
  (1 <= Genome.maxGeneSize (Genome.dynamic volatility fixed))%Q ->
  exists genes : list (Z * list Z),
    fst (Genome.createGenome volatility fixed seed)
      = concat (map (fun gene => fst gene :: snd gene) genes) /\
    (1 <= length genes)%nat /\
    (inject_Z (Z.of_nat (length genes))
       <= Genome.maxGeneCount (Genome.dynamic volatility fixed))%Q /\
    Forall (fun gene =>
              (240 <= fst gene <= 244)%Z /\
              (1 <= length (snd gene))%nat /\
              (inject_Z (Z.of_nat (length (snd gene)))
                 <= Genome.maxGeneSize (Genome.dynamic volatility fixed))%Q /\
              Forall (fun b => 0 <= b <= 255)%Z (snd gene)) genes.
Proof.
  intros Hseed Hcount Hsize. unfold Genome.createGenome. rewrite bind_eq.
  destruct (randIndex_range 1 _ seed Hseed Hcount) as (Hn1 & Hn2 & Hs1).
  destruct (Prng.randIndex 1 _ seed) as [n seed1]. cbn [fst snd] in *.
  rewrite bind_eq.
  destruct (mapM_Forall
              (geneShape 244 (Genome.maxGeneSize (Genome.dynamic volatility fixed)))
              (fun _ => Genome.randGene volatility fixed)
              (Arrays.range n)) with (seed := seed1) as (Hgenes & Hlen & _).
  { intros _ s Hs. apply randGene_shape; assumption. }
  { exact Hs1. }
  destruct (Prng.mapM _ (Arrays.range n) seed1) as [generated seed2].
  cbn [fst snd Prng.ret] in *.
  destruct (uint8ArrayFrom_shaped 244 _ generated ltac:(lia) Hgenes)
    as (parsed & Heq & Hplen & Hall).
  rewrite range_length in Hlen.
  exists parsed. split; [exact Heq|split; [lia|split; [|exact Hall]]].
  rewrite Hplen, Hlen, Z2Nat.id by lia. exact Hn2.
Qed.

Lemma createGenome_shape_witness :
  let fixed := Genome.mkFixed 3 3 (1 # 2) (1 # 10) (1 # 10) (1 # 10) (1 # 10) (1 # 10)
                 (1 # 10) (1 # 10) (1 # 2) (1 # 10) (1 # 10) (1 # 10) 1 2 in
  exists genes : list (Z * list Z),
    fst (Genome.createGenome 100 fixed 12345%Z)
      = concat (map (fun gene => fst gene :: snd gene) genes) /\
    (1 <= length genes)%nat /\
    (inject_Z (Z.of_nat (length genes))
       <= Genome.maxGeneCount (Genome.dynamic 100 fixed))%Q /\
    Forall (fun gene =>
              (240 <= fst gene <= 244)%Z /\
              (1 <= length (snd gene))%nat /\
              (inject_Z (Z.of_nat (length (snd gene)))
                 <= Genome.maxGeneSize (Genome.dynamic 100 fixed))%Q /\
              Forall (fun b => 0 <= b <= 255)%Z (snd gene)) genes.
Proof.
  cbn zeta. apply createGenome_shape.
  - lia.
  - vm_compute. discriminate.
  - vm_compute. discriminate.
Defined.

(** ** The early [createGenome] on runs without a draw of 1 *)

Lemma belowOneForb_sound (n : nat) (seed : Z) :
  belowOneForb n seed = true -> belowOneFor n seed.
Proof.
  revert seed. induction n as [|n IH]; intros seed H k Hk; [lia|].
  cbn [belowOneForb] in H. apply andb_true_iff in H as [Hhere Hrest].
  destruct k as [|k].
  - cbn. apply negb_true_iff, Z.eqb_neq in Hhere. exact Hhere.
  - apply (IH _ Hrest k). lia.
Qed.

Lemma belowOneFor_weaken (m n : nat) (seed : Z) :
  (m <= n)%nat -> belowOneFor n seed -> belowOneFor m seed.
Proof. intros Hmn H k Hk. apply H. lia. Qed.

Lemma rand_below_one (n : nat) (seed : Z) :
  (0 <= seed)%Z -> belowOneFor (S n) seed ->
  (0 <= fst (Prng.rand seed) < 1)%Q /\
  (0 <= snd (Prng.rand seed))%Z /\
  belowOneFor n (snd (Prng.rand seed)).
Proof.
  intros Hseed Hbelow. pose proof (nextSeed_range seed Hseed) as [Hlo Hhi].
  assert (Hne : Prng.nextSeed seed <> Prng.DIVISOR) by (apply (Hbelow 0%nat); lia).
  unfold Prng.rand. cbn [fst snd]. split; [split|split].
  - apply Qle_shift_div_l; [reflexivity|].
    rewrite Qmult_0_l. rewrite <- (Zle_Qle 0). exact Hlo.
  - apply Qlt_shift_div_r; [reflexivity|].
    rewrite Qmult_1_l. rewrite <- Zlt_Qlt. lia.
  - exact Hlo.
  - intros k Hk. apply (Hbelow (S k)). lia.
Qed.

Lemma randIndex_below (min max : Z) (n : nat) (seed : Z) :
  (0 <= seed)%Z -> belowOneFor (S n) seed -> (min < max)%Z ->
  (min <= fst (Prng.randIndex min (inject_Z max) seed) < max)%Z /\
  (0 <= snd (Prng.randIndex min (inject_Z max) seed))%Z /\
  belowOneFor n (snd (Prng.randIndex min (inject_Z max) seed)).
Proof.
  intros Hseed Hbelow Hmax.
  destruct (rand_below_one n seed Hseed Hbelow) as ([Hr0 Hr1] & Hs & Hnext).
  unfold Prng.randIndex, Prng.randInt. rewrite !bind_eq.
  destruct (Prng.rand seed) as [r seed']. cbn [fst snd Prng.ret] in *.
  set (span := (r * (inject_Z max - inject_Z min))%Q).
  assert (Hfloor : Qfloor (inject_Z min + Js.floor span) = (min + Qfloor span)%Z).
  { unfold Js.floor. rewrite <- (Qfloor_Z (min + Qfloor span)).
    apply Qfloor_comp. rewrite inject_Z_plus. reflexivity. }
  rewrite Hfloor.
  assert (Hwidth : (0 < inject_Z max - inject_Z min)%Q).
  { rewrite Zlt_Qlt in Hmax. lra. }
  assert (Hspan0 : (0 <= span)%Q) by (unfold span; nra).
  assert (Hspan1 : (span < inject_Z (max - min))%Q).
  { unfold span, Z.sub. rewrite inject_Z_plus, inject_Z_opp. nra. }
  assert (Hge : (0 <= Qfloor span)%Z).
  { rewrite <- (Qfloor_Z 0). apply Qfloor_resp_le. exact Hspan0. }
  assert (Hlt : (Qfloor span < max - min)%Z).
  { rewrite Zlt_Qlt. eapply Qle_lt_trans; [apply Qfloor_le|exact Hspan1]. }
  split; [lia|]. split; assumption.
Qed.

Lemma mapM_budget {A B : Type} (P : B -> Prop) (cost : nat) (fn : A -> Prng.Rand B) :
  (forall (item : A) (seed : Z) (n : nat),
      (0 <= seed)%Z -> belowOneFor (cost + n) seed ->
      P (fst (fn item seed)) /\ (0 <= snd (fn item seed))%Z /\
      belowOneFor n (snd (fn item seed))) ->
  forall (arr : list A) (seed : Z) (n : nat),
    (0 <= seed)%Z -> belowOneFor (length arr * cost + n) seed ->
    Forall P (fst (Prng.mapM fn arr seed)) /\
    length (fst (Prng.mapM fn arr seed)) = length arr /\
    (0 <= snd (Prng.mapM fn arr seed))%Z /\
    belowOneFor n (snd (Prng.mapM fn arr seed)).
Proof.
  intros Hfn. induction arr as [|item rest IH]; intros seed n Hseed Hbelow.
  - cbn in *. auto.
  - cbn [Prng.mapM]. rewrite bind_eq.
    destruct (Hfn item seed (length rest * cost + n)%nat Hseed) as (HP & Hs & Hb).
    { eapply belowOneFor_weaken; [|exact Hbelow]. cbn [length]. lia. }
    destruct (fn item seed) as [y seed1]. cbn [fst snd] in *.
    rewrite bind_eq. destruct (IH seed1 n Hs Hb) as (HF & Hlen & Hs2 & Hb2).
    destruct (Prng.mapM fn rest seed1) as [ys seed2]. cbn [fst snd Prng.ret] in *.
    split; [constructor; assumption|]. split; [cbn; lia|]. split; assumption.
Qed.

Lemma randGene_early_shape (seed : Z) (n : nat) :
  (0 <= seed)%Z -> belowOneFor (13 + n) seed ->
  geneShape 241 11 (fst (GenomeV0.randGene seed)) /\
  (0 <= snd (GenomeV0.randGene seed))%Z /\
  belowOneFor n (snd (GenomeV0.randGene seed)).
Proof.
  intros Hseed Hbelow. unfold GenomeV0.randGene. rewrite bind_eq.
  change (inject_Z (Z.of_nat (length GenomeV0.CONTROL_BYTE_FREQUENCY)))
    with (inject_Z 10).
  destruct (randIndex_below 0 10 (12 + n) seed Hseed Hbelow) as (Hi & Hs1 & Hb1); [lia|].
  destruct (Prng.randIndex 0 (inject_Z 10) seed) as [i seed1]. cbn [fst snd] in *.
  rewrite bind_eq. change GenomeV0.MAX_BYTES with (inject_Z 12).
  destruct (randIndex_below 1 12 (11 + n) seed1 Hs1 Hb1) as (Hn & Hs2 & Hb2); [lia|].
  destruct (Prng.randIndex 1 (inject_Z 12) seed1) as [count seed2]. cbn [fst snd] in *.
  rewrite bind_eq.
  destruct (mapM_budget (fun b => 0 <= b <= 256)%Z 1 (fun _ : Z => Prng.randIndex 0 256))
    with (arr := Arrays.range count) (seed := seed2) (n := n)
    as (Hbody & Hlen & Hs3 & Hb3).
  { intros _ s m Hs Hb. change 256%Q with (inject_Z 256).
    destruct (randIndex_below 0 256 m s Hs Hb) as (H256 & Hs' & Hb'); [lia|].
    split; [lia|]. split; assumption. }
  { exact Hs2. }
  { eapply belowOneFor_weaken; [|exact Hb2]. rewrite range_length. lia. }
  destruct (Prng.mapM _ (Arrays.range count) seed2) as [body seed3].
  cbn [fst snd Prng.ret] in *. rewrite range_length in Hlen.
  split; [|split; assumption].
  assert (Hcases : (i = 0 \/ i = 1 \/ i = 2 \/ i = 3 \/ i = 4 \/ i = 5 \/ i = 6
                    \/ i = 7 \/ i = 8 \/ i = 9)%Z) by lia.
  assert (Htype : exists control : Z,
             Arrays.at_index GenomeV0.CONTROL_BYTE_FREQUENCY i = Some control /\
             (240 <= control <= 241)%Z).
  { destruct Hcases as [->|[->|[->|[->|[->|[->|[->|[->|[->| ->]]]]]]]]];
      eexists; (split; [reflexivity|lia]). }
  destruct Htype as (control & -> & Hcontrol).
  exists control, body.
  split; [reflexivity|split; [exact Hcontrol|split; [lia|split; [|exact Hbody]]]].
  rewrite Hlen, Z2Nat.id by lia.
  change (inject_Z count <= inject_Z 11)%Q. rewrite <- Zle_Qle. lia.
Qed.

(** X6.  On a run of the early [createGenome] whose draws are all below 1
    (it makes at most 1236), the genome is the concatenation, in
    generation order, of between 1 and 95 genes, each the control byte
    0xF0 or 0xF1 followed by between 1 and 11 bytes. *)
Theorem createGenome_early_shape (seed : Z) :
  (0 <= seed)%Z -> belowOneFor 1236 seed ->
  exists genes : list (Z * list Z),
    fst (GenomeV0.createGenome seed)
      = concat (map (fun gene => fst gene :: snd gene) genes) /\
    (1 <= length genes <= 95)%nat /\
    Forall (fun gene =>
              (240 <= fst gene <= 241)%Z /\
              (1 <= length (snd gene) <= 11)%nat /\
              Forall (fun b => 0 <= b <= 255)%Z (snd gene)) genes.
Proof.
  intros Hseed Hbelow. unfold GenomeV0.createGenome. rewrite bind_eq.
  change GenomeV0.MAX_GENES with (inject_Z 96).
  destruct (randIndex_below 1 96 1235 seed Hseed Hbelow) as (Hn & Hs1 & Hb1); [lia|].
  destruct (Prng.randIndex 1 (inject_Z 96) seed) as [count seed1]. cbn [fst snd] in *.
  rewrite bind_eq.
  destruct (mapM_budget (geneShape 241 11) 13 (fun _ : Z => GenomeV0.randGene))
    with (arr := Arrays.range count) (seed := seed1) (n := 0%nat)
    as (Hgenes & Hlen & _ & _).
  { intros _ s m Hs Hb. apply randGene_early_shape; assumption. }
  { exact Hs1. }
  { eapply belowOneFor_weaken; [|exact Hb1]. rewrite range_length. lia. }
  destruct (Prng.mapM _ (Arrays.range count) seed1) as [generated seed2].
  cbn [fst snd Prng.ret] in *. rewrite range_length in Hlen.
  destruct (uint8ArrayFrom_shaped 241 11 generated ltac:(lia) Hgenes)
    as (parsed & Heq & Hplen & Hall).
  exists parsed. split; [exact Heq|]. split; [lia|].
  eapply Forall_impl; [exact Hall|].
  intros gene (Hc & Hl1 & Hl2 & Hbytes).
  split; [exact Hc|]. split; [|exact Hbytes].
  split; [exact Hl1|].
  change (inject_Z (Z.of_nat (length (snd gene))) <= inject_Z 11)%Q in Hl2.
  rewrite <- Zle_Qle in Hl2. lia.
Qed.

Lemma createGenome_early_shape_witness :
  exists genes : list (Z * list Z),
    fst (GenomeV0.createGenome 12345%Z)
      = concat (map (fun gene => fst gene :: snd gene) genes) /\
    (1 <= length genes <= 95)%nat /\
    Forall (fun gene =>
              (240 <= fst gene <= 241)%Z /\
              (1 <= length (snd gene) <= 11)%nat /\
              Forall (fun b => 0 <= b <= 255)%Z (snd gene)) genes.
Proof.
  apply createGenome_early_shape.
  - lia.
  - apply belowOneForb_sound. vm_compute. reflexivity.
Defined.

(** ** Reading a genome *)

Lemma filter_imap_skip {A B : Type} (keep : B -> bool) (g : nat -> A -> B) (arr : list A) :
  Forall (fun item => forall i : nat, keep (g i item) = false) arr ->
  List.filter keep (imap g arr) = [].
Proof.
  intros H. revert g H. induction arr as [|item rest IH]; intros g H; [reflexivity|].
  inversion H as [|? ? Hitem Hrest]; subst. cbn. rewrite Hitem.
  apply IH. eapply Forall_impl; [exact Hrest|]. intros item' Hi i. apply Hi.
Qed.

Lemma findIndexes_none {A : Type} (test : A -> bool) (arr : list A) :
  Forall (fun item => test item = false) arr ->
  Arrays.findIndexes arr test = [].
Proof.
  intros H. unfold Arrays.findIndexes, Arrays.mapi. apply filter_imap_skip.
  eapply Forall_impl; [exact H|]. intros item Hitem i. cbn. rewrite Hitem. reflexivity.
Qed.

Lemma floor_zero_over (b : Q) : Js.floor (inject_Z 0 / b) = 0%Q.
Proof.
  unfold Js.floor. replace (Qfloor (inject_Z 0 / b)) with 0%Z; [reflexivity|].
  symmetry. rewrite <- (Qfloor_Z 0). apply Qfloor_comp.
  unfold Qdiv. apply Qmult_0_l.
Qed.

(** C9.  A genome without a byte of 0xF0 or more parses to no gene, and
    both variants of [readGenome] return size 0 and no spike; the variant
    with a hue hands three zero bit counts to [rgbToHue].  ([bitsPerMass]
    is positive: the size is a quotient by it.) *)
Theorem readGenome_without_control_byte
  (fixed : Genome.Fixed) (rgbToHue : Q -> Q -> Q -> Q) (genome : list Z) :
  (0 < Genome.bitsPerMass fixed)%Q ->
  Forall (fun byte => (byte < 240)%Z) genome ->
  Genome.toGenes genome = [] /\
  Genome.readGenome fixed rgbToHue genome
    = {| Genome.size := 0; Genome.spikes := []; Genome.hue := rgbToHue 0%Q 0%Q 0%Q |} /\
  Genome.countTypeBits 242 (Genome.toGenes genome) = 0%Z /\
  Genome.countTypeBits 243 (Genome.toGenes genome) = 0%Z /\
  Genome.countTypeBits 244 (Genome.toGenes genome) = 0%Z /\
  GenomeV0.toGenes genome = [] /\
  GenomeV0.readGenome genome = {| GenomeV0.size := 0; GenomeV0.spikes := [] |}.
Proof.
  intros _ Hbytes.
  assert (Hidx : Genome.findControlIndexes genome = []).
  { apply findIndexes_none. eapply Forall_impl; [exact Hbytes|].
    intros byte Hb. unfold Bits.isControl. apply Z.leb_gt. exact Hb. }
  assert (Hgenes : Genome.toGenes genome = []).
  { unfold Genome.toGenes. rewrite Hidx. reflexivity. }
  unfold Genome.readGenome, GenomeV0.readGenome.
  change (GenomeV0.toGenes genome) with (Genome.toGenes genome).
  rewrite Hgenes. cbn [List.filter map fold_left Genome.countTypeBits].
  rewrite floor_zero_over. repeat split.
Qed.

Lemma readGenome_without_control_byte_witness :
  let fixed := Genome.mkFixed 3 3 (1 # 2) (1 # 10) (1 # 10) (1 # 10) (1 # 10) (1 # 10)
                 (1 # 10) (1 # 10) (1 # 2) (1 # 10) (1 # 10) (1 # 10) 1 2 in
  Genome.readGenome fixed (fun r g b => (r + g + b)%Q) [1; 2; 239; 17]%Z
    = {| Genome.size := 0; Genome.spikes := []; Genome.hue := (0 + 0 + 0)%Q |}.
Proof.
  cbn zeta.
  refine (proj1 (proj2 (readGenome_without_control_byte _ _ [1; 2; 239; 17]%Z _ _))).
  - reflexivity.
  - repeat constructor.
Defined.

(** ** Transposition *)

Section Transpose.
Context {A : Type}.
Implicit Types arr transposed toTranspose : list A.

Lemma splice_insert_perm arr (start : Z) (item : A) :
  Permutation (Arrays.splice_insert arr start item) (item :: arr).
Proof.
  unfold Arrays.splice_insert.
  set (k := Arrays.relativeIndex (length arr) start).
  transitivity (item :: take k arr ++ drop k arr).
  - symmetry. apply Permutation_middle.
  - rewrite take_drop. reflexivity.
Qed.

Lemma pickLoop_perm arr (chance : Q) transposed toTranspose (seed : Z) :
  let picked := fst (Genome.pickLoop arr chance transposed toTranspose seed) in
  Permutation (fst picked ++ snd picked) (transposed ++ toTranspose ++ arr).
Proof.
  cbn zeta. revert transposed toTranspose seed.
  induction arr as [|item rest IH]; intros transposed toTranspose seed.
  - cbn. rewrite app_nil_r. reflexivity.
  - cbn [Genome.pickLoop]. rewrite bind_eq.
    destruct (Prng.rand seed) as [r seed'].
    destruct (Js.ltb r chance); cbv beta iota.
    + rewrite IH. rewrite <- !app_assoc. reflexivity.
    + rewrite IH. rewrite <- !app_assoc.
      apply Permutation_app_head. cbn.
      apply Permutation_middle.
Qed.

Lemma insertLoop_perm toTranspose transposed (seed : Z) :
  Permutation (fst (Genome.insertLoop toTranspose transposed seed))
              (transposed ++ toTranspose).
Proof.
  revert transposed seed.
  induction toTranspose as [|item rest IH]; intros transposed seed.
  - cbn. rewrite app_nil_r. reflexivity.
  - cbn [Genome.insertLoop]. rewrite bind_eq.
    destruct (Prng.randIndex 0 _ seed) as [at_ seed'].
    rewrite IH, splice_insert_perm. apply Permutation_middle.
Qed.

Lemma transposeItems_perm arr (chance : Q) (seed : Z) :
  Permutation arr (fst (Genome.transposeItems arr chance seed)).
Proof.
  unfold Genome.transposeItems. rewrite bind_eq.
  pose proof (pickLoop_perm arr chance [] [] seed) as Hpick. cbn zeta in Hpick.
  destruct (Genome.pickLoop arr chance [] [] seed) as [[transposed toTranspose] seed'].
  cbn [fst snd] in *. rewrite insertLoop_perm. symmetry. exact Hpick.
Qed.

End Transpose.

Lemma concat_perm {A : Type} (xs ys : list (list A)) :
  Permutation xs ys -> Permutation (concat xs) (concat ys).
Proof.
  induction 1 as [|x xs ys _ IH|x y xs|xs ys zs _ IH1 _ IH2]; cbn.
  - reflexivity.
  - apply Permutation_app_head. exact IH.
  - rewrite !app_assoc. apply Permutation_app_tail. apply Permutation_app_comm.
  - etransitivity; eassumption.
Qed.

(** C10.  For every array, chance and state of the generator,
    [transposeItems] returns a permutation of the array; so an array of
    bytes keeps its bytes, and an array of genes keeps every byte of every
    gene once the genes are concatenated. *)
Theorem transposeItems_permutes :
  (forall (A : Type) (arr : list A) (chance : Q) (seed : Z),
      Permutation arr (fst (Genome.transposeItems arr chance seed))) /\
  (forall (genes : list (list Z)) (chance : Q) (seed : Z),
      Permutation (concat genes)
                  (concat (fst (Genome.transposeItems genes chance seed)))).
Proof.
  split.
  - intros A arr chance seed. apply transposeItems_perm.
  - intros genes chance seed. apply concat_perm, transposeItems_perm.
Qed.

(** ** The stages of [replicateGenome] against the specification *)

(** The mask read off eight binary digits flips the bits one by one. *)
Lemma mask_flipBits (chance : Q) (byte : Z) (seed : Z) :
  (let* digits := Prng.mapM (fun _ => let* r := Prng.rand in
                               Prng.ret (if Js.ltb r chance then "1" else "0")%string)
                            (Arrays.range 8) in
   Prng.ret (Z.lxor byte (default 0%Z (Prng.parseInt (String.concat "" digits) 2)))) seed
  = ReplicateSpec.flipBits chance 8 byte seed.
Proof.
  change (Arrays.range 8) with [0; 1; 2; 3; 4; 5; 6; 7]%Z.
  cbn [Prng.mapM ReplicateSpec.flipBits].
  unfold ReplicateSpec.happens, Prng.bind, Prng.ret.
  destruct (Prng.rand seed) as [r1 s1].
  destruct (Prng.rand s1) as [r2 s2].
  destruct (Prng.rand s2) as [r3 s3].
  destruct (Prng.rand s3) as [r4 s4].
  destruct (Prng.rand s4) as [r5 s5].
  destruct (Prng.rand s5) as [r6 s6].
  destruct (Prng.rand s6) as [r7 s7].
  destruct (Prng.rand s7) as [r8 s8].
  destruct (Js.ltb r1 chance), (Js.ltb r2 chance), (Js.ltb r3 chance),
    (Js.ltb r4 chance), (Js.ltb r5 chance), (Js.ltb r6 chance),
    (Js.ltb r7 chance), (Js.ltb r8 chance);
    (f_equal; cbn [Z.of_nat]; rewrite ?Z.lxor_assoc;
     try apply Z.lxor_0_r; reflexivity).
Qed.

Lemma mapM_ext {A B : Type} (f g : A -> Prng.Rand B) (arr : list A) (seed : Z) :
  (forall (item : A) (s : Z), f item s = g item s) ->
  Prng.mapM f arr seed = Prng.mapM g arr seed.
Proof.
  intros Hfg. revert seed. induction arr as [|item rest IH]; intros seed; [reflexivity|].
  cbn [Prng.mapM]. rewrite !bind_eq, Hfg. destruct (g item seed) as [y seed1].
  rewrite !bind_eq, IH. reflexivity.
Qed.

Lemma filterM_dropEach {A : Type} (chance : Q) (items : list A) (seed : Z) :
  Prng.filterM (Genome.survives chance) items seed
  = ReplicateSpec.dropEach chance items seed.
Proof.
  revert seed. induction items as [|item rest IH]; intros seed; [reflexivity|].
  cbn [Prng.filterM ReplicateSpec.dropEach].
  unfold Genome.survives, ReplicateSpec.happens. rewrite !bind_eq.
  destruct (Prng.rand seed) as [r seed1]. cbn [Prng.ret].
  rewrite !bind_eq, IH.
  destruct (ReplicateSpec.dropEach chance rest seed1) as [kept seed2].
  cbn [Prng.ret]. rewrite geb_negb_ltb. destruct (Js.ltb r chance); reflexivity.
Qed.

Lemma at_index_of_nat {A : Type} (arr : list A) (i : nat) :
  Arrays.at_index arr (Z.of_nat i) = arr !! i.
Proof.
  unfold Arrays.at_index. destruct (Z.ltb_spec (Z.of_nat i) 0); [lia|].
  rewrite Nat2Z.id. reflexivity.
Qed.

(** The loop of [repeatItems] at index [i] goes on as the geometric repeat
    of the items from [i] on. *)
Lemma repeatLoop_repeatEach {A : Type} (arr : list A) (chance : Q) (fuel : nat)
  (i : nat) (repeated : list A) (seed : Z) :
  Genome.repeatLoop arr chance fuel (Z.of_nat i) repeated seed
  = match ReplicateSpec.repeatEach chance fuel (drop i arr) seed with
    | Some (out, seed') => Some (repeated ++ out, seed')
    | None => None
    end.
Proof.
  revert i repeated seed. induction fuel as [|fuel IH]; intros i repeated seed;
    [reflexivity|].
  cbn [Genome.repeatLoop ReplicateSpec.repeatEach].
  rewrite at_index_of_nat.
  destruct (arr !! i) as [item|] eqn:Hitem.
  - rewrite (drop_S _ _ _ Hitem).
    unfold ReplicateSpec.happens. rewrite bind_eq.
    destruct (Prng.rand seed) as [r seed1]. cbn [Prng.ret].
    destruct (Js.ltb r chance).
    + replace (Z.of_nat i - 1 + 1)%Z with (Z.of_nat i) by lia.
      rewrite IH, (drop_S _ _ _ Hitem).
      destruct (ReplicateSpec.repeatEach chance fuel _ seed1) as [[out seed2]|];
        [|reflexivity].
      rewrite <- app_assoc. reflexivity.
    + replace (Z.of_nat i + 1)%Z with (Z.of_nat (S i)) by lia.
      rewrite IH.
      destruct (ReplicateSpec.repeatEach chance fuel _ seed1) as [[out seed2]|];
        [|reflexivity].
      rewrite <- app_assoc. reflexivity.
  - rewrite drop_ge by (apply lookup_ge_None; exact Hitem).
    rewrite app_nil_r. reflexivity.
Qed.

Lemma repeatItems_repeatEach {A : Type} (arr : list A) (chance : Q) (fuel : nat)
  (seed : Z) :
  Genome.repeatItems arr chance fuel seed = ReplicateSpec.repeatEach chance fuel arr seed.
Proof.
  unfold Genome.repeatItems. rewrite (repeatLoop_repeatEach arr chance fuel 0).
  rewrite drop_0.
  destruct (ReplicateSpec.repeatEach chance fuel arr seed) as [[out seed']|]; reflexivity.
Qed.

Lemma pickLoop_takeOut {A : Type} (arr : list A) (chance : Q)
  (transposed toTranspose : list A) (seed : Z) :
  Genome.pickLoop arr chance transposed toTranspose seed
  = let (parts, seed') := ReplicateSpec.takeOut chance arr seed in
    ((transposed ++ fst parts, toTranspose ++ snd parts), seed').
Proof.
  revert transposed toTranspose seed.
  induction arr as [|item rest IH]; intros transposed toTranspose seed.
  - cbn. rewrite !app_nil_r. reflexivity.
  - cbn [Genome.pickLoop ReplicateSpec.takeOut].
    unfold ReplicateSpec.happens. rewrite !bind_eq.
    destruct (Prng.rand seed) as [r seed1]. cbn [Prng.ret]. rewrite bind_eq.
    destruct (Js.ltb r chance); rewrite IH;
      destruct (ReplicateSpec.takeOut chance rest seed1) as [[inPlace taken] seed2];
      cbn [fst snd Prng.ret]; rewrite <- app_assoc; reflexivity.
Qed.

Lemma insertLoop_putBack {A : Type} (toTranspose transposed : list A) (seed : Z) :
  Genome.insertLoop toTranspose transposed seed
  = ReplicateSpec.putBack toTranspose transposed seed.
Proof.
  revert transposed seed.
  induction toTranspose as [|item rest IH]; intros transposed seed; [reflexivity|].
  cbn [Genome.insertLoop ReplicateSpec.putBack]. rewrite !bind_eq.
  destruct (Prng.randIndex 0 _ seed) as [position seed1]. apply IH.
Qed.

Lemma transposeItems_relocateEach {A : Type} (arr : list A) (chance : Q) (seed : Z) :
  Genome.transposeItems arr chance seed = ReplicateSpec.relocateEach chance arr seed.
Proof.
  unfold Genome.transposeItems, ReplicateSpec.relocateEach.
  rewrite !bind_eq, pickLoop_takeOut.
  destruct (ReplicateSpec.takeOut chance arr seed) as [[inPlace taken] seed1].
  cbn [fst snd app]. apply insertLoop_putBack.
Qed.

Lemma bindOpt_ext {A B : Type} (m m' : Genome.RandOpt A) (k k' : A -> Genome.RandOpt B)
  (seed : Z) :
  m seed = m' seed ->
  (forall (a : A) (s : Z), k a s = k' a s) ->
  Genome.bindOpt m k seed = Genome.bindOpt m' k' seed.
Proof.
  intros Hm Hk. unfold Genome.bindOpt. rewrite Hm.
  destruct (m' seed) as [[a seed1]|]; [apply Hk|reflexivity].
Qed.

Lemma replicateGenome_refines (volatility : Q) (fixed : Genome.Fixed) (fuel : nat)
  (genome : list Z) (seed : Z) :
  Genome.replicateGenome volatility fixed fuel genome seed
  = ReplicateSpec.replicate (Genome.dynamic volatility fixed) fuel genome seed.
Proof.
  unfold Genome.replicateGenome, ReplicateSpec.replicate, Utils.map, Utils.filter.
  apply bindOpt_ext.
  { unfold Genome.lift. f_equal. apply mapM_ext. intros byte s.
    apply mask_flipBits. }
  intros mutated s1. apply bindOpt_ext.
  { unfold Genome.lift. f_equal. apply filterM_dropEach. }
  intros kept s2. apply bindOpt_ext.
  { apply repeatItems_repeatEach. }
  intros repeated s3. apply bindOpt_ext.
  { unfold Genome.lift. f_equal. apply transposeItems_relocateEach. }
  intros transposed s4. cbv zeta. apply bindOpt_ext.
  { unfold Genome.lift. f_equal. apply filterM_dropEach. }
  intros keptGenes s5. apply bindOpt_ext.
  { apply repeatItems_repeatEach. }
  intros repeatedGenes s6. apply bindOpt_ext.
  { unfold Genome.lift. f_equal. apply transposeItems_relocateEach. }
  intros transposedGenes s7. reflexivity.
Qed.

Lemma replicateGenome_early_flips_only (genome : list Z) (seed : Z) :
  GenomeV0.replicateGenome genome seed
  = Prng.mapM (fun byte =>
                 let* mutated := ReplicateSpec.flipBits GenomeV0.MUTATE_BIT_CHANCE 8 byte in
                 Prng.ret (Js.toUint8 mutated)) genome seed.
Proof.
  unfold GenomeV0.replicateGenome. apply mapM_ext. intros byte s.
  rewrite !bind_eq. unfold GenomeV0.mutateBits. rewrite mask_flipBits. reflexivity.
Qed.

Lemma mapM_length {A B : Type} (fn : A -> Prng.Rand B) (arr : list A) (seed : Z) :
  length (fst (Prng.mapM fn arr seed)) = length arr.
Proof.
  revert seed. induction arr as [|item rest IH]; intros seed; [reflexivity|].
  cbn [Prng.mapM]. rewrite bind_eq. destruct (fn item seed) as [y seed1].
  rewrite bind_eq. specialize (IH seed1).
  destruct (Prng.mapM fn rest seed1) as [ys seed2]. cbn in *. lia.
Qed.

(** C2, as the code has it.  The [replicateGenome] with configurable
    rates is the ordered pipeline of the specification, stage by stage and
    draw by draw: flip the bits of each byte, drop, repeat geometrically
    and relocate the bytes, segment at the control bytes, drop, repeat and
    relocate the genes, concatenate.  The [replicateGenome] of
    src/app/meebas/genome.js is the first stage alone, at the fixed chance
    0.0005, and returns as many bytes as it is given. *)
Theorem replicateGenome_pipeline :
  (forall (volatility : Q) (fixed : Genome.Fixed) (fuel : nat) (genome : list Z)
          (seed : Z),
      Genome.replicateGenome volatility fixed fuel genome seed
      = ReplicateSpec.replicate (Genome.dynamic volatility fixed) fuel genome seed) /\
  (forall (genome : list Z) (seed : Z),
      GenomeV0.replicateGenome genome seed
      = Prng.mapM (fun byte =>
                     let* mutated :=
                       ReplicateSpec.flipBits GenomeV0.MUTATE_BIT_CHANCE 8 byte in
                     Prng.ret (Js.toUint8 mutated)) genome seed) /\
  (forall (genome : list Z) (seed : Z),
      length (fst (GenomeV0.replicateGenome genome seed)) = length genome).
Proof.
  split; [|split].
  - apply replicateGenome_refines.
  - apply replicateGenome_early_flips_only.
  - intros genome seed. apply mapM_length.
Qed.

(** The pipeline runs: a genome of two genes replicated from the seed
    12345 at the settings [genomeSettings]; six rounds of each repeat loop
    are enough, five are not. *)
Example replicateGenome_runs :
  Genome.replicateGenome 100 genomeSettings 6 [240; 127; 0; 241; 15]%Z 12345%Z
    = Some ([240; 127; 0; 241; 15]%Z, 2023842041%Z) /\
  Genome.replicateGenome 100 genomeSettings 5 [240; 127; 0; 241; 15]%Z 12345%Z = None.
Proof. split; vm_compute; reflexivity. Qed.

(** ** Counting bits *)

Lemma countBits_app_acc (bytes : list Z) (acc : Z) :
  fold_left (fun count byte => (count + Bits.countOnes (Bits.toString2 byte))%Z) bytes acc
  = (acc + Bits.countBits bytes)%Z.
Proof.
  unfold Bits.countBits. revert acc.
  induction bytes as [|byte rest IH]; intros acc; cbn [fold_left]; [lia|].
  rewrite IH, (IH (0 + _)%Z). lia.
Qed.

Lemma countBits_cons (byte : Z) (rest : list Z) :
  Bits.countBits (byte :: rest)
  = (Bits.countOnes (Bits.toString2 byte) + Bits.countBits rest)%Z.
Proof.
  unfold Bits.countBits at 1. cbn [fold_left]. rewrite countBits_app_acc. lia.
Qed.

Lemma countOnes_setBits (byte : Z) :
  (0 <= byte <= 255)%Z -> Bits.countOnes (Bits.toString2 byte) = setBits byte.
Proof.
  intros Hbyte.
  assert (Hall : forallb (fun b => (Bits.countOnes (Bits.toString2 b) =? setBits b)%Z)
                   (map Z.of_nat (seq 0 256)) = true) by (vm_compute; reflexivity).
  rewrite forallb_forall in Hall. apply Z.eqb_eq, Hall.
  rewrite <- (Z2Nat.id byte) by lia. apply in_map, in_seq. lia.
Qed.

Lemma setBits_range (byte : Z) : (0 <= setBits byte <= 8)%Z.
Proof.
  unfold setBits.
  pose proof (List.filter_length_le (Z.testbit byte) (map Z.of_nat (seq 0 8))) as H.
  rewrite length_map, length_seq in H. lia.
Qed.

(** X12.  [countBits] of bytes (0 to 255) is the number of bits set in
    them: the sum, over the bytes, of the number of positions 0 to 7 whose
    bit is 1; so it lies between 0 and 8 times the number of bytes, and the
    count of two arrays joined is the sum of their counts. *)
Theorem countBits_counts_set_bits (bytes more : list Z) :
  Forall (fun byte => 0 <= byte <= 255)%Z bytes ->
  Bits.countBits bytes = fold_right Z.add 0%Z (map setBits bytes) /\
  (0 <= Bits.countBits bytes <= 8 * Z.of_nat (length bytes))%Z /\
  Bits.countBits (bytes ++ more) = (Bits.countBits bytes + Bits.countBits more)%Z.
Proof.
  intros Hbytes. split; [|split].
  - induction Hbytes as [|byte rest Hbyte _ IH]; [reflexivity|].
    rewrite countBits_cons, IH, (countOnes_setBits byte Hbyte). reflexivity.
  - induction Hbytes as [|byte rest Hbyte _ IH]; [cbn; lia|].
    rewrite countBits_cons, (countOnes_setBits byte Hbyte).
    pose proof (setBits_range byte). cbn [length]. lia.
  - unfold Bits.countBits at 1. rewrite fold_left_app.
    fold (Bits.countBits bytes). apply countBits_app_acc.
Qed.

Lemma countBits_counts_set_bits_witness :
  Bits.countBits [240; 127; 0]%Z = fold_right Z.add 0%Z (map setBits [240; 127; 0]%Z).
Proof.
  refine (proj1 (countBits_counts_set_bits [240; 127; 0]%Z [] _)).
  repeat constructor; lia.
Defined.

(** ** Splitting a genome into genes *)

Lemma findIndexes_positions {A : Type} (test : A -> bool) (arr : list A) :
  Arrays.findIndexes arr test = map Z.of_nat (positionsFrom test 0 arr).
Proof.
  unfold Arrays.findIndexes, Arrays.mapi.
  enough (H : forall k : nat,
             List.filter (fun i => negb (i =? -1)%Z)
               (imap (fun i x => if test x then Z.of_nat (k + i) else (-1)%Z) arr)
             = map Z.of_nat (positionsFrom test k arr)) by apply (H 0%nat).
  induction arr as [|item rest IH]; intros k; [reflexivity|].
  cbn [imap positionsFrom]. rewrite Nat.add_0_r.
  assert (Hrest : imap ((fun i x => if test x then Z.of_nat (k + i) else (-1)%Z) ∘ S) rest
                  = imap (fun i x => if test x then Z.of_nat (S k + i) else (-1)%Z) rest).
  { apply imap_ext. intros i x _. cbn. replace (k + S i)%nat with (S (k + i)) by lia.
    reflexivity. }
  rewrite Hrest. destruct (test item); cbn [List.filter].
  - destruct (Z.eqb_spec (Z.of_nat k) (-1)); [lia|]. cbn [negb map].
    rewrite IH. reflexivity.
  - cbn [Z.eqb negb]. apply IH.
Qed.

Lemma positionsFrom_bound {A : Type} (test : A -> bool) (k : nat) (arr : list A) :
  Forall (fun n => (k <= n < k + length arr)%nat) (positionsFrom test k arr).
Proof.
  revert k. induction arr as [|item rest IH]; intros k; [constructor|].
  cbn [positionsFrom length].
  assert (Hrest : Forall (fun n => (k <= n < k + S (length rest))%nat)
                    (positionsFrom test (S k) rest)).
  { eapply Forall_impl; [apply IH|]. intros n Hn. cbn in Hn. lia. }
  destruct (test item); [constructor; [lia|exact Hrest]|exact Hrest].
Qed.

Lemma imap_withNext {A B : Type} (F : A -> option A -> B) (done rest : list A) :
  imap (fun i item => F item (Arrays.at_index (done ++ rest)
                                (Z.of_nat (length done + i) + 1))) rest
  = map (fun p => F (fst p) (snd p)) (withNext rest).
Proof.
  revert done. induction rest as [|item rest IH]; intros done; [reflexivity|].
  cbn [imap withNext map fst snd]. f_equal.
  - f_equal. rewrite Nat.add_0_r.
    replace (Z.of_nat (length done) + 1)%Z with (Z.of_nat (S (length done))) by lia.
    rewrite at_index_of_nat.
    rewrite lookup_app_r by lia.
    replace (S (length done) - length done)%nat with 1%nat by lia.
    destruct rest; reflexivity.
  - specialize (IH (done ++ [item])). rewrite <- app_assoc in IH. cbn [app] in IH.
    rewrite <- IH. apply imap_ext. intros i x _. cbn.
    rewrite length_app. cbn [length].
    replace (length done + 1 + i)%nat with (length done + S i)%nat by lia. reflexivity.
Qed.

Lemma toGenes_withNext (genome : list Z) :
  Genome.toGenes genome
  = map (fun p => {| type := default 0%Z (Arrays.at_index genome (fst p));
                     location := inject_Z (fst p)
                                 / inject_Z (Z.of_nat (length genome));
                     bytes := Arrays.slice genome (fst p + 1) (snd p) |})
        (withNext (Genome.findControlIndexes genome)).
Proof.
  unfold Genome.toGenes, Arrays.mapi.
  set (indexes := Genome.findControlIndexes genome).
  pose proof (imap_withNext
                (fun index next =>
                   {| type := default 0%Z (Arrays.at_index genome index);
                      location := inject_Z index / inject_Z (Z.of_nat (length genome));
                      bytes := Arrays.slice genome (index + 1) next |})
                [] indexes) as H.
  cbn [app length Nat.add] in H. exact H.
Qed.

Lemma take_upToControl (bytes : list Z) :
  take (length (upToControl bytes)) bytes = upToControl bytes.
Proof.
  induction bytes as [|byte rest IH]; [reflexivity|].
  cbn [upToControl]. destruct (Bits.isControl byte); [reflexivity|].
  cbn [length take]. rewrite IH. reflexivity.
Qed.

Lemma head_positions (k : nat) (bytes : list Z) :
  match head (positionsFrom Bits.isControl k bytes) with
  | Some n => n = (k + length (upToControl bytes))%nat /\
              (length (upToControl bytes) < length bytes)%nat
  | None => upToControl bytes = bytes
  end.
Proof.
  revert k. induction bytes as [|byte rest IH]; intros k; [reflexivity|].
  cbn [positionsFrom upToControl]. destruct (Bits.isControl byte).
  - cbn. lia.
  - specialize (IH (S k)).
    destruct (head (positionsFrom Bits.isControl (S k) rest)) as [n|].
    + cbn [length]. lia.
    + cbn [length]. rewrite IH. reflexivity.
Qed.

Lemma slice_gene_body (pre : list Z) (byte : Z) (rest : list Z) :
  Arrays.slice (pre ++ byte :: rest) (Z.of_nat (length pre) + 1)
    (head (map Z.of_nat (positionsFrom Bits.isControl (S (length pre)) rest)))
  = upToControl rest.
Proof.
  unfold Arrays.slice, Arrays.relativeIndex.
  destruct (Z.ltb_spec (Z.of_nat (length pre) + 1) 0) as [|_]; [lia|].
  rewrite length_app. cbn [length].
  replace (Z.to_nat (Z.of_nat (length pre) + 1)) with (S (length pre)) by lia.
  rewrite Nat.min_l by lia.
  assert (Hdrop : drop (S (length pre)) (pre ++ byte :: rest) = rest).
  { replace (pre ++ byte :: rest) with ((pre ++ [byte]) ++ rest)
      by (rewrite <- app_assoc; reflexivity).
    apply drop_app_length'. rewrite length_app. cbn. lia. }
  rewrite Hdrop.
  pose proof (head_positions (S (length pre)) rest) as Hhead.
  destruct (positionsFrom Bits.isControl (S (length pre)) rest) as [|n others];
    cbn [head map] in *.
  - rewrite take_ge by lia. symmetry. exact Hhead.
  - destruct Hhead as [-> Hshort].
    destruct (Z.ltb_spec (Z.of_nat (S (length pre) + length (upToControl rest))) 0);
      [lia|].
    rewrite Nat2Z.id, Nat.min_l by lia.
    replace (S (length pre) + length (upToControl rest) - S (length pre))%nat
      with (length (upToControl rest)) by lia.
    apply take_upToControl.
Qed.

Lemma genes_from_positions (pre rest : list Z) :
  map (fun p => (default 0%Z (Arrays.at_index (pre ++ rest) (fst p)),
                 Arrays.slice (pre ++ rest) (fst p + 1) (snd p)))
      (withNext (map Z.of_nat (positionsFrom Bits.isControl (length pre) rest)))
  = splitGenes rest.
Proof.
  revert pre. induction rest as [|byte rest IH]; intros pre; [reflexivity|].
  specialize (IH (pre ++ [byte])).
  rewrite <- app_assoc, length_app in IH. cbn [app length] in IH.
  replace (length pre + 1)%nat with (S (length pre)) in IH by lia.
  cbn [positionsFrom splitGenes]. destruct (Bits.isControl byte); [|exact IH].
  cbn [map withNext fst snd]. rewrite IH. f_equal. f_equal.
  - rewrite at_index_of_nat, lookup_app_r by lia. rewrite Nat.sub_diag. reflexivity.
  - apply slice_gene_body.
Qed.

Lemma toGenes_splitGenes (genome : list Z) :
  map (fun gene => (type gene, bytes gene)) (Genome.toGenes genome) = splitGenes genome.
Proof.
  rewrite toGenes_withNext. unfold Genome.findControlIndexes.
  rewrite findIndexes_positions, map_map. cbn [type bytes].
  apply (genes_from_positions [] genome).
Qed.

Lemma splitGenes_rest (bytes : list Z) :
  upToControl bytes
    ++ concat (map (fun gene => fst gene :: snd gene) (splitGenes bytes)) = bytes.
Proof.
  induction bytes as [|byte rest IH]; [reflexivity|].
  cbn [upToControl splitGenes]. destruct (Bits.isControl byte).
  - cbn [app map concat fst snd]. rewrite IH. reflexivity.
  - cbn [app]. rewrite IH. reflexivity.
Qed.

Lemma splitGenes_concat (genome : list Z) :
  concat (map (fun gene => fst gene :: snd gene) (splitGenes genome))
  = fromFirstControl genome.
Proof.
  induction genome as [|byte rest IH]; [reflexivity|].
  cbn [splitGenes fromFirstControl]. destruct (Bits.isControl byte); [|exact IH].
  cbn [map concat fst snd app]. rewrite splitGenes_rest. reflexivity.
Qed.

Lemma upToControl_plain (bytes : list Z) :
  Forall (fun byte => Bits.isControl byte = false) (upToControl bytes).
Proof.
  induction bytes as [|byte rest IH]; [constructor|].
  cbn [upToControl]. destruct (Bits.isControl byte) eqn:E; constructor; assumption.
Qed.

Lemma splitGenes_shape (genome : list Z) :
  Forall (fun gene => Bits.isControl (fst gene) = true /\
                      Forall (fun byte => Bits.isControl byte = false) (snd gene))
         (splitGenes genome) /\
  map fst (splitGenes genome) = List.filter Bits.isControl genome.
Proof.
  induction genome as [|byte rest [IHshape IHtypes]]; [split; [constructor|reflexivity]|].
  cbn [splitGenes List.filter]. destruct (Bits.isControl byte) eqn:E.
  - split.
    + constructor; [|exact IHshape]. split; [exact E|apply upToControl_plain].
    + cbn [map fst]. rewrite IHtypes. reflexivity.
  - split; assumption.
Qed.

Lemma toGenes_locations (genome : list Z) :
  Forall (fun gene => (0 <= location gene < 1)%Q) (Genome.toGenes genome).
Proof.
  rewrite toGenes_withNext. unfold Genome.findControlIndexes.
  rewrite findIndexes_positions.
  pose proof (positionsFrom_bound Bits.isControl 0 genome) as Hbound.
  induction (positionsFrom Bits.isControl 0 genome) as [|n others IH];
    [constructor|].
  inversion Hbound as [|? ? Hn Hothers]; subst.
  cbn [map withNext]. constructor; [|apply IH; exact Hothers].
  cbn [location fst].
  assert (Hlen : (0 < inject_Z (Z.of_nat (length genome)))%Q).
  { rewrite <- (Zlt_Qlt 0). lia. }
  split.
  - apply Qle_shift_div_l; [exact Hlen|]. rewrite Qmult_0_l, <- (Zle_Qle 0). lia.
  - apply Qlt_shift_div_r; [exact Hlen|]. rewrite Qmult_1_l, <- Zlt_Qlt. lia.
Qed.

Lemma toGenes_types_locations (genome : list Z) :
  map type (Genome.toGenes genome) = List.filter Bits.isControl genome /\
  Forall (fun gene => (0 <= location gene < 1)%Q) (Genome.toGenes genome).
Proof.
  split; [|apply toGenes_locations].
  rewrite <- (proj2 (splitGenes_shape genome)), <- toGenes_splitGenes, map_map.
  reflexivity.
Qed.

(** X13.  [toGenes] (both variants are the same function) loses no byte
    from the first control byte on: its genes, each written as its type
    followed by its bytes, concatenate to the genome from its first control
    byte; there is one gene per control byte, in order; the type of a gene
    is a control byte, none of its bytes is one, and its location lies from
    0 up to, not including, 1. *)
Theorem toGenes_keeps_bytes (genome : list Z) :
  concat (map (fun gene => type gene :: bytes gene) (Genome.toGenes genome))
    = fromFirstControl genome /\
  map type (Genome.toGenes genome) = List.filter Bits.isControl genome /\
  Forall (fun gene =>
            Bits.isControl (type gene) = true /\
            Forall (fun byte => Bits.isControl byte = false) (bytes gene) /\
            (0 <= location gene < 1)%Q)
         (Genome.toGenes genome) /\
  GenomeV0.toGenes genome = Genome.toGenes genome.
Proof.
  pose proof (toGenes_splitGenes genome) as Hsplit.
  destruct (splitGenes_shape genome) as [Hshape Htypes].
  split; [|split; [|split; [|reflexivity]]].
  - rewrite <- splitGenes_concat, <- Hsplit, map_map. reflexivity.
  - rewrite <- Htypes, <- Hsplit, map_map. reflexivity.
  - rewrite <- Hsplit in Hshape. rewrite Forall_map in Hshape.
    apply Forall_and. split; [|apply Forall_and; split].
    + eapply Forall_impl; [exact Hshape|]. intros gene [Htype _]. exact Htype.
    + eapply Forall_impl; [exact Hshape|]. intros gene [_ Hbytes]. exact Hbytes.
    + apply toGenes_locations.
Qed.

(** ** What [readGenome] reads *)

Lemma filter_type_length (typeByte : Z) (genes : list Gene) :
  length (List.filter (fun gene => (type gene =? typeByte)%Z) genes)
  = length (List.filter (fun byte => (byte =? typeByte)%Z) (map type genes)).
Proof.
  induction genes as [|gene genes IH]; [reflexivity|].
  cbn [List.filter map]. destruct (type gene =? typeByte)%Z; cbn [length]; lia.
Qed.

Lemma filter_control_type (typeByte : Z) (genome : list Z) :
  Bits.isControl typeByte = true ->
  List.filter (fun byte => (byte =? typeByte)%Z) (List.filter Bits.isControl genome)
  = List.filter (fun byte => (byte =? typeByte)%Z) genome.
Proof.
  intros Hcontrol. induction genome as [|byte rest IH]; [reflexivity|].
  cbn [List.filter]. destruct (Bits.isControl byte) eqn:E.
  - cbn [List.filter]. rewrite IH. reflexivity.
  - destruct (Z.eqb_spec byte typeByte) as [->|_]; [congruence|exact IH].
Qed.

Lemma countBits_nonneg (bytes : list Z) : (0 <= Bits.countBits bytes)%Z.
Proof.
  induction bytes as [|byte rest IH]; [cbn; lia|].
  rewrite countBits_cons. unfold Bits.countOnes. lia.
Qed.

Lemma floor_quotient_nonneg (n : Z) (d : Q) :
  (0 <= n)%Z -> (0 < d)%Q -> (0 <= Js.floor (inject_Z n / d))%Q.
Proof.
  intros Hn Hd. unfold Js.floor. rewrite <- (Zle_Qle 0).
  rewrite <- (Qfloor_Z 0). apply Qfloor_resp_le.
  apply Qle_shift_div_l; [exact Hd|]. rewrite Qmult_0_l, <- (Zle_Qle 0). exact Hn.
Qed.

Lemma spike_gene_locations (len : nat) (pre rest : list Z) :
  map location
    (List.filter (fun gene => (type gene =? 241)%Z)
       (map (fun p => {| type := default 0%Z (Arrays.at_index (pre ++ rest) (fst p));
                         location := inject_Z (fst p) / inject_Z (Z.of_nat len);
                         bytes := Arrays.slice (pre ++ rest) (fst p + 1) (snd p) |})
            (withNext (map Z.of_nat (positionsFrom Bits.isControl (length pre) rest)))))
  = map (fun n => (inject_Z (Z.of_nat n) / inject_Z (Z.of_nat len))%Q)
        (positionsFrom (fun byte => (byte =? 241)%Z) (length pre) rest).
Proof.
  revert pre. induction rest as [|byte rest IH]; intros pre; [reflexivity|].
  specialize (IH (pre ++ [byte])).
  rewrite <- app_assoc in IH. cbn [app] in IH.
  replace (length (pre ++ [byte])) with (S (length pre)) in IH
    by (rewrite length_app; cbn; lia).
  cbn [positionsFrom]. destruct (Bits.isControl byte) eqn:Econtrol.
  - cbn [map withNext List.filter type fst].
    rewrite at_index_of_nat, lookup_app_r by lia. rewrite Nat.sub_diag.
    cbn [lookup list_lookup default]. change (Datatypes.id byte) with byte.
    destruct (byte =? 241)%Z.
    + rewrite !map_cons. f_equal. exact IH.
    + exact IH.
  - destruct (Z.eqb_spec byte 241) as [->|_]; [discriminate Econtrol|]. exact IH.
Qed.

Lemma spike_angles (genome : list Z) :
  map location
    (List.filter (fun gene => (type gene =? 241)%Z) (Genome.toGenes genome))
  = map (fun n => (inject_Z (Z.of_nat n) / inject_Z (Z.of_nat (length genome)))%Q)
        (positionsFrom (fun byte => (byte =? 241)%Z) 0 genome).
Proof.
  rewrite toGenes_withNext. unfold Genome.findControlIndexes.
  rewrite findIndexes_positions.
  apply (spike_gene_locations (length genome) [] genome).
Qed.

Lemma spike_genes_count (genome : list Z) :
  length (List.filter (fun gene => (type gene =? 241)%Z) (Genome.toGenes genome))
  = length (List.filter (fun byte => (byte =? 241)%Z) genome).
Proof.
  rewrite filter_type_length, (proj1 (toGenes_types_locations genome)),
    filter_control_type; reflexivity.
Qed.

(** X14.  [readGenome] of both variants returns one spike command per
    byte 0xF1 of the genome, in the order of these bytes: the angles of
    the spikes are the indexes of these bytes divided by the length of the
    genome, each from 0 up to, not including, 1; the length of a spike is
    not negative (for a positive [bitsPerSpikeLength]). *)
Theorem readGenome_one_spike_per_spike_byte
  (fixed : Genome.Fixed) (rgbToHue : Q -> Q -> Q -> Q) (genome : list Z) :
  (0 < Genome.bitsPerSpikeLength fixed)%Q ->
  let spikeBytes := List.filter (fun byte => (byte =? 241)%Z) genome in
  let spikes := Genome.spikes (Genome.readGenome fixed rgbToHue genome) in
  let spikes0 := GenomeV0.spikes (GenomeV0.readGenome genome) in
  length spikes = length spikeBytes /\
  Forall (fun spike => (0 <= sc_angle spike < 1)%Q /\ (0 <= sc_length spike)%Q) spikes /\
  length spikes0 = length spikeBytes /\
  Forall (fun spike => (0 <= sc_angle spike < 1)%Q /\ (0 <= sc_length spike)%Q) spikes0 /\
  map sc_angle spikes0 = map sc_angle spikes /\
  map sc_angle spikes
    = map (fun n => (inject_Z (Z.of_nat n) / inject_Z (Z.of_nat (length genome)))%Q)
          (positionsFrom (fun byte => (byte =? 241)%Z) 0 genome).
Proof.
  intros Hbits. cbn zeta.
  unfold Genome.readGenome, GenomeV0.readGenome.
  cbn [Genome.spikes GenomeV0.spikes].
  change (GenomeV0.toGenes genome) with (Genome.toGenes genome).
  pose proof (spike_genes_count genome) as Hlen.
  pose proof (proj2 (toGenes_types_locations genome)) as Hloc.
  assert (Hsome : Forall (fun gene => (0 <= location gene < 1)%Q)
                    (List.filter (fun gene => (type gene =? 241)%Z)
                       (Genome.toGenes genome))).
  { apply List.Forall_forall. intros gene Hin. apply filter_In in Hin as [Hin _].
    rewrite List.Forall_forall in Hloc. apply Hloc. exact Hin. }
  rewrite !length_map.
  split; [exact Hlen|]. split; [|split; [exact Hlen|split; [|split]]].
  - apply Forall_map. eapply Forall_impl; [exact Hsome|].
    intros gene Hgene. cbn. split; [exact Hgene|].
    apply floor_quotient_nonneg; [apply countBits_nonneg|exact Hbits].
  - apply Forall_map. eapply Forall_impl; [exact Hsome|].
    intros gene Hgene. cbn. split; [exact Hgene|].
    apply floor_quotient_nonneg; [apply countBits_nonneg|reflexivity].
  - rewrite !map_map. reflexivity.
  - rewrite map_map. exact (spike_angles genome).
Qed.

Lemma readGenome_one_spike_per_spike_byte_witness :
  length (Genome.spikes (Genome.readGenome genomeSettings (fun _ _ _ => 0%Q)
                           [240; 127; 241; 15; 241]%Z)) = 2%nat.
Proof.
  refine (proj1 (readGenome_one_spike_per_spike_byte genomeSettings (fun _ _ _ => 0%Q)
                   [240; 127; 241; 15; 241]%Z _)).
  vm_compute. reflexivity.
Defined.

(** ** Mutating bytes *)

Lemma lxor_bit_byte (byte : Z) (k : nat) :
  (0 <= byte <= 255)%Z -> (k < 8)%nat -> (0 <= Z.lxor byte (2 ^ Z.of_nat k) <= 255)%Z.
Proof.
  intros Hbyte Hk.
  assert (Hall : forallb (fun b =>
                   forallb (fun j => let flipped := Z.lxor b (2 ^ j) in
                                     (0 <=? flipped)%Z && (flipped <=? 255)%Z)
                           (map Z.of_nat (seq 0 8)))
                   (map Z.of_nat (seq 0 256)) = true) by (vm_compute; reflexivity).
  rewrite forallb_forall in Hall.
  assert (Hin : In byte (map Z.of_nat (seq 0 256))).
  { rewrite <- (Z2Nat.id byte) by lia. apply in_map, in_seq. lia. }
  specialize (Hall byte Hin). rewrite forallb_forall in Hall.
  specialize (Hall (Z.of_nat k) ltac:(apply in_map, in_seq; lia)).
  cbn zeta in Hall. apply andb_true_iff in Hall as [H0 H255].
  apply Z.leb_le in H0, H255. lia.
Qed.

Lemma flipBits_byte (chance : Q) (bits : nat) (byte : Z) (seed : Z) :
  (bits <= 8)%nat -> (0 <= byte <= 255)%Z ->
  (0 <= fst (ReplicateSpec.flipBits chance bits byte seed) <= 255)%Z /\
  snd (ReplicateSpec.flipBits chance bits byte seed) = Prng.seedAfter bits seed.
Proof.
  revert byte seed. induction bits as [|bits IH]; intros byte seed Hbits Hbyte.
  - cbn. split; [lia|reflexivity].
  - cbn [ReplicateSpec.flipBits Prng.seedAfter].
    unfold ReplicateSpec.happens. rewrite !bind_eq.
    assert (Hnext : snd (Prng.rand seed) = Prng.nextSeed seed) by reflexivity.
    destruct (Prng.rand seed) as [r seed1]. cbn [snd Prng.ret] in *. subst seed1.
    destruct (Js.ltb r chance).
    + apply IH; [lia|]. apply lxor_bit_byte; [exact Hbyte|lia].
    + apply IH; [lia|exact Hbyte].
Qed.

Lemma seedAfter_add (a b : nat) (seed : Z) :
  Prng.seedAfter (a + b) seed = Prng.seedAfter b (Prng.seedAfter a seed).
Proof.
  revert seed. induction a as [|a IH]; intros seed; [reflexivity|].
  cbn [Nat.add Prng.seedAfter]. apply IH.
Qed.

Lemma mapM_seedAfter {A B : Type} (P : B -> Prop) (cost : nat) (fn : A -> Prng.Rand B)
  (Q : A -> Prop) (arr : list A) (seed : Z) :
  (forall (item : A) (s : Z),
      Q item -> P (fst (fn item s)) /\ snd (fn item s) = Prng.seedAfter cost s) ->
  Forall Q arr ->
  Forall P (fst (Prng.mapM fn arr seed)) /\
  snd (Prng.mapM fn arr seed) = Prng.seedAfter (cost * length arr) seed.
Proof.
  intros Hfn Harr. revert seed.
  induction Harr as [|item rest Hitem _ IH]; intros seed.
  - cbn. rewrite Nat.mul_0_r. split; [constructor|reflexivity].
  - cbn [Prng.mapM]. rewrite bind_eq.
    destruct (Hfn item seed Hitem) as [HP Hs].
    destruct (fn item seed) as [y seed1]. cbn [fst snd] in *. subst seed1.
    rewrite bind_eq. destruct (IH (Prng.seedAfter cost seed)) as [HF Hs2].
    destruct (Prng.mapM fn rest _) as [ys seed2]. cbn [fst snd Prng.ret length] in *.
    split; [constructor; assumption|].
    rewrite Hs2. replace (cost * S (length rest))%nat with (cost + cost * length rest)%nat
      by lia.
    symmetry. apply seedAfter_add.
Qed.

(** X15.  [mutateBits] of both variants takes a byte (0 to 255) to a byte,
    with exactly eight draws; so the [replicateGenome] of
    src/app/meebas/genome.js takes an array of bytes to an array of bytes
    with eight draws for each. *)
Theorem mutateBits_keeps_bytes :
  (forall (volatility : Q) (fixed : Genome.Fixed) (byte seed : Z),
      (0 <= byte <= 255)%Z ->
      (0 <= fst (Genome.mutateBits volatility fixed byte seed) <= 255)%Z /\
      snd (Genome.mutateBits volatility fixed byte seed) = Prng.seedAfter 8 seed) /\
  (forall byte seed : Z,
      (0 <= byte <= 255)%Z ->
      (0 <= fst (GenomeV0.mutateBits byte seed) <= 255)%Z /\
      snd (GenomeV0.mutateBits byte seed) = Prng.seedAfter 8 seed) /\
  (forall (genome : list Z) (seed : Z),
      Forall (fun byte => 0 <= byte <= 255)%Z genome ->
      Forall (fun byte => 0 <= byte <= 255)%Z
             (fst (GenomeV0.replicateGenome genome seed)) /\
      snd (GenomeV0.replicateGenome genome seed)
        = Prng.seedAfter (8 * length genome) seed).
Proof.
  split; [|split].
  - intros volatility fixed byte seed Hbyte. unfold Genome.mutateBits.
    rewrite mask_flipBits. apply flipBits_byte; [lia|exact Hbyte].
  - intros byte seed Hbyte. unfold GenomeV0.mutateBits.
    rewrite mask_flipBits. apply flipBits_byte; [lia|exact Hbyte].
  - intros genome seed Hgenome. rewrite replicateGenome_early_flips_only.
    apply (mapM_seedAfter _ 8 _ (fun byte => 0 <= byte <= 255)%Z); [|exact Hgenome].
    intros byte s Hbyte. rewrite bind_eq.
    destruct (flipBits_byte GenomeV0.MUTATE_BIT_CHANCE 8 byte s ltac:(lia) Hbyte)
      as [Hrange Hseed].
    destruct (ReplicateSpec.flipBits _ 8 byte s) as [mutated s']. cbn [fst snd Prng.ret] in *.
    split; [|exact Hseed]. unfold Js.toUint8. rewrite Z.mod_small; lia.
Qed.

Lemma mutateBits_keeps_bytes_witness :
  (0 <= fst (GenomeV0.mutateBits 127 12345) <= 255)%Z.
Proof.
  refine (proj1 (proj1 (proj2 mutateBits_keeps_bytes) 127%Z 12345%Z _)). lia.
Defined.

(** ** Repeating items *)

Lemma repeatEach_in_place {A : Type} (chance : Q) (fuel : nat) (items out : list A)
  (seed seed' : Z) :
  ReplicateSpec.repeatEach chance fuel items seed = Some (out, seed') ->
  exists counts : list nat,
    length counts = length items /\
    Forall (fun count => (1 <= count)%nat) counts /\
    out = concat (zip_with (fun count item => repeat item count) counts items) /\
    seed' = Prng.seedAfter (length out) seed.
Proof.
  revert items out seed seed'.
  induction fuel as [|fuel IH]; intros items out seed seed'; [discriminate|].
  cbn [ReplicateSpec.repeatEach]. destruct items as [|item rest].
  - intros [= <- <-]. exists []. repeat split. constructor.
  - unfold ReplicateSpec.happens. rewrite bind_eq.
    assert (Hnext : snd (Prng.rand seed) = Prng.nextSeed seed) by reflexivity.
    destruct (Prng.rand seed) as [r seed1]. cbn [snd Prng.ret] in *. subst seed1.
    destruct (Js.ltb r chance).
    + destruct (ReplicateSpec.repeatEach chance fuel (item :: rest) _)
        as [[out1 seed2]|] eqn:Hrec; [|discriminate].
      intros [= <- <-].
      destruct (IH _ _ _ _ Hrec) as (counts & Hlen & Hpos & Hout & Hseed).
      destruct counts as [|count counts]; [discriminate Hlen|].
      exists (S count :: counts). split; [exact Hlen|]. split; [|split].
      * inversion Hpos; subst. constructor; [lia|assumption].
      * rewrite Hout. reflexivity.
      * rewrite Hseed. reflexivity.
    + destruct (ReplicateSpec.repeatEach chance fuel rest _)
        as [[out1 seed2]|] eqn:Hrec; [|discriminate].
      intros [= <- <-].
      destruct (IH _ _ _ _ Hrec) as (counts & Hlen & Hpos & Hout & Hseed).
      exists (1%nat :: counts). split; [cbn; lia|]. split; [|split].
      * constructor; [lia|assumption].
      * rewrite Hout. reflexivity.
      * rewrite Hseed. reflexivity.
Qed.

(** X16.  When [repeatItems] returns, its result is the array with each
    item in place and repeated one or more times in a row: nothing is
    dropped, reordered or altered; one draw is made per item of the
    result. *)
Theorem repeatItems_repeats_in_place {A : Type} (arr : list A) (chance : Q) (fuel : nat)
  (seed : Z) (repeated : list A) (seed' : Z) :
  Genome.repeatItems arr chance fuel seed = Some (repeated, seed') ->
  exists counts : list nat,
    length counts = length arr /\
    Forall (fun count => (1 <= count)%nat) counts /\
    repeated = concat (zip_with (fun count item => repeat item count) counts arr) /\
    seed' = Prng.seedAfter (length repeated) seed.
Proof.
  rewrite repeatItems_repeatEach. apply repeatEach_in_place.
Qed.

Lemma repeatItems_repeats_in_place_witness :
  exists counts : list nat,
    length counts = length [240; 127; 0]%Z /\
    Forall (fun count => (1 <= count)%nat) counts /\
    [240; 240; 127; 0]%Z
      = concat (zip_with (fun count item => repeat item count) counts [240; 127; 0]%Z) /\
    984943658%Z = Prng.seedAfter (length [240; 240; 127; 0]%Z) 1%Z.
Proof.
  apply (repeatItems_repeats_in_place [240; 127; 0]%Z (1 # 100) 10 1%Z).
  vm_compute. reflexivity.
Defined.

Lemma rand_not_below (chance : Q) (seed : Z) :
  (0 <= seed)%Z -> (chance <= 0)%Q ->
  Js.ltb (fst (Prng.rand seed)) chance = false /\
  snd (Prng.rand seed) = Prng.nextSeed seed /\ (0 <= Prng.nextSeed seed)%Z.
Proof.
  intros Hseed Hchance. destruct (rand_range seed Hseed) as [[Hr0 _] Hs].
  split; [apply ltb_ge; lra|]. split; [reflexivity|exact Hs].
Qed.

Lemma rand_below (chance : Q) (seed : Z) :
  (0 <= seed)%Z ->
  (1 < chance)%Q \/
    ((0 < chance)%Q /\ (seed mod Prng.MODULUS = 0)%Z /\ (seed * 16807 < 2 ^ 53)%Z) ->
  Js.ltb (fst (Prng.rand seed)) chance = true /\
  (0 <= Prng.nextSeed seed)%Z /\
  ((1 < chance)%Q \/
     ((0 < chance)%Q /\ (Prng.nextSeed seed mod Prng.MODULUS = 0)%Z /\
      (Prng.nextSeed seed * 16807 < 2 ^ 53)%Z)).
Proof.
  intros Hseed Hcase. destruct (rand_range seed Hseed) as [[_ Hr1] Hs].
  destruct Hcase as [Habove|(Hpos & Hmod & Hsmall)].
  - split; [apply ltb_lt; lra|]. split; [exact Hs|left; exact Habove].
  - pose proof (nextSeed_of_multiple seed Hseed Hsmall Hmod) as Hzero.
    split; [|split; [exact Hs|right; rewrite Hzero;
                               split; [exact Hpos|split; reflexivity]]].
    apply ltb_lt. unfold Prng.rand. cbn [fst]. rewrite Hzero.
    assert (E : (inject_Z 0 / inject_Z Prng.DIVISOR == 0)%Q) by reflexivity.
    rewrite E. exact Hpos.
Qed.

Lemma repeatEach_never_returns {A : Type} (chance : Q) (fuel : nat) (item : A)
  (rest : list A) (seed : Z) :
  (0 <= seed)%Z ->
  (1 < chance)%Q \/
    ((0 < chance)%Q /\ (seed mod Prng.MODULUS = 0)%Z /\ (seed * 16807 < 2 ^ 53)%Z) ->
  ReplicateSpec.repeatEach chance fuel (item :: rest) seed = None.
Proof.
  revert seed. induction fuel as [|fuel IH]; intros seed Hseed Hcase; [reflexivity|].
  cbn [ReplicateSpec.repeatEach]. unfold ReplicateSpec.happens. rewrite bind_eq.
  destruct (rand_below chance seed Hseed Hcase) as (Hlt & Hs & Hcase').
  assert (Hnext : snd (Prng.rand seed) = Prng.nextSeed seed) by reflexivity.
  destruct (Prng.rand seed) as [r seed1]. cbn [fst snd Prng.ret] in *. subst seed1.
  rewrite Hlt, (IH _ Hs Hcase'). reflexivity.
Qed.

(** X17.  From a seed that is not negative (and below 2^1000),
    [repeatItems] never returns for an array that is not empty when
    every draw is below the chance: at a chance above 1, or at a positive
    chance with a seed that is a multiple of 2147483647 whose product with
    16807 is below 2^53 (the seed 0 is one; every draw is then 0).  The
    loop steps back after every item; no bound on its rounds gives a
    result. *)
Theorem repeatItems_never_returns {A : Type} (arr : list A) (chance : Q) (seed : Z) :
  arr <> [] -> (0 <= seed < 2 ^ 1000)%Z ->
  (1 < chance)%Q \/
    ((0 < chance)%Q /\ (seed mod 2147483647 = 0)%Z /\ (seed * 16807 < 2 ^ 53)%Z) ->
  forall fuel : nat, Genome.repeatItems arr chance fuel seed = None.
Proof.
  intros Harr [Hseed _] Hcase fuel. rewrite repeatItems_repeatEach.
  destruct arr as [|item rest]; [contradiction|].
  apply repeatEach_never_returns; assumption.
Qed.

Lemma repeatItems_never_returns_witness :
  Genome.repeatItems [240; 127]%Z (3 # 2) 1000 12345%Z = None /\
  Genome.repeatItems [240; 127]%Z (1 # 100) 1000 0%Z = None.
Proof.
  split.
  - apply repeatItems_never_returns.
    + discriminate.
    + split; [lia|reflexivity].
    + left. reflexivity.
  - apply repeatItems_never_returns.
    + discriminate.
    + split; [lia|reflexivity].
    + right. repeat split; lia.
Defined.

(** ** Replication at no volatility *)

Lemma flipBits_no_chance (chance : Q) (bits : nat) (byte : Z) (seed : Z) :
  (0 <= seed)%Z -> (chance <= 0)%Q ->
  ReplicateSpec.flipBits chance bits byte seed = (byte, Prng.seedAfter bits seed) /\
  (0 <= Prng.seedAfter bits seed)%Z.
Proof.
  intros Hseed Hchance. revert seed Hseed.
  induction bits as [|bits IH]; intros seed Hseed; [split; [reflexivity|exact Hseed]|].
  cbn [ReplicateSpec.flipBits Prng.seedAfter].
  unfold ReplicateSpec.happens. rewrite !bind_eq.
  destruct (rand_not_below chance seed Hseed Hchance) as (Hge & Hnext & Hs).
  destruct (Prng.rand seed) as [r seed1]. cbn [fst snd Prng.ret] in *. subst seed1.
  rewrite Hge. apply IH. exact Hs.
Qed.

Lemma repeatEach_no_chance {A : Type} (chance : Q) (fuel : nat) (items : list A)
  (seed : Z) :
  (0 <= seed)%Z -> (chance <= 0)%Q -> (length items < fuel)%nat ->
  ReplicateSpec.repeatEach chance fuel items seed
  = Some (items, Prng.seedAfter (length items) seed).
Proof.
  intros Hseed Hchance. revert fuel seed Hseed.
  induction items as [|item rest IH]; intros fuel seed Hseed Hfuel;
    (destruct fuel as [|fuel]; [cbn in Hfuel; lia|]); [reflexivity|].
  cbn [ReplicateSpec.repeatEach length Prng.seedAfter].
  unfold ReplicateSpec.happens. rewrite bind_eq.
  destruct (rand_not_below chance seed Hseed Hchance) as (Hge & Hnext & Hs).
  destruct (Prng.rand seed) as [r seed1]. cbn [fst snd Prng.ret] in *. subst seed1.
  rewrite Hge, IH; [reflexivity|exact Hs|cbn in Hfuel; lia].
Qed.

Lemma takeOut_no_chance {A : Type} (chance : Q) (items : list A) (seed : Z) :
  (0 <= seed)%Z -> (chance <= 0)%Q ->
  ReplicateSpec.takeOut chance items seed
  = ((items, []), Prng.seedAfter (length items) seed).
Proof.
  intros Hseed Hchance. revert seed Hseed.
  induction items as [|item rest IH]; intros seed Hseed; [reflexivity|].
  cbn [ReplicateSpec.takeOut length Prng.seedAfter].
  unfold ReplicateSpec.happens. rewrite !bind_eq.
  destruct (rand_not_below chance seed Hseed Hchance) as (Hge & Hnext & Hs).
  destruct (Prng.rand seed) as [r seed1]. cbn [fst snd Prng.ret] in *. subst seed1.
  rewrite bind_eq, (IH _ Hs), Hge. reflexivity.
Qed.

(** X18.  At a chance of 0 or less nothing changes: [mutateBits] returns
    its byte, the drop predicate [() => rand() >= chance] holds of every
    item, and [repeatItems] and [transposeItems] return the array as it is;
    each makes its draws all the same (eight for a byte, one for an item). *)
Theorem no_chance_no_change :
  (forall (volatility : Q) (fixed : Genome.Fixed) (byte seed : Z),
      (0 <= seed)%Z ->
      (Genome.chanceMutateBit (Genome.dynamic volatility fixed) <= 0)%Q ->
      Genome.mutateBits volatility fixed byte seed = (byte, Prng.seedAfter 8 seed)) /\
  (forall (A : Type) (chance : Q) (item : A) (seed : Z),
      (0 <= seed)%Z -> (chance <= 0)%Q ->
      Genome.survives chance item seed = (true, Prng.seedAfter 1 seed)) /\
  (forall (A : Type) (arr : list A) (chance : Q) (fuel : nat) (seed : Z),
      (0 <= seed)%Z -> (chance <= 0)%Q -> (length arr < fuel)%nat ->
      Genome.repeatItems arr chance fuel seed
      = Some (arr, Prng.seedAfter (length arr) seed)) /\
  (forall (A : Type) (arr : list A) (chance : Q) (seed : Z),
      (0 <= seed)%Z -> (chance <= 0)%Q ->
      Genome.transposeItems arr chance seed = (arr, Prng.seedAfter (length arr) seed)).
Proof.
  split; [|split; [|split]].
  - intros volatility fixed byte seed Hseed Hchance. unfold Genome.mutateBits.
    rewrite mask_flipBits. apply flipBits_no_chance; assumption.
  - intros A chance item seed Hseed Hchance. unfold Genome.survives. rewrite bind_eq.
    destruct (rand_not_below chance seed Hseed Hchance) as (Hge & Hnext & _).
    destruct (Prng.rand seed) as [r seed1]. cbn [fst snd Prng.ret Prng.seedAfter] in *.
    subst seed1. rewrite geb_negb_ltb, Hge. reflexivity.
  - intros A arr chance fuel seed Hseed Hchance Hfuel.
    rewrite repeatItems_repeatEach. apply repeatEach_no_chance; assumption.
  - intros A arr chance seed Hseed Hchance.
    rewrite transposeItems_relocateEach. unfold ReplicateSpec.relocateEach.
    rewrite bind_eq, takeOut_no_chance by assumption. reflexivity.
Qed.

Lemma no_chance_no_change_witness :
  Genome.transposeItems [240; 127; 0]%Z 0%Q 12345%Z
    = ([240; 127; 0]%Z, Prng.seedAfter (length [240; 127; 0]%Z) 12345%Z).
Proof.
  apply (proj2 (proj2 (proj2 no_chance_no_change))).
  - lia.
  - vm_compute. discriminate.
Defined.

(** ** The early [replicateGenome] against the pipeline *)

Lemma mapM_pointwise {A B : Type} (P : A -> Prop) (R : B -> Prop)
  (fn : A -> Prng.Rand B) (arr : list A) (seed : Z) :
  (forall (item : A) (s : Z), P item -> R (fst (fn item s))) ->
  Forall P arr -> Forall R (fst (Prng.mapM fn arr seed)).
Proof.
  intros Hfn Harr. revert seed.
  induction Harr as [|item rest Hitem Hrest IH]; intros seed; [constructor|].
  cbn [Prng.mapM]. rewrite bind_eq. pose proof (Hfn item seed Hitem) as Hy.
  destruct (fn item seed) as [y seed1]. rewrite bind_eq. specialize (IH seed1).
  destruct (Prng.mapM fn rest seed1) as [ys seed2]. cbn [fst Prng.ret] in *.
  constructor; assumption.
Qed.

Lemma dropEach_Forall {A : Type} (P : A -> Prop) (chance : Q) (items : list A) (seed : Z) :
  Forall P items -> Forall P (fst (ReplicateSpec.dropEach chance items seed)).
Proof.
  intros Hitems. revert seed.
  induction Hitems as [|item rest Hitem Hrest IH]; intros seed; [constructor|].
  cbn [ReplicateSpec.dropEach]. rewrite bind_eq.
  destruct (ReplicateSpec.happens chance seed) as [dropped seed1]. rewrite bind_eq.
  specialize (IH seed1).
  destruct (ReplicateSpec.dropEach chance rest seed1) as [kept seed2].
  cbn [fst Prng.ret] in *. destruct dropped; [exact IH|constructor; assumption].
Qed.

Lemma repeatEach_Forall {A : Type} (P : A -> Prop) (chance : Q) (fuel : nat)
  (items out : list A) (seed seed' : Z) :
  Forall P items ->
  ReplicateSpec.repeatEach chance fuel items seed = Some (out, seed') -> Forall P out.
Proof.
  revert items out seed seed'.
  induction fuel as [|fuel IH]; intros items out seed seed' Hitems; [discriminate|].
  cbn [ReplicateSpec.repeatEach]. destruct items as [|item rest].
  - intros [= <- <-]. constructor.
  - destruct (ReplicateSpec.happens chance seed) as [again seed1].
    destruct (ReplicateSpec.repeatEach chance fuel _ seed1) as [[out1 seed2]|] eqn:Hrec;
      [|discriminate].
    intros [= <- <-]. inversion Hitems as [|? ? Hitem Hrest]; subst.
    constructor; [exact Hitem|].
    destruct again; eapply IH; try exact Hrec; [exact Hitems|exact Hrest].
Qed.

Lemma relocateEach_Forall {A : Type} (P : A -> Prop) (chance : Q) (items : list A)
  (seed : Z) :
  Forall P items -> Forall P (fst (ReplicateSpec.relocateEach chance items seed)).
Proof.
  intros Hitems. rewrite <- transposeItems_relocateEach.
  eapply Permutation_Forall; [apply transposeItems_perm|exact Hitems].
Qed.

Lemma segment_withNext (stream : list Z) :
  ReplicateSpec.segment stream
  = map (fun p => Arrays.slice stream (fst p) (snd p))
        (withNext (Arrays.findIndexes stream Bits.isControl)).
Proof.
  unfold ReplicateSpec.segment, Arrays.chunkBy, Arrays.mapi. cbv zeta.
  set (indexes := Arrays.findIndexes stream Bits.isControl).
  pose proof (imap_withNext (fun index next => Arrays.slice stream index next) [] indexes)
    as H.
  cbn [app length Nat.add] in H. exact H.
Qed.

Lemma slice_gene (pre : list Z) (byte : Z) (rest : list Z) :
  Arrays.slice (pre ++ byte :: rest) (Z.of_nat (length pre))
    (head (map Z.of_nat (positionsFrom Bits.isControl (S (length pre)) rest)))
  = byte :: upToControl rest.
Proof.
  unfold Arrays.slice, Arrays.relativeIndex.
  destruct (Z.ltb_spec (Z.of_nat (length pre)) 0) as [|_]; [lia|].
  rewrite length_app. cbn [length]. rewrite Nat2Z.id, Nat.min_l by lia.
  rewrite drop_app_length.
  pose proof (head_positions (S (length pre)) rest) as Hhead.
  destruct (positionsFrom Bits.isControl (S (length pre)) rest) as [|n others];
    cbn [head map] in *.
  - rewrite take_ge by (cbn [length]; lia). rewrite Hhead. reflexivity.
  - destruct Hhead as [-> Hshort].
    destruct (Z.ltb_spec (Z.of_nat (S (length pre) + length (upToControl rest))) 0);
      [lia|].
    rewrite Nat2Z.id, Nat.min_l by lia.
    replace (S (length pre) + length (upToControl rest) - length pre)%nat
      with (S (length (upToControl rest))) by lia.
    cbn [take]. rewrite take_upToControl. reflexivity.
Qed.

Lemma chunks_from_positions (pre rest : list Z) :
  map (fun p => Arrays.slice (pre ++ rest) (fst p) (snd p))
      (withNext (map Z.of_nat (positionsFrom Bits.isControl (length pre) rest)))
  = map (fun gene => fst gene :: snd gene) (splitGenes rest).
Proof.
  revert pre. induction rest as [|byte rest IH]; intros pre; [reflexivity|].
  specialize (IH (pre ++ [byte])).
  rewrite <- app_assoc, length_app in IH. cbn [app length] in IH.
  replace (length pre + 1)%nat with (S (length pre)) in IH by lia.
  cbn [positionsFrom splitGenes]. destruct (Bits.isControl byte); [|exact IH].
  cbn [map withNext fst snd]. rewrite IH. f_equal. apply slice_gene.
Qed.

(** The chunks of the segmentation are the genes read from the left. *)
Lemma segment_splitGenes (stream : list Z) :
  ReplicateSpec.segment stream = map (fun gene => fst gene :: snd gene) (splitGenes stream).
Proof.
  rewrite segment_withNext, findIndexes_positions.
  apply (chunks_from_positions [] stream).
Qed.

Lemma segment_chunks (stream : list Z) :
  Forall isByte stream -> Forall isGeneChunk (ReplicateSpec.segment stream).
Proof.
  intros Hbytes. rewrite segment_splitGenes.
  destruct (splitGenes_shape stream) as [Hshape Htypes].
  apply Forall_map. rewrite List.Forall_forall in Hshape |- *.
  intros gene Hgene. cbn [isGeneChunk].
  destruct (Hshape gene Hgene) as [Hcontrol _].
  unfold Bits.isControl in Hcontrol. apply Z.leb_le in Hcontrol.
  assert (Hin : In (fst gene) stream).
  { assert (Hfst : In (fst gene) (map fst (splitGenes stream)))
      by (apply in_map; exact Hgene).
    rewrite Htypes in Hfst. apply filter_In in Hfst. apply Hfst. }
  rewrite List.Forall_forall in Hbytes. specialize (Hbytes _ Hin).
  unfold isByte in Hbytes. lia.
Qed.

Lemma concatBytes_opens (genes : list (list Z)) :
  Forall isGeneChunk genes -> opensWithControl (Arrays.concatBytes genes).
Proof.
  intros Hgenes. unfold Arrays.concatBytes.
  destruct Hgenes as [|gene rest Hgene _]; [exact I|].
  destruct gene as [|b body]; [contradiction|].
  cbn [concat app map opensWithControl isGeneChunk] in *.
  unfold Js.toUint8. rewrite Z.mod_small by lia. exact Hgene.
Qed.

(** Whatever the rates, the loop bound and the draws, the pipeline returns
    bytes that open with a control byte, or none. *)
Lemma replicate_opens_with_control (rates : Genome.Dynamic) (fuel : nat)
  (genome : list Z) (seed : Z) (descendant : list Z) (seed' : Z) :
  Forall isByte genome ->
  ReplicateSpec.replicate rates fuel genome seed = Some (descendant, seed') ->
  opensWithControl descendant.
Proof.
  intros Hgenome. unfold ReplicateSpec.replicate, Genome.bindOpt, Genome.lift.
  pose proof (mapM_pointwise isByte isByte
                (ReplicateSpec.flipBits (Genome.chanceMutateBit rates) 8) genome seed
                (fun byte s Hbyte =>
                   proj1 (flipBits_byte _ 8 byte s (Nat.le_refl 8) Hbyte)) Hgenome)
    as Hmutated.
  destruct (Prng.mapM _ genome seed) as [mutated s1]. cbn [fst] in Hmutated.
  pose proof (dropEach_Forall isByte (Genome.chanceDropByte rates) mutated s1 Hmutated)
    as Hkept.
  destruct (ReplicateSpec.dropEach _ mutated s1) as [kept s2]. cbn [fst] in Hkept.
  destruct (ReplicateSpec.repeatEach _ fuel kept s2) as [[repeated s3]|] eqn:Hrepeat;
    [|discriminate].
  pose proof (repeatEach_Forall isByte _ _ _ _ _ _ Hkept Hrepeat) as Hrepeated.
  pose proof (relocateEach_Forall isByte (Genome.chanceTransposeByte rates) repeated s3
                Hrepeated) as Htransposed.
  destruct (ReplicateSpec.relocateEach _ repeated s3) as [transposed s4].
  cbn [fst] in Htransposed.
  pose proof (segment_chunks transposed Htransposed) as Hchunks.
  pose proof (dropEach_Forall isGeneChunk (Genome.chanceDropGene rates) _ s4 Hchunks)
    as HkeptGenes.
  destruct (ReplicateSpec.dropEach _ (ReplicateSpec.segment transposed) s4)
    as [keptGenes s5].
  cbn [fst] in HkeptGenes.
  destruct (ReplicateSpec.repeatEach _ fuel keptGenes s5) as [[repeatedGenes s6]|]
    eqn:HrepeatGenes; [|discriminate].
  pose proof (repeatEach_Forall isGeneChunk _ _ _ _ _ _ HkeptGenes HrepeatGenes)
    as HrepeatedGenes.
  pose proof (relocateEach_Forall isGeneChunk (Genome.chanceTransposeGene rates)
                repeatedGenes s6 HrepeatedGenes) as HtransposedGenes.
  destruct (ReplicateSpec.relocateEach _ repeatedGenes s6) as [transposedGenes s7].
  cbn [fst] in HtransposedGenes.
  intros [= <- <-]. apply concatBytes_opens. exact HtransposedGenes.
Qed.

(** C2 fails for the [replicateGenome] of src/app/meebas/genome.js.  From
    the genome 07 f0 7f and the seed 12345 it returns the three bytes as
    they are.  The pipeline returns f0 7f there at the rates of that file
    (bits flipped at 0.0005 and nothing else): the byte in front of the
    first control byte belongs to no gene and is lost in the segmentation.
    At no rates, loop bound and seed at all does the pipeline return
    07 f0 7f: what it returns opens with a control byte. *)
Lemma replicateGenome_early_not_pipeline :
  GenomeV0.replicateGenome strayGenome 12345%Z = ([7; 240; 127]%Z, 512233723%Z) /\
  (exists seed' : Z,
      ReplicateSpec.replicate earlyRates 10 strayGenome 12345%Z
      = Some ([240; 127]%Z, seed')) /\
  (forall (rates : Genome.Dynamic) (fuel : nat) (seed : Z),
      fst <$> ReplicateSpec.replicate rates fuel strayGenome seed
      <> Some (fst (GenomeV0.replicateGenome strayGenome 12345%Z))).
Proof.
  assert (Hearly : GenomeV0.replicateGenome strayGenome 12345%Z
                   = ([7; 240; 127]%Z, 512233723%Z)) by (vm_compute; reflexivity).
  split; [exact Hearly|]. split; [exists 110641741%Z; vm_compute; reflexivity|].
  intros rates fuel seed Hsame. rewrite Hearly in Hsame.
  destruct (ReplicateSpec.replicate rates fuel strayGenome seed)
    as [[descendant seed']|] eqn:Hrun; [|discriminate Hsame].
  assert (Hbytes : Forall isByte strayGenome).
  { unfold strayGenome, isByte. repeat constructor; lia. }
  pose proof (replicate_opens_with_control rates fuel strayGenome seed descendant seed'
                Hbytes Hrun) as Hopens.
  injection Hsame as ->. unfold opensWithControl in Hopens. lia.
Qed.

(** ** The control byte of a new gene *)

Lemma controlByteRolls_eq (volatility : Q) (fixed : Genome.Fixed) :
  let ratio := (1 / (0 + Genome.percentSizeGenes fixed + Genome.percentSpikeGenes fixed
                     + Genome.percentRedGenes fixed + Genome.percentGreenGenes fixed
                     + Genome.percentBlueGenes fixed))%Q in
  let m1 := (Genome.percentSizeGenes fixed * ratio + 0)%Q in
  let m2 := (Genome.percentSpikeGenes fixed * ratio + m1)%Q in
  let m3 := (Genome.percentRedGenes fixed * ratio + m2)%Q in
  let m4 := (Genome.percentGreenGenes fixed * ratio + m3)%Q in
  let m5 := (Genome.percentBlueGenes fixed * ratio + m4)%Q in
  Genome.controlByteRolls (Genome.dynamic volatility fixed)
  = [Genome.mkRoll 240 m1; Genome.mkRoll 241 m2; Genome.mkRoll 242 m3;
     Genome.mkRoll 243 m4; Genome.mkRoll 244 m5].
Proof. reflexivity. Qed.

(** X19.  When the five shares of the settings sum to more than 0 and the
    draw is below 1, [randControlByte] returns a control byte whose share is
    positive: a kind of gene with a share of 0 is not generated. *)
Theorem randControlByte_positive_share (volatility : Q) (fixed : Genome.Fixed) (seed : Z) :
  (0 <= seed)%Z -> (0 < percentTotal fixed)%Q ->
  (fst (Prng.rand seed) < 1)%Q ->
  (0 < percentOf fixed (fst (Genome.randControlByte volatility fixed seed)))%Q.
Proof.
  intros Hseed Htotal. destruct (rand_range seed Hseed) as [[Hr0 _] _].
  unfold Genome.randControlByte. rewrite bind_eq.
  destruct (Prng.rand seed) as [roll seed']. cbn [fst snd Prng.ret] in *.
  rewrite controlByteRolls_eq. cbv zeta.
  unfold percentTotal in Htotal.
  set (p1 := Genome.percentSizeGenes fixed) in *.
  set (p2 := Genome.percentSpikeGenes fixed) in *.
  set (p3 := Genome.percentRedGenes fixed) in *.
  set (p4 := Genome.percentGreenGenes fixed) in *.
  set (p5 := Genome.percentBlueGenes fixed) in *.
  set (total := (0 + p1 + p2 + p3 + p4 + p5)%Q).
  assert (Htotal' : (0 < total)%Q) by (unfold total; lra).
  assert (Hratio : (0 < 1 / total)%Q).
  { apply Qlt_shift_div_l; [exact Htotal'|]. lra. }
  assert (Hone : (total * (1 / total) == 1)%Q).
  { field. lra. }
  set (ratio := (1 / total)%Q) in *. clearbody ratio.
  assert (Hsum : (p1 * ratio + p2 * ratio + p3 * ratio + p4 * ratio + p5 * ratio == 1)%Q).
  { rewrite <- Hone. unfold total. ring. }
  cbn [find Genome.maxRoll List.last Genome.byte].
  intros Hbelow. unfold percentOf.
  fold p1 p2 p3 p4 p5.
  destruct (Js.ltb roll (p1 * ratio + 0)) eqn:E1;
    [apply ltb_lt in E1|apply ltb_ge in E1]; cbn [Genome.byte Z.eqb Pos.eqb].
  { nra. }
  destruct (Js.ltb roll (p2 * ratio + (p1 * ratio + 0))) eqn:E2;
    [apply ltb_lt in E2|apply ltb_ge in E2]; cbn [Genome.byte Z.eqb Pos.eqb].
  { nra. }
  destruct (Js.ltb roll (p3 * ratio + (p2 * ratio + (p1 * ratio + 0)))) eqn:E3;
    [apply ltb_lt in E3|apply ltb_ge in E3]; cbn [Genome.byte Z.eqb Pos.eqb].
  { nra. }
  destruct (Js.ltb roll (p4 * ratio + (p3 * ratio + (p2 * ratio + (p1 * ratio + 0)))))
    eqn:E4; [apply ltb_lt in E4|apply ltb_ge in E4]; cbn [Genome.byte Z.eqb Pos.eqb].
  { nra. }
  destruct (Js.ltb roll (p5 * ratio + (p4 * ratio + (p3 * ratio
                                       + (p2 * ratio + (p1 * ratio + 0))))))
    eqn:E5; [apply ltb_lt in E5|apply ltb_ge in E5]; cbn [Genome.byte Z.eqb Pos.eqb].
  { nra. }
  exfalso. lra.
Qed.

Lemma randControlByte_positive_share_witness :
  (0 < percentOf genomeSettings
         (fst (Genome.randControlByte 100 genomeSettings 12345%Z)))%Q.
Proof.
  refine (randControlByte_positive_share 100 genomeSettings 12345%Z _ _ _).
  - lia.
  - vm_compute. reflexivity.
  - vm_compute. reflexivity.
Defined.

(** ** Vitals *)

(** C5.  For every vitals record and every requested amount, both variants
    of [drainCalories] return [min(amount, calories)], leave
    [calories - min(amount, calories)] in the record, and that is never
    negative. *)
Theorem drainCalories_removes_min :
  (forall (vitals : Vitals.Vitals) (amount : Q),
      let result := Vitals.drainCalories vitals amount in
      (snd result == Qmin amount (Vitals.calories vitals))%Q /\
      (Vitals.calories (fst result)
         == Vitals.calories vitals - Qmin amount (Vitals.calories vitals))%Q /\
      (0 <= Vitals.calories (fst result))%Q) /\
  (forall (vitals : VitalsV0.Vitals) (amount : Q),
      let result := VitalsV0.drainCalories vitals amount in
      (snd result == Qmin amount (VitalsV0.calories vitals))%Q /\
      (VitalsV0.calories (fst result)
         == VitalsV0.calories vitals - Qmin amount (VitalsV0.calories vitals))%Q /\
      (0 <= VitalsV0.calories (fst result))%Q).
Proof.
  split; intros vitals amount; cbn zeta.
  - unfold Vitals.drainCalories, Js.gtb; cbn [fst snd Vitals.calories].
    destruct (Js.ltb amount (Vitals.calories vitals)) eqn:E.
    + apply ltb_lt in E.
      assert (M : (Qmin amount (Vitals.calories vitals) == amount)%Q)
        by (apply Q.min_l; apply Qlt_le_weak; exact E).
      rewrite M. repeat split; try reflexivity. lra.
    + apply ltb_ge in E.
      assert (M : (Qmin amount (Vitals.calories vitals) == Vitals.calories vitals)%Q)
        by (apply Q.min_r; exact E).
      rewrite M. repeat split; try reflexivity. lra.
  - unfold VitalsV0.drainCalories, Js.gtb; cbn [fst snd VitalsV0.calories].
    destruct (Js.ltb amount (VitalsV0.calories vitals)) eqn:E.
    + apply ltb_lt in E.
      assert (M : (Qmin amount (VitalsV0.calories vitals) == amount)%Q)
        by (apply Q.min_l; apply Qlt_le_weak; exact E).
      assert (P : Js.ltb 0 (VitalsV0.calories vitals - amount) = true)
        by (apply ltb_lt; lra).
      rewrite P, M. repeat split; try reflexivity. lra.
    + apply ltb_ge in E.
      assert (M : (Qmin amount (VitalsV0.calories vitals) == VitalsV0.calories vitals)%Q)
        by (apply Q.min_r; exact E).
      assert (P : Js.ltb 0 0 = false) by reflexivity.
      rewrite P, M. repeat split; try reflexivity; lra.
Qed.

(** C1, as the code has it.  [initVitals] of both variants, [setCalories]
    and the [drainCalories] that returns new vitals establish
    [isDead == (calories < diesAt)].  The [drainCalories] that writes in
    place changes the calories only: [isDead] and every other field stay as
    they were. *)
Theorem vitals_isDead_recomputed :
  (forall mass : Q, VitalsV0.invariant (VitalsV0.initVitals mass)) /\
  (forall (vitals : VitalsV0.Vitals) (calories : Q),
      VitalsV0.invariant (VitalsV0.setCalories vitals calories)) /\
  (forall (vitals : VitalsV0.Vitals) (drain : Q),
      VitalsV0.invariant (fst (VitalsV0.drainCalories vitals drain))) /\
  (forall (pow : Q -> Q -> Q) (Spike : Type) (spikeLength : Spike -> Q)
          (temperature : Q) (fixed : Vitals.Fixed) (mass : Q) (spikes : list Spike),
      Vitals.invariant
        (Vitals.initVitals pow Spike spikeLength temperature fixed mass spikes)) /\
  (forall (vitals : Vitals.Vitals) (drain : Q),
      let vitals' := fst (Vitals.drainCalories vitals drain) in
      Vitals.isDead vitals' = Vitals.isDead vitals /\
      Vitals.diesAt vitals' = Vitals.diesAt vitals /\
      Vitals.spawnsAt vitals' = Vitals.spawnsAt vitals /\
      Vitals.upkeep vitals' = Vitals.upkeep vitals).
Proof.
  repeat split.
Qed.

(** C1 fails for the [drainCalories] that writes in place: a living meeba
    with 125 calories that dies at 50 is drained of 100 and is left with 25
    calories, still marked alive. *)
Lemma drainCalories_in_place_keeps_isDead :
  let vitals := {| Vitals.calories := 125; Vitals.upkeep := 3;
                   Vitals.diesAt := 50; Vitals.spawnsAt := 200;
                   Vitals.isDead := false |} in
  let vitals' := fst (Vitals.drainCalories vitals 100) in
  Vitals.invariant vitals /\
  (Vitals.calories vitals' == 25)%Q /\
  Vitals.isDead vitals' = false /\
  Js.ltb (Vitals.calories vitals') (Vitals.diesAt vitals') = true /\
  ~ Vitals.invariant vitals'.
Proof.
  cbn zeta. repeat split; try reflexivity.
  unfold Vitals.invariant. vm_compute. discriminate.
Qed.

(** ** More on vitals *)

Lemma floor_le (a b : Q) : (a <= b)%Q -> (Js.floor a <= Js.floor b)%Q.
Proof.
  intros H. unfold Js.floor. rewrite <- Zle_Qle. apply Qfloor_resp_le. exact H.
Qed.

Lemma floor_share_le (mass share share' : Q) :
  (0 <= mass)%Q -> (share <= share')%Q ->
  (Js.floor (mass * share) <= Js.floor (mass * share'))%Q.
Proof. intros Hmass Hshare. apply floor_le. nra. Qed.

(** X9.  A meeba is never born dead: for a mass that is not negative,
    [initVitals] of both variants (the one with settings when
    [percentDiesAt <= percentSpawnsAt]) returns vitals with
    [diesAt <= calories <= spawnsAt] and [isDead] false. *)
Theorem initVitals_alive :
  (forall mass : Q,
      (0 <= mass)%Q ->
      let vitals := VitalsV0.initVitals mass in
      (VitalsV0.diesAt vitals <= VitalsV0.calories vitals)%Q /\
      (VitalsV0.calories vitals <= VitalsV0.spawnsAt vitals)%Q /\
      VitalsV0.isDead vitals = false) /\
  (forall (pow : Q -> Q -> Q) (Spike : Type) (spikeLength : Spike -> Q)
          (temperature : Q) (fixed : Vitals.Fixed) (mass : Q) (spikes : list Spike),
      (0 <= mass)%Q ->
      (Vitals.percentDiesAt fixed <= Vitals.percentSpawnsAt fixed)%Q ->
      let vitals := Vitals.initVitals pow Spike spikeLength temperature fixed mass spikes in
      (Vitals.diesAt vitals <= Vitals.calories vitals)%Q /\
      (Vitals.calories vitals <= Vitals.spawnsAt vitals)%Q /\
      Vitals.isDead vitals = false).
Proof.
  split.
  - intros mass Hmass. cbn zeta. unfold VitalsV0.initVitals.
    cbn [VitalsV0.diesAt VitalsV0.calories VitalsV0.spawnsAt VitalsV0.isDead].
    assert (H1 : (Js.floor (mass * VitalsV0.CALORIES_DEATH)
                  <= Js.floor (mass * VitalsV0.CALORIES_START))%Q).
    { apply floor_share_le; [exact Hmass|]. vm_compute. discriminate. }
    assert (H2 : (Js.floor (mass * VitalsV0.CALORIES_START)
                  <= Js.floor (mass * VitalsV0.CALORIES_SPAWN))%Q).
    { apply floor_share_le; [exact Hmass|]. vm_compute. discriminate. }
    split; [exact H1|]. split; [exact H2|]. apply ltb_ge. exact H1.
  - intros pow Spike spikeLength temperature fixed mass spikes Hmass Hpercent.
    cbn zeta. unfold Vitals.initVitals.
    cbn [Vitals.diesAt Vitals.calories Vitals.spawnsAt Vitals.isDead].
    unfold Vitals.dynamic, Vitals.updateDynamic. cbn [Vitals.percentStartsAt].
    set (d := Vitals.percentDiesAt fixed) in *.
    set (s := Vitals.percentSpawnsAt fixed) in *.
    assert (H1 : (Js.floor (mass * d) <= Js.floor (mass * ((d + s) / 2)))%Q).
    { apply floor_share_le; [exact Hmass|].
      apply Qle_shift_div_l; [reflexivity|]. lra. }
    assert (H2 : (Js.floor (mass * ((d + s) / 2)) <= Js.floor (mass * s))%Q).
    { apply floor_share_le; [exact Hmass|].
      apply Qle_shift_div_r; [reflexivity|]. lra. }
    split; [exact H1|]. split; [exact H2|]. apply ltb_ge. exact H1.
Qed.

Lemma initVitals_alive_witness :
  VitalsV0.isDead (VitalsV0.initVitals 322%Q) = false.
Proof.
  refine (proj2 (proj2 (proj1 initVitals_alive 322%Q _))). vm_compute. discriminate.
Defined.

(** X10.  At a temperature of 0 or less a meeba has no upkeep, whatever its
    mass and spikes ([mass ** massCalorieExponent] is not 0: the upkeep is
    a quotient by it). *)
Theorem upkeep_zero_when_cold
  (pow : Q -> Q -> Q) (Spike : Type) (spikeLength : Spike -> Q)
  (temperature : Q) (fixed : Vitals.Fixed) (mass : Q) (spikes : list Spike) :
  (temperature <= 0)%Q ->
  ~ (pow mass (Vitals.massCalorieExponent fixed) == 0)%Q ->
  Vitals.upkeep (Vitals.initVitals pow Spike spikeLength temperature fixed mass spikes)
    = 0%Q /\
  Vitals.calcUpkeep pow Spike spikeLength temperature fixed mass spikes = 0%Q.
Proof.
  intros Hcold _. cbn [Vitals.initVitals Vitals.upkeep].
  assert (H : Vitals.calcUpkeep pow Spike spikeLength temperature fixed mass spikes = 0%Q).
  { unfold Vitals.calcUpkeep, Js.floor.
    replace (Qfloor _) with 0%Z; [reflexivity|].
    symmetry. rewrite <- (Qfloor_Z 0). apply Qfloor_comp.
    unfold Vitals.dynamic, Vitals.updateDynamic. cbn [Vitals.upkeepAdjustment].
    assert (Hmax : Js.max 0 temperature = 0%Q).
    { unfold Js.max. replace (Js.ltb 0 temperature) with false; [reflexivity|].
      symmetry. apply ltb_ge. exact Hcold. }
    rewrite Hmax. assert (E : (0 / 30 == 0)%Q) by reflexivity.
    rewrite E. cbn [inject_Z]. ring. }
  split; exact H.
Qed.

Lemma upkeep_zero_when_cold_witness :
  let fixed := Vitals.mkFixed (1 # 2) 2 (1 # 100) 5 (3 # 2) (1 # 2) 1 in
  Vitals.calcUpkeep (fun base _ => base) Q (fun length => length) (-5)%Q fixed 322%Q
    [4%Q; 9%Q] = 0%Q.
Proof.
  cbn zeta.
  refine (proj2 (upkeep_zero_when_cold (fun base _ => base) Q (fun length => length)
                   (-5)%Q _ 322%Q [4%Q; 9%Q] _ _)).
  - vm_compute. discriminate.
  - vm_compute. discriminate.
Defined.

(** X11.  Draining twice is draining the sum once: for amounts that are
    not negative, both variants of [drainCalories] leave the same calories
    after [a] then [b] as after [a + b], and report the same total. *)
Theorem drainCalories_twice :
  (forall (vitals : Vitals.Vitals) (a b : Q),
      (0 <= a)%Q -> (0 <= b)%Q ->
      let first := Vitals.drainCalories vitals a in
      let second := Vitals.drainCalories (fst first) b in
      let once := Vitals.drainCalories vitals (a + b) in
      (Vitals.calories (fst second) == Vitals.calories (fst once))%Q /\
      (snd first + snd second == snd once)%Q) /\
  (forall (vitals : VitalsV0.Vitals) (a b : Q),
      (0 <= a)%Q -> (0 <= b)%Q ->
      let first := VitalsV0.drainCalories vitals a in
      let second := VitalsV0.drainCalories (fst first) b in
      let once := VitalsV0.drainCalories vitals (a + b) in
      (VitalsV0.calories (fst second) == VitalsV0.calories (fst once))%Q /\
      (snd first + snd second == snd once)%Q /\
      VitalsV0.isDead (fst second) = VitalsV0.isDead (fst once)).
Proof.
  split; intros vitals a b Ha Hb; cbn zeta.
  - unfold Vitals.drainCalories, Js.gtb. cbn [fst snd Vitals.calories].
    set (c := Vitals.calories vitals).
    destruct (Js.ltb a c) eqn:Ea;
      [apply ltb_lt in Ea|apply ltb_ge in Ea].
    + destruct (Js.ltb b (c - a)) eqn:Eb;
        [apply ltb_lt in Eb|apply ltb_ge in Eb].
      * assert (E : Js.ltb (a + b) c = true) by (apply ltb_lt; lra).
        rewrite E. split; ring.
      * assert (E : Js.ltb (a + b) c = false) by (apply ltb_ge; lra).
        rewrite E. split; ring.
    + assert (E : Js.ltb (a + b) c = false) by (apply ltb_ge; lra).
      rewrite E.
      destruct (Js.ltb b (c - c)) eqn:Eb;
        [apply ltb_lt in Eb; lra|]. split; ring.
  - unfold VitalsV0.drainCalories, Js.gtb.
    cbn [fst snd VitalsV0.calories VitalsV0.diesAt VitalsV0.isDead].
    set (c := VitalsV0.calories vitals). set (d := VitalsV0.diesAt vitals).
    destruct (Js.ltb a c) eqn:Ea;
      [apply ltb_lt in Ea|apply ltb_ge in Ea].
    + assert (P : Js.ltb 0 (c - a) = true) by (apply ltb_lt; lra). rewrite P.
      destruct (Js.ltb b (c - a)) eqn:Eb;
        [apply ltb_lt in Eb|apply ltb_ge in Eb].
      * assert (E : Js.ltb (a + b) c = true) by (apply ltb_lt; lra). rewrite E.
        assert (P1 : Js.ltb 0 (c - a - b) = true) by (apply ltb_lt; lra).
        assert (P2 : Js.ltb 0 (c - (a + b)) = true) by (apply ltb_lt; lra).
        rewrite P1, P2. split; [ring|]. split; [ring|].
        apply eq_true_iff_eq. rewrite !ltb_lt. split; intros; lra.
      * assert (E : Js.ltb (a + b) c = false) by (apply ltb_ge; lra). rewrite E.
        assert (P0 : Js.ltb 0 0 = false) by reflexivity. rewrite P0.
        split; [reflexivity|]. split; [ring|reflexivity].
    + assert (P0 : Js.ltb 0 0 = false) by reflexivity. rewrite P0.
      assert (E : Js.ltb (a + b) c = false) by (apply ltb_ge; lra). rewrite E.
      destruct (Js.ltb b 0) eqn:Eb; [apply ltb_lt in Eb; lra|].
      rewrite P0. split; [reflexivity|]. split; [ring|reflexivity].
Qed.

Lemma drainCalories_twice_witness :
  let vitals := VitalsV0.mkVitals 1000 161 644 false in
  let first := VitalsV0.drainCalories vitals 300%Q in
  let second := VitalsV0.drainCalories (fst first) 600%Q in
  let once := VitalsV0.drainCalories vitals (300 + 600)%Q in
  (VitalsV0.calories (fst second) == VitalsV0.calories (fst once))%Q /\
  (snd first + snd second == snd once)%Q /\
  VitalsV0.isDead (fst second) = VitalsV0.isDead (fst once).
Proof.
  cbn zeta. apply (proj2 drainCalories_twice).
  - vm_compute. discriminate.
  - vm_compute. discriminate.
Defined.

(** ** Reproduction *)

Section ReplicateParent.
Variable PI : Q.
Variable sqrt : Q -> Q.
Variable Spike : Type.
Variable spawnSpike : Q -> Q -> Q -> Spike.
Variable getSpikeMover : Q -> Q -> Spike -> Spike.
Variable spikeLength : Spike -> Q.
Variable toVector : Q -> Q -> Q * Q.
Variable rgbToHue : Q -> Q -> Q -> Q.
Variable settings : Bodies.Settings.
Variable volatility : Q.
Variable genomeFixed : Genome.Fixed.
Variable pow : Q -> Q -> Q.
Variable temperature : Q.
Variable vitalsFixed : Vitals.Fixed.

Local Abbreviation initBody :=
  (Bodies.initBody PI sqrt Spike spawnSpike spikeLength rgbToHue settings genomeFixed
     pow temperature vitalsFixed).
Local Abbreviation replicateParent :=
  (Bodies.replicateParent PI sqrt Spike spawnSpike getSpikeMover spikeLength toVector
     rgbToHue settings volatility genomeFixed pow temperature vitalsFixed).

Lemma randInt_whole (min : Z) (max : Q) (seed : Z) :
  exists n : Z, (fst (Prng.randInt (inject_Z min) max seed) == inject_Z n)%Q.
Proof.
  unfold Prng.randInt. rewrite bind_eq. unfold Prng.rand, Prng.ret, Js.floor. cbn [fst].
  eexists (min + _)%Z. rewrite inject_Z_plus. reflexivity.
Qed.

(** What [replicateParent] returns, once [replicateGenome] has returned
    the child's dna: the body of [initBody] with the parent's fill, its
    place and velocity, its spikes moved, and in the store its vitals with
    the calories set. *)
Lemma replicateParent_runs (fuel : nat) (parent : Bodies.Body Spike) (angle : Q)
  (store : Bodies.Store) (seed : Z) (parentVitals : Vitals.Vitals) (dna' : list Z)
  (seed1 : Z) :
  store !! Bodies.vitals parent = Some parentVitals ->
  Genome.replicateGenome volatility genomeFixed fuel (Bodies.toBytes (Bodies.dna parent))
    seed = Some (dna', seed1) ->
  let body := fst (initBody dna' store) in
  let bodyVitals :=
    Vitals.initVitals pow Spike spikeLength temperature vitalsFixed
      (Bodies.mass body) (Bodies.spikes body) in
  let x' := (Bodies.x parent + fst (toVector angle (2 * Bodies.radius body)))%Q in
  let y' := (Bodies.y parent + snd (toVector angle (2 * Bodies.radius body)))%Q in
  let draw := Prng.randInt 0 (Bodies.maxSpawningEnergy settings / Bodies.mass body)%Q seed1 in
  replicateParent fuel parent angle store seed
  = Some ({| Bodies.dna := Bodies.dna body;
             Bodies.fill := Bodies.fill parent;
             Bodies.x := x'; Bodies.y := y';
             Bodies.mass := Bodies.mass body;
             Bodies.radius := Bodies.radius body;
             Bodies.velocity :=
               {| Bodies.v_angle := angle;
                  Bodies.v_speed := (Bodies.v_speed (Bodies.velocity parent) + fst draw)%Q |};
             Bodies.vitals := length store;
             Bodies.spikes := map (getSpikeMover x' y') (Bodies.spikes body);
             Bodies.meta := Bodies.meta body |},
           store ++ [Vitals.setCalories bodyVitals
                       (Js.floor (Vitals.calories parentVitals / 2))],
           snd draw).
Proof.
  intros Hparent Hgenome. cbv zeta.
  unfold Bodies.replicateParent, Genome.bindOpt. rewrite Hgenome.
  unfold Bodies.initBody, Bodies.alloc, Bodies.write.
  cbn [fst snd Bodies.vitals Bodies.mass Bodies.radius Bodies.spikes Bodies.dna
       Bodies.meta].
  set (mass := (Bodies.minMass PI settings + _)%Q).
  set (spikes := Bodies.sort _ _).
  set (bodyVitals := Vitals.initVitals pow Spike spikeLength temperature vitalsFixed
                       mass spikes).
  assert (Hb : (store ++ [bodyVitals]) !! length store = Some bodyVitals).
  { rewrite lookup_app_r by lia. rewrite Nat.sub_diag. reflexivity. }
  rewrite Hb, (lookup_app_l_Some _ _ _ _ Hparent).
  rewrite insert_app_r_alt by lia. rewrite Nat.sub_diag. cbn [insert list_insert].
  unfold Genome.lift. rewrite bind_eq.
  destruct (Prng.randInt _ _ seed1) as [bonus seed2]. reflexivity.
Qed.


(** X3.  Whenever [replicateParent] returns a child for a parent whose
    vitals are in the store, the store is the one before the call with one
    object more, the child's vitals: every object that was there is as it
    was.  The child's dna is the one [replicateGenome] returned, in
    hexadecimal; the child has the parent's fill, lies at
    [toVector({ angle, speed: 2 * radius })] from the parent, heads along
    [angle] with the parent's speed and a bonus that is a whole number, and
    each of its spikes has been moved to its place. *)
Theorem replicateParent_store (fuel : nat) (parent : Bodies.Body Spike) (angle : Q)
  (store : Bodies.Store) (seed : Z) (child : Bodies.Body Spike)
  (store' : Bodies.Store) (seed' : Z) :
  (Bodies.vitals parent < length store)%nat ->
  replicateParent fuel parent angle store seed = Some (child, store', seed') ->
  exists (childVitals : Vitals.Vitals) (dna' : list Z) (bonus : Z),
    store' = store ++ [childVitals] /\
    Bodies.vitals child = length store /\
    fst <$> Genome.replicateGenome volatility genomeFixed fuel
              (Bodies.toBytes (Bodies.dna parent)) seed = Some dna' /\
    Bodies.dna child = Bodies.toHex dna' /\
    Bodies.fill child = Bodies.fill parent /\
    Bodies.x child
      = (Bodies.x parent + fst (toVector angle (2 * Bodies.radius child)))%Q /\
    Bodies.y child
      = (Bodies.y parent + snd (toVector angle (2 * Bodies.radius child)))%Q /\
    Bodies.v_angle (Bodies.velocity child) = angle /\
    (Bodies.v_speed (Bodies.velocity child)
       == Bodies.v_speed (Bodies.velocity parent) + inject_Z bonus)%Q /\
    Bodies.spikes child
      = map (getSpikeMover (Bodies.x child) (Bodies.y child))
            (Bodies.spikes (fst (initBody dna' store))).
Proof.
  intros Hparent Hrun.
  destruct (Genome.replicateGenome volatility genomeFixed fuel
              (Bodies.toBytes (Bodies.dna parent)) seed) as [[dna' seed1]|] eqn:Hgenome;
    [|unfold Bodies.replicateParent, Genome.bindOpt in Hrun; rewrite Hgenome in Hrun;
      discriminate Hrun].
  destruct (lookup_lt_is_Some_2 store _ Hparent) as [parentVitals Hvitals].
  rewrite (replicateParent_runs fuel parent angle store seed parentVitals dna' seed1
             Hvitals Hgenome) in Hrun.
  cbv zeta in Hrun.
  destruct (randInt_whole 0 (Bodies.maxSpawningEnergy settings
                             / Bodies.mass (fst (initBody dna' store))) seed1)
    as [bonus Hbonus].
  injection Hrun as <- <- <-.
  eexists _, dna', bonus. split; [reflexivity|].
  cbn [Bodies.vitals Bodies.mass Bodies.dna Bodies.fill Bodies.x Bodies.y Bodies.radius
       Bodies.velocity Bodies.v_angle Bodies.v_speed Bodies.spikes
       Vitals.setCalories Vitals.diesAt Vitals.spawnsAt].
  repeat (split; [reflexivity|]).
  split; [|reflexivity].
  apply Qplus_inj_l. exact Hbonus.
Qed.

End ReplicateParent.


(** ** The child in [replicateParent] *)

Lemma replicateParent_store_witness :
  exists (child : Bodies.Body (Q * Q * Q)) (store' : list Vitals.Vitals) (seed' : Z),
    Bodies.replicateParent (355 # 113) sqrtFloor (Q * Q * Q) spikeStub
      (fun _ _ spike => spike) (fun spike => snd spike) toVectorEast
      (fun _ _ _ => 0%Q) bodySettings 100 genomeSettings powWhole 30 vitalsSettings
      100%nat parentBody 0 parentStore 12345%Z = Some (child, store', seed') /\
    exists childVitals : Vitals.Vitals,
      store' = parentStore ++ [childVitals] /\ Bodies.fill child = "#336699"%string.
Proof.
  pose proof (replicateParent_store (355 # 113) sqrtFloor (Q * Q * Q) spikeStub
                (fun _ _ spike => spike) (fun spike => snd spike) toVectorEast
                (fun _ _ _ => 0%Q) bodySettings 100 genomeSettings powWhole 30
                vitalsSettings 100%nat parentBody 0 parentStore 12345%Z) as Hstore.
  destruct (Bodies.replicateParent (355 # 113) sqrtFloor (Q * Q * Q) spikeStub
              (fun _ _ spike => spike) (fun spike => snd spike) toVectorEast
              (fun _ _ _ => 0%Q) bodySettings 100 genomeSettings powWhole 30
              vitalsSettings 100%nat parentBody 0 parentStore 12345%Z)
    as [[[child store'] seed']|] eqn:Hrun.
  - exists child, store', seed'. split; [reflexivity|].
    destruct (Hstore child store' seed' ltac:(cbn; lia) eq_refl)
      as (childVitals & dna' & bonus & Hstore' & _ & _ & _ & Hfill & _).
    exists childVitals. split; [exact Hstore'|exact Hfill].
  - vm_compute in Hrun. discriminate Hrun.
Defined.

(** ** Building a body *)

Section Sorting.
Context {A : Type}.
Variable compare : A -> A -> Q.

Lemma insertSorted_perm (a : A) (sorted : list A) :
  Permutation (Bodies.insertSorted compare a sorted) (a :: sorted).
Proof.
  induction sorted as [|b rest IH]; [reflexivity|].
  cbn [Bodies.insertSorted]. destruct (Js.gtb (compare a b) 0); [|reflexivity].
  rewrite IH. apply perm_swap.
Qed.

Lemma sort_perm (arr : list A) : Permutation (Bodies.sort compare arr) arr.
Proof.
  induction arr as [|a rest IH]; [reflexivity|].
  cbn [Bodies.sort fold_right]. fold (Bodies.sort compare rest).
  rewrite insertSorted_perm, IH. reflexivity.
Qed.

End Sorting.

Section Descending.
Context {A : Type}.
Variable key : A -> Q.

Lemma insertSorted_descending (a : A) (sorted : list A) :
  StronglySorted (fun a b => (key b <= key a)%Q) sorted ->
  StronglySorted (fun a b => (key b <= key a)%Q)
    (Bodies.insertSorted (fun a b => (key b - key a)%Q) a sorted).
Proof.
  induction 1 as [|b rest Hrest IH Hb]; [repeat constructor|].
  cbn [Bodies.insertSorted]. unfold Js.gtb.
  destruct (Js.ltb 0 (key b - key a)) eqn:E;
    [apply ltb_lt in E|apply ltb_ge in E].
  - constructor; [exact IH|].
    apply List.Forall_forall. intros c Hc.
    apply (Permutation_in _ (insertSorted_perm _ a rest)) in Hc.
    destruct Hc as [<-|Hc].
    + lra.
    + rewrite List.Forall_forall in Hb. apply Hb. exact Hc.
  - constructor; [constructor; assumption|].
    constructor; [lra|].
    eapply Forall_impl; [exact Hb|]. intros c Hc. cbn in *. lra.
Qed.

Lemma sort_descending (arr : list A) :
  StronglySorted (fun a b => (key b <= key a)%Q)
    (Bodies.sort (fun a b => (key b - key a)%Q) arr).
Proof.
  induction arr as [|a rest IH]; [constructor|].
  cbn [Bodies.sort fold_right]. apply insertSorted_descending. exact IH.
Qed.

End Descending.

Section InitBody.
Variable PI : Q.
Variable sqrt : Q -> Q.
Variable Spike : Type.
Variable spawnSpike : Q -> Q -> Q -> Spike.
Variable spikeLength : Spike -> Q.
Variable rgbToHue : Q -> Q -> Q -> Q.
Variable settings : Bodies.Settings.
Variable genomeFixed : Genome.Fixed.
Variable pow : Q -> Q -> Q.
Variable temperature : Q.
Variable vitalsFixed : Vitals.Fixed.

(** X30.  [initBody] builds a body with one spike for each byte 0xF1 of
    the dna, the spikes in order of length, longest first; its mass is the
    minimal mass or more, its radius is the integer part of
    [sqrt(mass / PI)], and its vitals are one new object in the store,
    those of [initVitals] for its mass and its spikes (the bits per mass
    and per spike length are positive). *)
Theorem initBody_builds (dna : list Z) (store : Bodies.Store) :
  (0 < Genome.bitsPerMass genomeFixed)%Q ->
  (0 < Genome.bitsPerSpikeLength genomeFixed)%Q ->
  let built := Bodies.initBody PI sqrt Spike spawnSpike spikeLength rgbToHue settings
                 genomeFixed pow temperature vitalsFixed dna store in
  let body := fst built in
  length (Bodies.spikes body) = length (List.filter (fun byte => (byte =? 241)%Z) dna) /\
  StronglySorted (fun a b => (spikeLength b <= spikeLength a)%Q) (Bodies.spikes body) /\
  Permutation (Bodies.spikes body)
    (map (fun command => spawnSpike (Bodies.radius body) (sc_angle command)
                           (sc_length command))
         (Genome.spikes (Genome.readGenome genomeFixed rgbToHue dna))) /\
  (Bodies.minMass PI settings <= Bodies.mass body)%Q /\
  Bodies.radius body = Js.floor (sqrt (Bodies.mass body / PI)) /\
  snd built
    = store ++ [Vitals.initVitals pow Spike spikeLength temperature vitalsFixed
                  (Bodies.mass body) (Bodies.spikes body)] /\
  Bodies.vitals body = length store.
Proof.
  intros Hmass Hlength. cbv zeta. unfold Bodies.initBody, Bodies.alloc.
  cbn [fst snd Bodies.spikes Bodies.mass Bodies.radius Bodies.vitals].
  set (commands := Genome.readGenome genomeFixed rgbToHue dna).
  set (mass := (Bodies.minMass PI settings + Genome.size commands)%Q).
  set (radius := Js.floor (sqrt (mass / PI))).
  set (spawned := map (fun command => spawnSpike radius (sc_angle command)
                                        (sc_length command))
                      (Genome.spikes commands)).
  pose proof (sort_perm (fun a b => (spikeLength b - spikeLength a)%Q) spawned) as Hperm.
  split; [|split; [|split; [|split; [|repeat split]]]].
  - rewrite (Permutation_length Hperm). unfold spawned. rewrite length_map.
    unfold commands, Genome.readGenome. cbn [Genome.spikes]. rewrite length_map.
    apply spike_genes_count.
  - apply (sort_descending spikeLength).
  - exact Hperm.
  - unfold mass, commands, Genome.readGenome. cbn [Genome.size].
    assert (Hsize : (0 <= Js.floor (inject_Z (Genome.countTypeBits 240 (Genome.toGenes dna))
                                    / Genome.bitsPerMass genomeFixed))%Q).
    { apply floor_quotient_nonneg; [|exact Hmass].
      unfold Genome.countTypeBits.
      generalize (List.filter (fun gene => (type gene =? 240)%Z) (Genome.toGenes dna)).
      intros genes.
      enough (H : forall acc : Z, (0 <= acc)%Z ->
                    (0 <= fold_left (fun sum gene => (sum + Bits.countBits (bytes gene))%Z)
                           genes acc)%Z) by (apply H; lia).
      induction genes as [|gene genes' IH]; intros acc Hacc; [exact Hacc|].
      cbn [fold_left]. apply IH. pose proof (countBits_nonneg (bytes gene)). lia. }
    lra.
Qed.

End InitBody.

Lemma initBody_builds_witness :
  length (Bodies.spikes
            (fst (Bodies.initBody (355 # 113) sqrtFloor (Q * Q * Q) spikeStub
                    (fun spike => snd spike) (fun _ _ _ => 0%Q) bodySettings
                    genomeSettings powWhole 30 vitalsSettings
                    [240; 127; 241; 15; 241; 255]%Z parentStore)))
  = length (List.filter (fun byte => (byte =? 241)%Z) [240; 127; 241; 15; 241; 255]%Z).
Proof.
  refine (proj1 (initBody_builds (355 # 113) sqrtFloor (Q * Q * Q) spikeStub
                   (fun spike => snd spike) (fun _ _ _ => 0%Q) bodySettings
                   genomeSettings powWhole 30 vitalsSettings
                   [240; 127; 241; 15; 241; 255]%Z parentStore _ _)).
  - vm_compute. reflexivity.
  - vm_compute. reflexivity.
Defined.

(** ** A random body *)

Lemma string_length_append (s1 s2 : string) :
  String.length (s1 ++ s2) = (String.length s1 + String.length s2)%nat.
Proof. induction s1 as [|c s1 IH]; [reflexivity|]. cbn. rewrite IH. reflexivity. Qed.

Lemma string_length_repeat (pad : ascii) (n : nat) :
  String.length (string_of_list_ascii (repeat pad n)) = n.
Proof. induction n as [|n IH]; [reflexivity|]. cbn. rewrite IH. reflexivity. Qed.

Lemma toStringFrom_length (digits fuel : nat) (n : Z) :
  (1 <= digits)%nat -> (0 <= n < 16 ^ Z.of_nat digits)%Z ->
  (String.length (Js.toStringFrom fuel 16 n) <= digits)%nat.
Proof.
  revert fuel n. induction digits as [|digits IH]; intros fuel n Hdigits Hn; [lia|].
  destruct fuel as [|fuel]; [cbn; lia|].
  cbn [Js.toStringFrom]. destruct (Z.ltb_spec n 16) as [Hsmall|Hbig]; [cbn; lia|].
  rewrite string_length_append. cbn [String.length].
  destruct digits as [|digits'].
  - cbn in Hn. lia.
  - assert (Hquot : (0 <= n / 16 < 16 ^ Z.of_nat (S digits'))%Z).
    { split; [apply Z.div_pos; lia|].
      apply Z.div_lt_upper_bound; [lia|].
      replace (Z.of_nat (S (S digits'))) with (Z.of_nat (S digits') + 1)%Z in Hn by lia.
      rewrite Z.pow_add_r in Hn by lia. lia. }
    pose proof (IH fuel (n / 16)%Z ltac:(lia) Hquot). lia.
Qed.

Lemma padStart_length (str : string) (targetLength : nat) (pad : ascii) :
  (String.length str <= targetLength)%nat ->
  String.length (Js.padStart str targetLength pad) = targetLength.
Proof.
  intros Hshort. unfold Js.padStart.
  rewrite string_length_append, string_length_repeat. lia.
Qed.

Lemma floor_span (r width : Q) :
  (0 <= r <= 1)%Q -> (0 <= width)%Q ->
  (0 <= Js.floor (r * width) <= width)%Q /\
  ((r < 1)%Q -> (0 < width)%Q -> (Js.floor (r * width) < width)%Q).
Proof.
  intros [Hr0 Hr1] Hwidth. unfold Js.floor.
  pose proof (Qfloor_le (r * width)) as Hle.
  assert (Hspan0 : (0 <= r * width)%Q) by nra.
  assert (H0 : (0 <= Qfloor (r * width))%Z).
  { rewrite <- (Qfloor_Z 0). apply Qfloor_resp_le. exact Hspan0. }
  rewrite Zle_Qle in H0.
  assert (Hspan : (r * width <= width)%Q) by nra.
  split; [split; [exact H0|lra]|].
  intros Hbelow Hpos. assert (Hstrict : (r * width < width)%Q) by nra. lra.
Qed.

Lemma createGenome_seed_nonneg (volatility : Q) (fixed : Genome.Fixed) (seed : Z) :
  (0 <= seed)%Z -> (0 <= snd (Genome.createGenome volatility fixed seed))%Z.
Proof.
  intros Hseed.
  assert (Hindex : forall (min : Z) (max : Q) (s : Z),
             (0 <= s)%Z -> (0 <= snd (Prng.randIndex min max s))%Z).
  { intros min max s Hs. unfold Prng.randIndex, Prng.randInt. rewrite !bind_eq.
    pose proof (nextSeed_range s Hs) as [Hnext _].
    unfold Prng.rand. cbn [snd Prng.ret]. exact Hnext. }
  assert (Hcontrol : forall s : Z,
             (0 <= s)%Z -> (0 <= snd (Genome.randControlByte volatility fixed s))%Z).
  { intros s Hs. apply randControlByte_range. exact Hs. }
  assert (Hgene : forall s : Z,
             (0 <= s)%Z -> (0 <= snd (Genome.randGene volatility fixed s))%Z).
  { intros s Hs. unfold Genome.randGene. rewrite bind_eq.
    pose proof (Hindex 1%Z (Genome.maxGeneSize (Genome.dynamic volatility fixed)) s Hs)
      as Hs1.
    destruct (Prng.randIndex 1 _ s) as [n s1]. cbn [snd] in Hs1. rewrite bind_eq.
    destruct (mapM_Forall (fun _ => True) (fun _ : Z => Prng.randIndex 0 256)
                (Arrays.range n)) with (seed := s1) as (_ & _ & Hs2);
      [intros _ s' Hs'; split; [exact I|apply Hindex; exact Hs']|exact Hs1|].
    destruct (Prng.mapM _ (Arrays.range n) s1) as [body s2]. cbn [snd] in Hs2.
    rewrite bind_eq. pose proof (Hcontrol s2 Hs2) as Hs3.
    destruct (Genome.randControlByte volatility fixed s2) as [control s3].
    exact Hs3. }
  unfold Genome.createGenome. rewrite bind_eq.
  pose proof (Hindex 1%Z (Genome.maxGeneCount (Genome.dynamic volatility fixed)) seed Hseed)
    as Hs1.
  destruct (Prng.randIndex 1 _ seed) as [n s1]. cbn [snd] in Hs1. rewrite bind_eq.
  destruct (mapM_Forall (fun _ => True) (fun _ : Z => Genome.randGene volatility fixed)
              (Arrays.range n)) with (seed := s1) as (_ & _ & Hs2);
    [intros _ s' Hs'; split; [exact I|apply Hgene; exact Hs']|exact Hs1|].
  destruct (Prng.mapM _ (Arrays.range n) s1) as [genes s2]. exact Hs2.
Qed.

Section RandomBody.
Variable PI : Q.
Variable sqrt : Q -> Q.
Variable Spike : Type.
Variable spawnSpike : Q -> Q -> Q -> Spike.
Variable spikeLength : Spike -> Q.
Variable rgbToHue : Q -> Q -> Q -> Q.
Variable settings : Bodies.Settings.
Variable volatility : Q.
Variable genomeFixed : Genome.Fixed.
Variable pow : Q -> Q -> Q.
Variable temperature : Q.
Variable vitalsFixed : Vitals.Fixed.
Variable initialEnergyAdjustment : Q.

(** X24.  [getRandomBody] places the body inside the tank whenever it fits:
    when twice its radius is no more than the width (the height) of the
    tank, its [x] ([y]) is a radius or more from both walls.  Its angle
    lies from 0 to 1, its speed from 0 to [maxEnergy / mass] (when that is
    not negative), its fill is "#" with six characters after it when the
    draw for the color is below 1, and its vitals are one new object in
    the store, those of [initVitals] for its mass and its spikes. *)
Theorem getRandomBody_in_tank (store : Bodies.Store) (seed : Z) :
  (0 <= seed)%Z ->
  let result :=
    Bodies.getRandomBody PI sqrt Spike spawnSpike spikeLength rgbToHue settings volatility
      genomeFixed pow temperature vitalsFixed initialEnergyAdjustment store seed in
  let body := fst (fst result) in
  let colorSeed := snd (Genome.createGenome volatility genomeFixed seed) in
  ((2 * Bodies.radius body <= Bodies.width settings)%Q ->
   (Bodies.radius body <= Bodies.x body)%Q /\
   (Bodies.x body <= Bodies.width settings - Bodies.radius body)%Q) /\
  ((2 * Bodies.radius body <= Bodies.height settings)%Q ->
   (Bodies.radius body <= Bodies.y body)%Q /\
   (Bodies.y body <= Bodies.height settings - Bodies.radius body)%Q) /\
  (0 <= Bodies.v_angle (Bodies.velocity body) <= 1)%Q /\
  ((0 <= Bodies.maxEnergy settings initialEnergyAdjustment / Bodies.mass body)%Q ->
   (0 <= Bodies.v_speed (Bodies.velocity body)
      <= Bodies.maxEnergy settings initialEnergyAdjustment / Bodies.mass body)%Q) /\
  ((fst (Prng.rand colorSeed) < 1)%Q -> String.length (Bodies.fill body) = 7%nat) /\
  snd (fst result)
    = store ++ [Vitals.initVitals pow Spike spikeLength temperature vitalsFixed
                  (Bodies.mass body) (Bodies.spikes body)] /\
  (0 <= snd result)%Z.
Proof.
  intros Hseed. cbv zeta. unfold Bodies.getRandomBody. rewrite bind_eq.
  pose proof (createGenome_seed_nonneg volatility genomeFixed seed Hseed) as Hs1.
  destruct (Genome.createGenome volatility genomeFixed seed) as [genome seed1].
  cbn [snd] in Hs1 |- *.
  unfold Bodies.initBody, Bodies.alloc.
  set (mass := (Bodies.minMass PI settings + _)%Q).
  set (radius := Js.floor (sqrt (mass / PI))).
  set (spikes := Bodies.sort _ _).
  unfold Prng.randInt. rewrite !bind_eq.
  destruct (rand_range seed1 Hs1) as [Hr1 Hs2].
  destruct (Prng.rand seed1) as [r1 seed2]. cbn [fst snd Prng.ret] in *.
  rewrite !bind_eq.
  destruct (rand_range seed2 Hs2) as [Hr2 Hs3].
  destruct (Prng.rand seed2) as [r2 seed3]. cbn [fst snd Prng.ret] in *.
  rewrite !bind_eq.
  destruct (rand_range seed3 Hs3) as [Hr3 Hs4].
  destruct (Prng.rand seed3) as [r3 seed4]. cbn [fst snd Prng.ret] in *.
  rewrite !bind_eq.
  destruct (rand_range seed4 Hs4) as [Hr4 Hs5].
  destruct (Prng.rand seed4) as [r4 seed5]. cbn [fst snd Prng.ret] in *.
  rewrite !bind_eq.
  destruct (rand_range seed5 Hs5) as [Hr5 Hs6].
  destruct (Prng.rand seed5) as [r5 seed6].
  cbn [fst snd Prng.ret Bodies.radius Bodies.x Bodies.y Bodies.mass Bodies.velocity
       Bodies.v_angle Bodies.v_speed Bodies.fill] in *.
  split; [|split; [|split; [exact Hr4|split; [|split; [|split; [reflexivity|exact Hs6]]]]]].
  - intros Hfits.
    destruct (floor_span r2 (Bodies.width settings - radius - radius) Hr2 ltac:(lra))
      as [[H0 H1] _]. lra.
  - intros Hfits.
    destruct (floor_span r3 (Bodies.height settings - radius - radius) Hr3 ltac:(lra))
      as [[H0 H1] _]. lra.
  - intros Hpositive.
    destruct (floor_span r5 (Bodies.maxEnergy settings initialEnergyAdjustment / mass - 0)
                Hr5 ltac:(lra)) as [[H0 H1] _]. lra.
  - intros Hbelow. cbn [String.length]. f_equal.
    apply padStart_length. apply (toStringFrom_length 6); [lia|].
    destruct (floor_span r1 (Bodies.COLOR_RANGE - 0) Hr1 ltac:(vm_compute; discriminate))
      as [[H0 _] Hlt].
    specialize (Hlt Hbelow ltac:(reflexivity)).
    unfold Js.floor in *.
    set (n := Qfloor (r1 * (Bodies.COLOR_RANGE - 0))) in *.
    assert (Hfloor : Qfloor (0 + inject_Z n) = n).
    { rewrite <- (Qfloor_Z n) at 2. apply Qfloor_comp. ring. }
    rewrite Hfloor. split.
    + rewrite Zle_Qle. exact H0.
    + rewrite Zlt_Qlt. eapply Qlt_le_trans; [exact Hlt|]. vm_compute. discriminate.
Qed.

End RandomBody.

Lemma getRandomBody_in_tank_witness :
  let body := fst (fst (Bodies.getRandomBody (355 # 113) sqrtFloor (Q * Q * Q) spikeStub
                          (fun spike => snd spike) (fun _ _ _ => 0%Q) bodySettings 100
                          genomeSettings powWhole 30 vitalsSettings (1 # 10)
                          parentStore 12345%Z)) in
  (Bodies.radius body <= Bodies.x body)%Q /\
  (Bodies.x body <= Bodies.width bodySettings - Bodies.radius body)%Q.
Proof.
  cbv zeta.
  refine (proj1 (getRandomBody_in_tank (355 # 113) sqrtFloor (Q * Q * Q) spikeStub
                   (fun spike => snd spike) (fun _ _ _ => 0%Q) bodySettings 100
                   genomeSettings powWhole 30 vitalsSettings (1 # 10)
                   parentStore 12345%Z _) _).
  - lia.
  - vm_compute. discriminate.
Defined.

(** ** Spikes *)

Lemma BASE_DRAIN_pos (temperature : R) :
  (0 < temperature)%R -> (0 < Spikes.BASE_DRAIN temperature)%R.
Proof.
  intros H. unfold Spikes.BASE_DRAIN. rewrite Rmax_right by lra. lra.
Qed.

Lemma BASE_DRAIN_clamped (temperature : R) :
  (temperature <= 0)%R -> Spikes.BASE_DRAIN temperature = 0%R.
Proof.
  intros H. unfold Spikes.BASE_DRAIN. rewrite Rmax_left by lra. lra.
Qed.

Lemma Rpower_pos (x y : R) : (0 < Rpower x y)%R.
Proof. unfold Rpower. apply exp_pos. Qed.

(** C6, as the code has it.  The variant of [spawnSpike] with
    [BASE_DRAIN] sets the drain to [BASE_DRAIN / length ** 1.2] with
    [BASE_DRAIN = 25000 * max(0, temperature) / 30], whatever the radius
    and the angle; at a positive temperature a shorter positive length
    has the strictly larger drain, and at a temperature of 0 or less every
    drain is 0.  The [spawnSpike] of src/app/meebas/spikes.js sets the
    drain to 320 for every length. *)
Theorem spawnSpike_drain :
  (forall temperature radius angle length : R,
      (0 < length)%R ->
      Spikes.drain (Spikes.spawnSpike temperature radius angle length)
      = (25000 * Rmax 0 temperature / 30 / Rpower length (12 / 10))%R) /\
  (forall temperature radius angle radius' angle' short long : R,
      (0 < temperature)%R -> (0 < short < long)%R ->
      (Spikes.drain (Spikes.spawnSpike temperature radius' angle' long)
         < Spikes.drain (Spikes.spawnSpike temperature radius angle short))%R) /\
  (forall temperature radius angle length : R,
      (temperature <= 0)%R -> (0 < length)%R ->
      Spikes.drain (Spikes.spawnSpike temperature radius angle length) = 0%R) /\
  (forall radius angle length : R,
      Spikes.drain (Spikes.V0.spawnSpike radius angle length) = 320%R).
Proof.
  split; [reflexivity|]. split; [|split; [|reflexivity]].
  - intros temperature radius angle radius' angle' short long Htemp [Hshort Hlong].
    unfold Spikes.spawnSpike, Spikes.spikeWith, Spikes.DRAIN_LENGTH_QUOTIENT.
    cbn [Spikes.drain].
    pose proof (BASE_DRAIN_pos temperature Htemp) as Hbase.
    unfold Rdiv at 1 3.
    apply Rmult_lt_compat_l; [exact Hbase|].
    apply Rinv_lt_contravar.
    + apply Rmult_lt_0_compat; apply Rpower_pos.
    + apply Rlt_Rpower_l; lra.
  - intros temperature radius angle length Htemp _.
    unfold Spikes.spawnSpike, Spikes.spikeWith. cbn [Spikes.drain].
    rewrite (BASE_DRAIN_clamped temperature Htemp). unfold Rdiv. apply Rmult_0_l.
Qed.

Lemma spawnSpike_drain_witness :
  (Spikes.drain (Spikes.spawnSpike 30 10 0 2)
     < Spikes.drain (Spikes.spawnSpike 30 10 0 1))%R.
Proof.
  refine (proj1 (proj2 spawnSpike_drain) 30 10 0 10 0 1 2 _ _)%R; lra.
Defined.

(** C6 fails for the [spawnSpike] of src/app/meebas/spikes.js: a spike of
    length 1 drains no more than a spike of length 2. *)
Lemma spawnSpike_constant_drain :
  ~ (Spikes.drain (Spikes.V0.spawnSpike 10 0 2)
       < Spikes.drain (Spikes.V0.spawnSpike 10 0 1))%R.
Proof.
  cbn [Spikes.drain Spikes.V0.spawnSpike Spikes.spikeWith]. lra.
Qed.

(** ** Where a spike is *)

Section SpikePlace.
Local Open Scope R_scope.

Lemma offset_bound (c distance : R) :
  -1 <= c <= 1 -> 0 <= distance -> Rabs (IZR (Zfloor (c * distance))) <= distance + 1.
Proof.
  intros [Hc1 Hc2] Hd. pose proof (Zfloor_bound (c * distance)) as [Hlo Hhi].
  apply Rabs_le. split; nra.
Qed.

Lemma spikeWith_near (drain radius angle length x y : R) :
  3 <= radius -> 0 <= length ->
  spikeNear x y radius length
    (Spikes.getSpikeMover x y (Spikes.spikeWith drain radius angle length)).
Proof.
  intros Hradius Hlength.
  assert (Hcos : forall t : R, -1 <= MathLut.cos t <= 1).
  { intros t. unfold MathLut.cos, MathLut.getTrigFn, MathLut.COS. apply COS_bound. }
  assert (Hsin : forall t : R, -1 <= - MathLut.sin t <= 1).
  { intros t. unfold MathLut.sin, MathLut.getTrigFn, MathLut.SIN.
    pose proof (SIN_bound (MathLut.PI_2
                           * IZR (Zfloor (MathLut.roundAngle t * IZR MathLut.LUT_RES))
                           / IZR MathLut.LUT_RES)). lra. }
  unfold spikeNear, Spikes.getSpikeMover, Spikes.spikeWith.
  cbn [Spikes.x1 Spikes.y1 Spikes.x2 Spikes.y2 Spikes.x3 Spikes.y3 Spikes.offset
       Spikes.ox1 Spikes.oy1 Spikes.ox2 Spikes.oy2 Spikes.ox3 Spikes.oy3].
  unfold Spikes.getXOffset, Spikes.getYOffset.
  set (offsetAngle := MathLut.asin (Spikes.HALF_WIDTH / radius)).
  assert (Hshift : forall o : R, x + o - x = o /\ y + o - y = o) by (intros o; lra).
  repeat split.
  - rewrite (proj1 (Hshift _)).
    apply offset_bound; [apply Hcos|lra].
  - rewrite (proj2 (Hshift _)). apply offset_bound; [apply Hsin|lra].
  - rewrite (proj1 (Hshift _)).
    eapply Rle_trans; [apply offset_bound; [apply Hcos|lra]|lra].
  - rewrite (proj2 (Hshift _)).
    eapply Rle_trans; [apply offset_bound; [apply Hsin|lra]|lra].
  - rewrite (proj1 (Hshift _)).
    eapply Rle_trans; [apply offset_bound; [apply Hcos|lra]|lra].
  - rewrite (proj2 (Hshift _)).
    eapply Rle_trans; [apply offset_bound; [apply Hsin|lra]|lra].
Qed.

Lemma asin_le (x y : R) : -1 <= x -> x <= y -> y <= 1 -> Ratan.asin x <= Ratan.asin y.
Proof.
  intros Hx Hxy Hy.
  pose proof (asin_bound x) as [Hx1 Hx2]. pose proof (asin_bound y) as [Hy1 Hy2].
  apply sin_incr_0; try assumption.
  rewrite !sin_asin by lra. exact Hxy.
Qed.

Lemma asin_lookup_range (ratio : R) :
  -1 <= ratio <= 1 -> - (1 / 4) <= MathLut.asin ratio <= 1 / 4.
Proof.
  intros [Hlo Hhi].
  unfold MathLut.asin, MathLut.getInverseTrigFn, MathLut.ASIN,
    MathLut.HALF_LUT_RES, MathLut.PI_2.
  pose proof (asin_bound ((IZR (Zfloor (ratio * 512 + 512)) - 512) / 512)) as [Ha1 Ha2].
  pose proof PI_RGT_0 as Hpi.
  assert (Hdiv : forall a b : R, a <= b -> a / (2 * PI) <= b / (2 * PI)).
  { intros a b Hab. unfold Rdiv. apply Rmult_le_compat_r; [|exact Hab].
    apply Rlt_le, Rinv_0_lt_compat. lra. }
  split.
  - replace (- (1 / 4)) with (- (PI / 2) / (2 * PI)) by (field; lra).
    apply Hdiv. exact Ha1.
  - replace (1 / 4) with (PI / 2 / (2 * PI)) by (field; lra).
    apply Hdiv. exact Ha2.
Qed.

(** X26.  A spike stays by its body: for a radius of 3 or more (the
    arcsine of [HALF_WIDTH / radius] is then in its table), a length that
    is not negative and an angle that is not negative and at least 2^-40
    away from the offset angle of the base (the three angles looked up are
    then read inside the tables, whatever the rounding of their
    difference), the spike that [spawnSpike] makes (either variant) and
    [getSpikeMover(x, y)] moves has its tip within [length + radius + 1] of
    [(x, y)] on each axis and the two points of its base within [radius].
    Moving a spike again forgets the place before: the points are always
    the place of the body plus the offsets. *)
Theorem spike_stays_by_body (temperature radius angle length x y : R) :
  3 <= radius -> 0 <= length -> 0 <= angle ->
  / 2 ^ 40 <= Rabs (angle - MathLut.asin (Spikes.HALF_WIDTH / radius)) ->
  (inTrigTable angle /\
   inTrigTable (angle - MathLut.asin (Spikes.HALF_WIDTH / radius)) /\
   inTrigTable (angle + MathLut.asin (Spikes.HALF_WIDTH / radius))) /\
  spikeNear x y radius length
    (Spikes.getSpikeMover x y (Spikes.V0.spawnSpike radius angle length)) /\
  spikeNear x y radius length
    (Spikes.getSpikeMover x y (Spikes.spawnSpike temperature radius angle length)) /\
  (forall (spike : Spikes.Spike) (x' y' : R),
      Spikes.getSpikeMover x y (Spikes.getSpikeMover x' y' spike)
      = Spikes.getSpikeMover x y spike).
Proof.
  intros Hradius Hlength Hangle Haway. split; [|split; [|split]].
  - set (offsetAngle := MathLut.asin (Spikes.HALF_WIDTH / radius)) in *.
    assert (Hoffset : 0 <= offsetAngle).
    { unfold offsetAngle, MathLut.asin, MathLut.getInverseTrigFn, MathLut.ASIN,
        MathLut.HALF_LUT_RES, MathLut.PI_2, Spikes.HALF_WIDTH, Spikes.SPIKE_WIDTH.
      assert (Hinv : 0 < / radius <= / 3).
      { split; [apply Rinv_0_lt_compat; lra|apply Rinv_le_contravar; lra]. }
      assert (Hratio : 0 < 6 / 2 / radius <= 1).
      { replace (6 / 2 / radius) with (3 * / radius) by (field; lra). lra. }
      pose proof (Zfloor_bound (6 / 2 / radius * 512 + 512)) as [Hf1 Hf2].
      set (i := Zfloor (6 / 2 / radius * 512 + 512)) in *.
      assert (Hi0 : (512 <= i)%Z).
      { apply Zfloor_lub. cbn. lra. }
      apply IZR_le in Hi0.
      assert (Hq : 0 <= (IZR i - 512) / 512 <= 1) by (split; lra).
      pose proof PI_RGT_0 as Hpi.
      assert (Hasin : 0 <= Ratan.asin ((IZR i - 512) / 512))
        by (rewrite <- asin_0; apply asin_le; lra).
      unfold Rdiv at 1. apply Rmult_le_pos; [exact Hasin|].
      apply Rlt_le, Rinv_0_lt_compat. lra. }
    assert (Hsmall : / 2 ^ 53 <= / 2 ^ 40).
    { apply Rinv_le_contravar; [lra|]. lra. }
    unfold inTrigTable. split; [left; exact Hangle|]. split; [|left; lra].
    destruct (Rle_dec 0 (angle - offsetAngle)) as [Hpos|Hneg]; [left; exact Hpos|].
    right. rewrite Rabs_left in Haway by lra. lra.
  - apply spikeWith_near; assumption.
  - apply spikeWith_near; assumption.
  - intros spike x' y'. reflexivity.
Qed.

Lemma spike_stays_by_body_witness :
  spikeNear 100 50 10 7 (Spikes.getSpikeMover 100 50 (Spikes.V0.spawnSpike 10 (1 / 2) 7)).
Proof.
  refine (proj1 (proj2 (spike_stays_by_body 30 10 (1 / 2) 7 100 50 _ _ _ _))); try lra.
  pose proof (asin_lookup_range (Spikes.HALF_WIDTH / 10)) as Hrange.
  unfold Spikes.HALF_WIDTH, Spikes.SPIKE_WIDTH in *.
  specialize (Hrange ltac:(lra)).
  rewrite Rabs_right by lra.
  assert (Hsmall : / 2 ^ 40 <= 1 / 4).
  { replace (1 / 4) with (/ 4) by lra. apply Rinv_le_contravar; lra. }
  lra.
Defined.

End SpikePlace.

(** ** Angles in turns and the lookup tables *)

Section Angles.
Local Open Scope R_scope.

Lemma roundAngle_eq (turns : R) : MathLut.roundAngle turns = turns - IZR (Zfloor turns).
Proof.
  unfold MathLut.roundAngle. pose proof (Zfloor_bound turns) as [Hlo Hhi].
  destruct (Rle_dec 1 turns) as [Hone|Hone]; [reflexivity|].
  destruct (Rlt_dec turns 0) as [Hneg|Hneg].
  - rewrite Rabs_left by exact Hneg. rewrite ZceilN, opp_IZR. lra.
  - assert (Hfloor : Zfloor turns = 0%Z) by (apply Zfloor_eq; cbn; lra).
    rewrite Hfloor. cbn. lra.
Qed.

Lemma roundAngle_range (turns : R) : 0 <= MathLut.roundAngle turns < 1.
Proof. rewrite roundAngle_eq. pose proof (Zfloor_bound turns). lra. Qed.

Lemma roundAngle_whole_turns (turns : R) (k : Z) :
  MathLut.roundAngle (turns + IZR k) = MathLut.roundAngle turns.
Proof. rewrite !roundAngle_eq, Zfloor_addz, plus_IZR. lra. Qed.

(** X20.  In exact arithmetic [roundAngle] returns the one angle from 0 up
    to, not including, 1 that differs from its argument by whole turns; so
    it does not change when whole turns are added, and it returns an angle
    already in that range as it is. *)
Theorem roundAngle_normalizes (turns : R) :
  0 <= MathLut.roundAngle turns < 1 /\
  turns = MathLut.roundAngle turns + IZR (Zfloor turns) /\
  (forall k : Z, MathLut.roundAngle (turns + IZR k) = MathLut.roundAngle turns) /\
  MathLut.roundAngle (MathLut.roundAngle turns) = MathLut.roundAngle turns.
Proof.
  split; [apply roundAngle_range|]. split; [rewrite roundAngle_eq; lra|].
  split; [apply roundAngle_whole_turns|].
  rewrite (roundAngle_eq turns) at 1.
  replace (turns - IZR (Zfloor turns)) with (turns + IZR (- Zfloor turns))
    by (rewrite opp_IZR; lra).
  apply roundAngle_whole_turns.
Qed.

Lemma sin_abs_le (x : R) : Rabs (Rtrigo_def.sin x) <= Rabs x.
Proof.
  assert (Hpos : forall y : R, 0 < y -> Rabs (Rtrigo_def.sin y) <= y).
  { intros y Hy. pose proof (sin_lt_x y Hy) as Hlt. pose proof (SIN_bound y) as [Hlo _].
    apply Rabs_le. split; [|lra].
    destruct (Rle_dec 1 y) as [Hbig|Hsmall]; [lra|].
    assert (Hsin : 0 < Rtrigo_def.sin y).
    { apply sin_gt_0; [exact Hy|]. pose proof PI2_1. lra. }
    lra. }
  destruct (Rtotal_order x 0) as [Hneg|[->|Hgt]].
  - rewrite <- (Ropp_involutive x) at 1. rewrite sin_neg, Rabs_Ropp.
    rewrite (Rabs_left x Hneg). apply Hpos. lra.
  - rewrite sin_0, Rabs_R0. lra.
  - rewrite (Rabs_right x) by lra. apply Hpos. exact Hgt.
Qed.

Lemma sin_lipschitz (a b : R) :
  Rabs (Rtrigo_def.sin a - Rtrigo_def.sin b) <= Rabs (a - b).
Proof.
  rewrite form4, !Rabs_mult.
  pose proof (COS_bound ((a + b) / 2)) as [Hc1 Hc2].
  assert (Hcos : Rabs (Rtrigo_def.cos ((a + b) / 2)) <= 1) by (apply Rabs_le; lra).
  pose proof (sin_abs_le ((a - b) / 2)) as Hsin.
  pose proof (Rabs_pos (Rtrigo_def.sin ((a - b) / 2))) as Hs0.
  pose proof (Rabs_pos (Rtrigo_def.cos ((a + b) / 2))) as Hc0.
  rewrite (Rabs_right 2) by lra.
  assert (Hhalf : Rabs ((a - b) / 2) = Rabs (a - b) / 2).
  { unfold Rdiv. rewrite Rabs_mult, (Rabs_right (/ 2)) by lra. reflexivity. }
  rewrite Hhalf in Hsin. nra.
Qed.

Lemma cos_lipschitz (a b : R) :
  Rabs (Rtrigo_def.cos a - Rtrigo_def.cos b) <= Rabs (a - b).
Proof.
  rewrite form2, !Rabs_mult.
  pose proof (SIN_bound ((a + b) / 2)) as [Hc1 Hc2].
  assert (Hcos : Rabs (Rtrigo_def.sin ((a + b) / 2)) <= 1) by (apply Rabs_le; lra).
  pose proof (sin_abs_le ((a - b) / 2)) as Hsin.
  pose proof (Rabs_pos (Rtrigo_def.sin ((a - b) / 2))) as Hs0.
  pose proof (Rabs_pos (Rtrigo_def.sin ((a + b) / 2))) as Hc0.
  rewrite (Rabs_left (-2)) by lra.
  assert (Hhalf : Rabs ((a - b) / 2) = Rabs (a - b) / 2).
  { unfold Rdiv. rewrite Rabs_mult, (Rabs_right (/ 2)) by lra. reflexivity. }
  rewrite Hhalf in Hsin. nra.
Qed.

Lemma sin_whole_turns (x : R) (k : Z) :
  Rtrigo_def.sin (x + 2 * IZR k * PI) = Rtrigo_def.sin x.
Proof.
  destruct (Z_le_gt_dec 0 k) as [Hk|Hk].
  - rewrite <- (Z2Nat.id k Hk), <- INR_IZR_INZ. apply sin_period.
  - rewrite <- (sin_period (x + 2 * IZR k * PI) (Z.to_nat (- k))).
    rewrite INR_IZR_INZ, Z2Nat.id by lia. rewrite opp_IZR. f_equal. lra.
Qed.

Lemma cos_whole_turns (x : R) (k : Z) :
  Rtrigo_def.cos (x + 2 * IZR k * PI) = Rtrigo_def.cos x.
Proof.
  destruct (Z_le_gt_dec 0 k) as [Hk|Hk].
  - rewrite <- (Z2Nat.id k Hk), <- INR_IZR_INZ. apply cos_period.
  - rewrite <- (cos_period (x + 2 * IZR k * PI) (Z.to_nat (- k))).
    rewrite INR_IZR_INZ, Z2Nat.id by lia. rewrite opp_IZR. f_equal. lra.
Qed.

(** X21.  For an angle that is not a negative one above -2^-53 (where the
    code's rounded sum leaves the table, see [MathLut.getTrigFn]) the index
    that [sin] and [cos] look up is inside their tables of 1024 entries,
    and (in exact arithmetic) the value they return is within 2 pi / 1024
    of the sine or cosine of the angle. *)
Theorem trig_lookup_error (turns : R) :
  inTrigTable turns ->
  (0 <= Zfloor (MathLut.roundAngle turns * IZR MathLut.LUT_RES) < MathLut.LUT_RES)%Z /\
  Rabs (MathLut.sin turns - Rtrigo_def.sin (2 * PI * turns)) <= 2 * PI / 1024 /\
  Rabs (MathLut.cos turns - Rtrigo_def.cos (2 * PI * turns)) <= 2 * PI / 1024.
Proof.
  intros _.
  pose proof (roundAngle_range turns) as [Hr0 Hr1].
  pose proof (roundAngle_eq turns) as Heq.
  set (f := MathLut.roundAngle turns) in *.
  unfold MathLut.LUT_RES.
  pose proof (Zfloor_bound (f * 1024)) as [Hlo Hhi].
  set (i := Zfloor (f * 1024)) in *.
  assert (Hi0 : (0 <= i)%Z) by (apply Zfloor_lub; cbn; lra).
  assert (Hi1 : (i < 1024)%Z).
  { apply lt_IZR. lra. }
  split; [lia|].
  assert (Hturn : 2 * PI * turns = 2 * PI * f + 2 * IZR (Zfloor turns) * PI)
    by (rewrite Heq; ring).
  assert (Hgap : Rabs (MathLut.PI_2 * IZR i / 1024 - 2 * PI * f) <= 2 * PI / 1024).
  { unfold MathLut.PI_2. pose proof PI_RGT_0.
    replace (2 * PI * IZR i / 1024 - 2 * PI * f)
      with (- (2 * PI / 1024 * (f * 1024 - IZR i))) by field.
    rewrite Rabs_Ropp, Rabs_right by nra. nra. }
  split.
  - unfold MathLut.sin, MathLut.getTrigFn, MathLut.SIN. fold f.
    unfold MathLut.LUT_RES. fold i.
    rewrite Hturn, sin_whole_turns.
    eapply Rle_trans; [apply sin_lipschitz|exact Hgap].
  - unfold MathLut.cos, MathLut.getTrigFn, MathLut.COS. fold f.
    unfold MathLut.LUT_RES. fold i.
    rewrite Hturn, cos_whole_turns.
    eapply Rle_trans; [apply cos_lipschitz|exact Hgap].
Qed.

Lemma trig_lookup_error_witness :
  Rabs (MathLut.sin (1 / 8) - Rtrigo_def.sin (2 * PI * (1 / 8))) <= 2 * PI / 1024.
Proof.
  refine (proj1 (proj2 (trig_lookup_error (1 / 8) _))). left. lra.
Defined.



(** X23.  In exact arithmetic [getGap] is the distance between two angles
    around the circle: it lies from 0 to half a turn, it does not depend on
    the order of the two angles nor on whole turns added to one of them,
    and it is 0 for an angle and itself. *)
Theorem getGap_around_circle (angle1 angle2 : R) :
  0 <= MathLut.getGap angle1 angle2 <= 1 / 2 /\
  MathLut.getGap angle1 angle2 = MathLut.getGap angle2 angle1 /\
  (forall k : Z, MathLut.getGap (angle1 + IZR k) angle2 = MathLut.getGap angle1 angle2) /\
  MathLut.getGap angle1 angle1 = 0.
Proof.
  pose proof (roundAngle_range angle1) as H1.
  pose proof (roundAngle_range angle2) as H2.
  split; [|split; [|split]].
  - unfold MathLut.getGap. cbv zeta.
    pose proof (Rabs_pos (MathLut.roundAngle angle1 - MathLut.roundAngle angle2)) as Hpos.
    assert (Hlt : Rabs (MathLut.roundAngle angle1 - MathLut.roundAngle angle2) < 1).
    { apply Rabs_def1; lra. }
    destruct (Rle_dec _ (5 / 10)); lra.
  - unfold MathLut.getGap. cbv zeta.
    rewrite (Rabs_minus_sym (MathLut.roundAngle angle2)). reflexivity.
  - intros k. unfold MathLut.getGap.
    rewrite roundAngle_whole_turns. reflexivity.
  - unfold MathLut.getGap. cbv zeta.
    replace (MathLut.roundAngle angle1 - MathLut.roundAngle angle1) with 0 by lra.
    rewrite Rabs_R0. destruct (Rle_dec 0 (5 / 10)); lra.
Qed.

(** [isShorter] tells, without a square root, whether the two ends of a
    line are less than a distance apart, for a distance that is not
    negative; a negative distance counts as its absolute value. *)
Lemma isShorter_compares_length (line : MathLut.Line) (distance : R) :
  (0 <= distance ->
   (MathLut.isShorter line distance = true <->
    sqrt ((MathLut.lx1 line - MathLut.lx2 line) ^ 2
          + (MathLut.ly1 line - MathLut.ly2 line) ^ 2) < distance)) /\
  MathLut.isShorter line (- distance) = MathLut.isShorter line distance.
Proof.
  unfold MathLut.isShorter, MathLut.sqr.
  set (dx := MathLut.lx1 line - MathLut.lx2 line).
  set (dy := MathLut.ly1 line - MathLut.ly2 line).
  split.
  - intros Hd. replace (dx ^ 2 + dy ^ 2) with (dx * dx + dy * dy) by ring.
    assert (Hs : 0 <= dx * dx + dy * dy) by nra.
    assert (Hd2 : sqrt (distance * distance) = distance)
      by (apply sqrt_square; exact Hd).
    destruct (Rlt_dec (dx * dx + dy * dy) (distance * distance)) as [Hlt|Hge].
    + split; [intros _|reflexivity]. rewrite <- Hd2. apply sqrt_lt_1_alt. lra.
    + split; [discriminate|]. intros Hlt. exfalso. apply Hge.
      apply sqrt_lt_0_alt. rewrite Hd2. exact Hlt.
  - replace (- distance * - distance) with (distance * distance) by ring. reflexivity.
Qed.

End Angles.

(** ** Collisions of the early helpers *)

Section HeadOn.
Local Open Scope R_scope.

Lemma breakVector_east : Helpers.breakVector 0 10 = Helpers.mkVec 10 0.
Proof.
  unfold Helpers.breakVector, Helpers.getRadians.
  replace (0 * PI * 2) with 0 by ring. rewrite cos_0, sin_0. f_equal; ring.
Qed.

Lemma breakVector_west : Helpers.breakVector (1 / 2) 10 = Helpers.mkVec (-10) 0.
Proof.
  unfold Helpers.breakVector, Helpers.getRadians.
  replace (1 / 2 * PI * 2) with PI by field. rewrite cos_PI, sin_PI. f_equal; ring.
Qed.

Lemma collideVectors_head_on :
  Helpers.collideVectors eastbound westbound
    = (Helpers.mkVec (-10) 0, Helpers.mkVec 10 0).
Proof.
  unfold Helpers.collideVectors, eastbound, westbound.
  cbn [Helpers.x Helpers.y Helpers.angle Helpers.speed Helpers.size].
  rewrite breakVector_east, breakVector_west.
  cbn [Helpers.vx Helpers.vy].
  replace ((65 - 35) * (65 - 35) + (50 - 50) * (50 - 50)) with (30 * 30) by ring.
  rewrite sqrt_square by lra.
  f_equal; f_equal; field.
Qed.

Lemma mergeVector_west_is_east : Helpers.mergeVector (-10) 0 = Helpers.mkPolar 0 10.
Proof.
  unfold Helpers.mergeVector.
  replace (- 0 / -10) with 0 by field. rewrite atan_0.
  replace (0 / (2 * PI)) with 0 by (field; apply PI_neq0).
  replace (-10 * -10 + 0 * 0) with (10 * 10) by ring.
  rewrite sqrt_square by lra.
  destruct (Rlt_dec 0 0) as [H|_]; [lra|].
  destruct (Rlt_dec (-10) 0) as [_|H]; [|lra].
  destruct (Rgt_dec 0 0) as [H|_]; [lra|].
  reflexivity.
Qed.

Lemma mergeVector_east : Helpers.mergeVector 10 0 = Helpers.mkPolar 0 10.
Proof.
  unfold Helpers.mergeVector.
  replace (- 0 / 10) with 0 by field. rewrite atan_0.
  replace (0 / (2 * PI)) with 0 by (field; apply PI_neq0).
  replace (10 * 10 + 0 * 0) with (10 * 10) by ring.
  rewrite sqrt_square by lra.
  destruct (Rlt_dec 0 0) as [H|_]; [lra|].
  destruct (Rlt_dec 10 0) as [H|_]; [lra|].
  reflexivity.
Qed.

(** C7, where the code departs from it.  The normal components are
    exchanged as stated: the eastbound body leaves with the velocity
    (-10, 0) and the westbound one with (10, 0).  But [mergeVector] turns
    (-10, 0) into the angle 0: its corrections for [x < 0] ask for [y < 0]
    or [y > 0], and [y] is 0.  Both bodies end with angle 0 and speed 10;
    the eastbound body has not taken the angle 0.5 of the other. *)
Theorem collide_head_on_both_east :
  let after := Helpers.collide eastbound westbound in
  Helpers.collideVectors eastbound westbound
    = (Helpers.mkVec (-10) 0, Helpers.mkVec 10 0) /\
  Helpers.angle (fst after) = 0 /\
  Helpers.speed (fst after) = 10 /\
  Helpers.angle (snd after) = 0 /\
  Helpers.speed (snd after) = 10 /\
  Helpers.angle (fst after) <> Helpers.angle westbound.
Proof.
  cbv zeta. unfold Helpers.collide.
  rewrite collideVectors_head_on. cbn [Helpers.vx Helpers.vy].
  rewrite mergeVector_west_is_east, mergeVector_east.
  cbn [Helpers.angle Helpers.speed Helpers.p_angle Helpers.p_speed fst snd westbound].
  repeat split; try reflexivity. lra.
Qed.

End HeadOn.


(** ** The velocities after a collision, as vectors *)

Section CollideVectors.
Local Open Scope R_scope.

Lemma unitNormal_unit (body1 body2 : Helpers.Body) :
  (Helpers.x body2 <> Helpers.x body1 \/ Helpers.y body2 <> Helpers.y body1) ->
  dot (unitNormal body1 body2) (unitNormal body1 body2) = 1.
Proof.
  intros Hapart. unfold dot, unitNormal. cbn [Helpers.vx Helpers.vy].
  set (nx := Helpers.x body2 - Helpers.x body1).
  set (ny := Helpers.y body2 - Helpers.y body1).
  assert (Hpos : 0 < nx * nx + ny * ny).
  { destruct Hapart as [H|H].
    - assert (nx <> 0) by (unfold nx; lra). nra.
    - assert (ny <> 0) by (unfold ny; lra). nra. }
  pose proof (sqrt_lt_R0 _ Hpos) as Hmn.
  pose proof (sqrt_sqrt (nx * nx + ny * ny) (Rlt_le _ _ Hpos)) as Hsq.
  set (mn := sqrt (nx * nx + ny * ny)) in *.
  replace (nx / mn * (nx / mn) + ny / mn * (ny / mn))
    with ((nx * nx + ny * ny) / (mn * mn)) by (field; lra).
  rewrite Hsq. field. lra.
Qed.

(** X4.  For two bodies at different places, [collide] gives each body the
    normal velocity of the two-body elastic formula and leaves its
    tangential velocity as it was. *)
Theorem collideVectors_normal_tangent (body1 body2 : Helpers.Body) :
  (Helpers.x body2 <> Helpers.x body1 \/ Helpers.y body2 <> Helpers.y body1) ->
  let un := unitNormal body1 body2 in
  let ut := unitTangent body1 body2 in
  let m1 := Helpers.size body1 in
  let m2 := Helpers.size body2 in
  let vn1 := dot un (velocity body1) in
  let vn2 := dot un (velocity body2) in
  let after := Helpers.collideVectors body1 body2 in
  dot un (fst after) = (vn1 * (m1 - m2) + 2 * m2 * vn2) / (m1 + m2) /\
  dot un (snd after) = (vn2 * (m2 - m1) + 2 * m1 * vn1) / (m1 + m2) /\
  dot ut (fst after) = dot ut (velocity body1) /\
  dot ut (snd after) = dot ut (velocity body2).
Proof.
  intros Hapart. cbv zeta.
  pose proof (unitNormal_unit body1 body2 Hapart) as Hunit.
  unfold Helpers.collideVectors, unitTangent, dot, velocity, unitNormal in *.
  cbn [Helpers.vx Helpers.vy fst snd] in *.
  set (a := (Helpers.x body2 - Helpers.x body1) / sqrt _) in *.
  set (b := (Helpers.y body2 - Helpers.y body1) / sqrt _) in *.
  set (v1 := Helpers.breakVector (Helpers.angle body1) (Helpers.speed body1)).
  set (v2 := Helpers.breakVector (Helpers.angle body2) (Helpers.speed body2)).
  set (f1 := (_ * (Helpers.size body1 - Helpers.size body2) + _) / _).
  set (f2 := (_ * (Helpers.size body2 - Helpers.size body1) + _) / _).
  set (t1 := - b * Helpers.vx v1 + a * Helpers.vy v1).
  set (t2 := - b * Helpers.vx v2 + a * Helpers.vy v2).
  split; [|split; [|split]].
  - transitivity (f1 * (a * a + b * b)); [ring|]. rewrite Hunit. ring.
  - transitivity (f2 * (a * a + b * b)); [ring|]. rewrite Hunit. ring.
  - transitivity (t1 * (a * a + b * b)); [ring|]. rewrite Hunit. ring.
  - transitivity (t2 * (a * a + b * b)); [ring|]. rewrite Hunit. ring.
Qed.

Lemma collideVectors_normal_tangent_witness :
  dot (unitTangent eastbound westbound)
      (fst (Helpers.collideVectors eastbound westbound))
  = dot (unitTangent eastbound westbound) (velocity eastbound).
Proof.
  refine (proj1 (proj2 (proj2 (collideVectors_normal_tangent eastbound westbound _)))).
  left. cbn. lra.
Defined.

(** X5.  For two bodies of equal mass at different places whose
    velocities lie along the line of their centers (a head-on approach),
    the velocities after the collision, as vectors, are exchanged. *)
Theorem collideVectors_head_on_exchange (body1 body2 : Helpers.Body) :
  (Helpers.x body2 <> Helpers.x body1 \/ Helpers.y body2 <> Helpers.y body1) ->
  Helpers.size body1 = Helpers.size body2 ->
  Helpers.size body1 <> 0 ->
  dot (unitTangent body1 body2) (velocity body1) = 0 ->
  dot (unitTangent body1 body2) (velocity body2) = 0 ->
  Helpers.collideVectors body1 body2 = (velocity body2, velocity body1).
Proof.
  intros Hapart Hmass Hm Ht1 Ht2.
  pose proof (unitNormal_unit body1 body2 Hapart) as Hunit.
  unfold Helpers.collideVectors, unitTangent, dot, velocity, unitNormal in *.
  cbn [Helpers.vx Helpers.vy fst snd] in *.
  set (a := (Helpers.x body2 - Helpers.x body1) / sqrt _) in *.
  set (b := (Helpers.y body2 - Helpers.y body1) / sqrt _) in *.
  destruct (Helpers.breakVector (Helpers.angle body1) (Helpers.speed body1))
    as [x1 y1].
  destruct (Helpers.breakVector (Helpers.angle body2) (Helpers.speed body2))
    as [x2 y2].
  cbn [Helpers.vx Helpers.vy] in *.
  rewrite <- Hmass, Ht1, Ht2.
  set (m := Helpers.size body1) in *.
  assert (Hf1 : ((a * x1 + b * y1) * (m - m) + 2 * m * (a * x2 + b * y2)) / (m + m)
                = a * x2 + b * y2) by (field; lra).
  assert (Hf2 : ((a * x2 + b * y2) * (m - m) + 2 * m * (a * x1 + b * y1)) / (m + m)
                = a * x1 + b * y1) by (field; lra).
  rewrite Hf1, Hf2.
  assert (Hx : forall x y : R, - b * x + a * y = 0 ->
                 (a * x + b * y) * a + 0 * - b = x /\ (a * x + b * y) * b + 0 * a = y).
  { intros x y Ht. split.
    - transitivity (x * (a * a + b * b) + b * (- b * x + a * y)); [ring|].
      rewrite Hunit, Ht. ring.
    - transitivity (y * (a * a + b * b) - a * (- b * x + a * y)); [ring|].
      rewrite Hunit, Ht. ring. }
  destruct (Hx x1 y1 Ht1) as [Hx1 Hy1]. destruct (Hx x2 y2 Ht2) as [Hx2 Hy2].
  rewrite Hx1, Hy1, Hx2, Hy2. reflexivity.
Qed.

Lemma collideVectors_head_on_exchange_witness :
  Helpers.collideVectors eastbound westbound = (velocity westbound, velocity eastbound).
Proof.
  apply collideVectors_head_on_exchange.
  - left. cbn. lra.
  - reflexivity.
  - cbn. lra.
  - unfold dot, unitTangent, unitNormal, velocity, eastbound, westbound.
    cbn [Helpers.x Helpers.y Helpers.angle Helpers.speed Helpers.vx Helpers.vy].
    rewrite breakVector_east. cbn [Helpers.vx Helpers.vy]. unfold Rdiv. ring.
  - unfold dot, unitTangent, unitNormal, velocity, eastbound, westbound.
    cbn [Helpers.x Helpers.y Helpers.angle Helpers.speed Helpers.vx Helpers.vy].
    rewrite breakVector_west. cbn [Helpers.vx Helpers.vy]. unfold Rdiv. ring.
Defined.

End CollideVectors.

(** ** What a collision conserves *)

Section Conservation.
Local Open Scope R_scope.

Lemma elastic_normal (m1 m2 vn1 vn2 : R) :
  m1 + m2 <> 0 ->
  let f1 := (vn1 * (m1 - m2) + 2 * m2 * vn2) / (m1 + m2) in
  let f2 := (vn2 * (m2 - m1) + 2 * m1 * vn1) / (m1 + m2) in
  m1 * f1 + m2 * f2 = m1 * vn1 + m2 * vn2 /\
  m1 * (f1 * f1) + m2 * (f2 * f2) = m1 * (vn1 * vn1) + m2 * (vn2 * vn2).
Proof. intros Hm. cbv zeta. split; field; exact Hm. Qed.

(** X29.  For two bodies at different places whose masses do not sum to
    0, [collide] conserves momentum and kinetic energy: the mass-weighted
    sum of the velocity vectors is the same after as before, and so is the
    mass-weighted sum of the squared speeds it writes to the bodies.  The
    places and the masses are not changed. *)
Theorem collide_conserves (body1 body2 : Helpers.Body) :
  (Helpers.x body2 <> Helpers.x body1 \/ Helpers.y body2 <> Helpers.y body1) ->
  Helpers.size body1 + Helpers.size body2 <> 0 ->
  let m1 := Helpers.size body1 in
  let m2 := Helpers.size body2 in
  let vectors := Helpers.collideVectors body1 body2 in
  let after := Helpers.collide body1 body2 in
  m1 * Helpers.vx (fst vectors) + m2 * Helpers.vx (snd vectors)
    = m1 * Helpers.vx (velocity body1) + m2 * Helpers.vx (velocity body2) /\
  m1 * Helpers.vy (fst vectors) + m2 * Helpers.vy (snd vectors)
    = m1 * Helpers.vy (velocity body1) + m2 * Helpers.vy (velocity body2) /\
  m1 * Helpers.speed (fst after) ^ 2 + m2 * Helpers.speed (snd after) ^ 2
    = m1 * Helpers.speed body1 ^ 2 + m2 * Helpers.speed body2 ^ 2 /\
  Helpers.x (fst after) = Helpers.x body1 /\ Helpers.y (fst after) = Helpers.y body1 /\
  Helpers.x (snd after) = Helpers.x body2 /\ Helpers.y (snd after) = Helpers.y body2 /\
  Helpers.size (fst after) = m1 /\ Helpers.size (snd after) = m2.
Proof.
  intros Hapart Hmass. cbv zeta.
  pose proof (unitNormal_unit body1 body2 Hapart) as Hunit.
  assert (Hspeed : forall body : Helpers.Body,
             Helpers.vx (velocity body) * Helpers.vx (velocity body)
             + Helpers.vy (velocity body) * Helpers.vy (velocity body)
             = Helpers.speed body ^ 2).
  { intros body. unfold velocity, Helpers.breakVector. cbn [Helpers.vx Helpers.vy].
    pose proof (sin2_cos2 (Helpers.getRadians (Helpers.angle body))) as H.
    unfold Rsqr in H.
    transitivity (Helpers.speed body ^ 2
                  * (Rtrigo_def.sin (Helpers.getRadians (Helpers.angle body))
                     * Rtrigo_def.sin (Helpers.getRadians (Helpers.angle body))
                     + Rtrigo_def.cos (Helpers.getRadians (Helpers.angle body))
                       * Rtrigo_def.cos (Helpers.getRadians (Helpers.angle body))));
      [ring|]. rewrite H. ring. }
  pose proof (Hspeed body1) as Hspeed1. pose proof (Hspeed body2) as Hspeed2.
  unfold Helpers.collide.
  unfold Helpers.collideVectors, dot, velocity, unitNormal in *.
  cbn [Helpers.vx Helpers.vy fst snd Helpers.x Helpers.y Helpers.size Helpers.speed
       Helpers.mergeVector Helpers.p_speed] in *.
  set (a := (Helpers.x body2 - Helpers.x body1) / sqrt _) in *.
  set (b := (Helpers.y body2 - Helpers.y body1) / sqrt _) in *.
  destruct (Helpers.breakVector (Helpers.angle body1) (Helpers.speed body1))
    as [x1 y1].
  destruct (Helpers.breakVector (Helpers.angle body2) (Helpers.speed body2))
    as [x2 y2].
  cbn [Helpers.vx Helpers.vy] in *.
  set (m1 := Helpers.size body1) in *. set (m2 := Helpers.size body2) in *.
  destruct (elastic_normal m1 m2 (a * x1 + b * y1) (a * x2 + b * y2) Hmass)
    as [Hmomentum Henergy].
  cbv zeta in Hmomentum, Henergy.
  set (f1 := ((a * x1 + b * y1) * (m1 - m2) + 2 * m2 * (a * x2 + b * y2)) / (m1 + m2)) in *.
  set (f2 := ((a * x2 + b * y2) * (m2 - m1) + 2 * m1 * (a * x1 + b * y1)) / (m1 + m2)) in *.
  set (t1 := - b * x1 + a * y1). set (t2 := - b * x2 + a * y2).
  split; [|split; [|split; [|repeat split]]].
  - transitivity (a * (m1 * f1 + m2 * f2) - b * (m1 * t1 + m2 * t2)); [ring|].
    rewrite Hmomentum.
    transitivity ((m1 * x1 + m2 * x2) * (a * a + b * b)); [unfold t1, t2; ring|].
    rewrite Hunit. ring.
  - transitivity (b * (m1 * f1 + m2 * f2) + a * (m1 * t1 + m2 * t2)); [ring|].
    rewrite Hmomentum.
    transitivity ((m1 * y1 + m2 * y2) * (a * a + b * b)); [unfold t1, t2; ring|].
    rewrite Hunit. ring.
  - unfold Helpers.mergeVector. cbn [Helpers.p_speed].
    rewrite !pow2_sqrt by nra.
    transitivity ((m1 * (f1 * f1) + m2 * (f2 * f2) + m1 * (t1 * t1) + m2 * (t2 * t2))
                  * (a * a + b * b)); [ring|].
    rewrite Henergy, Hunit, <- Hspeed1, <- Hspeed2.
    transitivity ((m1 * (x1 * x1 + y1 * y1) + m2 * (x2 * x2 + y2 * y2))
                  * (a * a + b * b)); [unfold t1, t2; ring|].
    rewrite Hunit. ring.
Qed.

Lemma collide_conserves_witness :
  let after := Helpers.collide eastbound westbound in
  314 * Helpers.speed (fst after) ^ 2 + 314 * Helpers.speed (snd after) ^ 2
    = 314 * 10 ^ 2 + 314 * 10 ^ 2.
Proof.
  cbv zeta.
  refine (proj1 (proj2 (proj2 (collide_conserves eastbound westbound _ _)))).
  - left. cbn. lra.
  - cbn. lra.
Defined.

End Conservation.

(** ** The early helpers: angles, bounces and vectors *)

Section EarlyHelpers.
Local Open Scope R_scope.

Lemma roundAngle_early_nonneg (turns : R) :
  0 <= turns -> Helpers.roundAngle turns = MathLut.roundAngle turns.
Proof.
  intros Hpos. unfold Helpers.roundAngle, MathLut.roundAngle.
  destruct (Rge_dec turns 0) as [_|Hno]; [|lra].
  destruct (Rlt_dec turns 1) as [Hlt|Hge].
  - destruct (Rle_dec 1 turns) as [Hle|_]; [lra|].
    destruct (Rlt_dec turns 0) as [Hneg|_]; [lra|reflexivity].
  - destruct (Rle_dec 1 turns) as [_|Hno]; [reflexivity|lra].
Qed.

(** X25.  The angle helpers of the early file against the later ones.
    For angles that are not negative the early [roundAngle] and the early
    [getGap] return what the later ones return.  A negative angle the early
    [roundAngle] does not normalize: [Math.ceil(turns)] is 0 or less, so
    the result is the angle or less, still negative, where the later
    [roundAngle] returns an angle that is not negative. *)
Theorem early_angle_helpers :
  (forall turns : R,
      0 <= turns ->
      Helpers.roundAngle turns = MathLut.roundAngle turns /\
      0 <= Helpers.roundAngle turns < 1) /\
  (forall turns : R,
      turns < 0 ->
      Helpers.roundAngle turns <= turns /\ Helpers.roundAngle turns < 0 /\
      0 <= MathLut.roundAngle turns) /\
  (forall angle1 angle2 : R,
      0 <= angle1 -> 0 <= angle2 ->
      Helpers.getGap angle1 angle2 = MathLut.getGap angle1 angle2).
Proof.
  split; [|split].
  - intros turns Hpos. rewrite (roundAngle_early_nonneg turns Hpos).
    split; [reflexivity|apply roundAngle_range].
  - intros turns Hneg. unfold Helpers.roundAngle.
    destruct (Rge_dec turns 0) as [Hge|_]; [lra|].
    assert (Hceil : IZR (Zceil turns) <= 0).
    { apply IZR_le. pose proof (Zceil_bound turns) as [Hlo _].
      assert (Hone : IZR (Zceil turns) < 1) by lra. apply lt_IZR in Hone. lia. }
    pose proof (roundAngle_range turns). lra.
  - intros angle1 angle2 H1 H2.
    pose proof (roundAngle_early_nonneg angle1 H1) as E1.
    pose proof (roundAngle_early_nonneg angle2 H2) as E2.
    pose proof (roundAngle_range angle1) as R1.
    pose proof (roundAngle_range angle2) as R2.
    rewrite <- E1 in R1. rewrite <- E2 in R2.
    unfold Helpers.getGap, MathLut.getGap. cbv zeta. rewrite <- E1, <- E2.
    set (diff := Helpers.roundAngle angle1 - Helpers.roundAngle angle2).
    assert (Hdiff : -1 < diff < 1) by (unfold diff; lra).
    destruct (Rgt_dec (Rabs diff) (5 / 10)) as [Hbig|Hsmall];
      destruct (Rle_dec (Rabs diff) (5 / 10)) as [Hle|Hgt]; try lra.
    destruct (Rlt_dec diff 0) as [Hneg|Hpos].
    + rewrite (Rabs_left diff Hneg) in Hbig |- *.
      rewrite (Rabs_right (diff + 1)) by lra. lra.
    + rewrite (Rabs_right diff) in Hbig |- * by lra.
      rewrite (Rabs_left (diff - 1)) by lra. lra.
Qed.

Lemma early_angle_helpers_witness :
  Helpers.roundAngle (- (3 / 10)) < 0 /\
  Helpers.getGap (9 / 10) (1 / 10) = MathLut.getGap (9 / 10) (1 / 10).
Proof.
  split.
  - refine (proj1 (proj2 (proj1 (proj2 early_angle_helpers) (- (3 / 10)) _))). lra.
  - apply (proj2 (proj2 early_angle_helpers)); lra.
Defined.

Lemma cos_half_turn_less (x : R) : Rtrigo_def.cos (PI - x) = - Rtrigo_def.cos x.
Proof.
  replace (PI - x) with (- x + PI) by ring. rewrite neg_cos, cos_neg. reflexivity.
Qed.

Lemma sin_half_turn_less (x : R) : Rtrigo_def.sin (PI - x) = Rtrigo_def.sin x.
Proof.
  replace (PI - x) with (- x + PI) by ring. rewrite neg_sin, sin_neg. ring.
Qed.

(** X27.  A bounce mirrors the velocity: for every angle and magnitude the
    vector of [bounceX(angle)] is the vector of [angle] with its x
    component negated, and the vector of [bounceY(angle)] the one with its
    y component negated.  An angle from 0 up to, not including, 1 stays in
    that range, and bouncing twice off the same wall gives it back. *)
Theorem bounce_mirrors (angle magnitude : R) :
  Helpers.breakVector (Helpers.bounceX angle) magnitude
    = Helpers.mkVec (- Helpers.vx (Helpers.breakVector angle magnitude))
                    (Helpers.vy (Helpers.breakVector angle magnitude)) /\
  Helpers.breakVector (Helpers.bounceY angle) magnitude
    = Helpers.mkVec (Helpers.vx (Helpers.breakVector angle magnitude))
                    (- Helpers.vy (Helpers.breakVector angle magnitude)) /\
  (0 <= angle < 1 ->
   0 <= Helpers.bounceX angle < 1 /\ 0 <= Helpers.bounceY angle < 1 /\
   Helpers.bounceX (Helpers.bounceX angle) = angle /\
   Helpers.bounceY (Helpers.bounceY angle) = angle).
Proof.
  split; [|split].
  - unfold Helpers.breakVector, Helpers.bounceX, Helpers.getRadians.
    cbn [Helpers.vx Helpers.vy].
    destruct (Req_dec_T angle (5 / 10)) as [->|Hne].
    + replace (0 * PI * 2) with 0 by ring. replace (5 / 10 * PI * 2) with PI by field.
      rewrite cos_0, sin_0, cos_PI, sin_PI. f_equal; ring.
    + destruct (Rlt_dec angle (5 / 10)) as [Hlt|Hge].
      * replace ((25 / 100 - (angle - 25 / 100)) * PI * 2) with (PI - angle * PI * 2)
          by field.
        rewrite cos_half_turn_less, sin_half_turn_less. f_equal; ring.
      * replace ((75 / 100 - (angle - 75 / 100)) * PI * 2)
          with (PI - angle * PI * 2 + 2 * INR 1 * PI) by (cbn [INR]; field).
        rewrite cos_period, sin_period, cos_half_turn_less, sin_half_turn_less.
        f_equal; ring.
  - unfold Helpers.breakVector, Helpers.bounceY, Helpers.getRadians.
    cbn [Helpers.vx Helpers.vy].
    assert (Hflip : forall a : R,
               Rtrigo_def.cos ((1 - a) * PI * 2) = Rtrigo_def.cos (a * PI * 2) /\
               Rtrigo_def.sin ((1 - a) * PI * 2) = - Rtrigo_def.sin (a * PI * 2)).
    { intros a. replace ((1 - a) * PI * 2) with (- (a * PI * 2) + 2 * INR 1 * PI)
        by (cbn [INR]; ring).
      rewrite cos_period, sin_period, cos_neg, sin_neg. split; reflexivity. }
    destruct (Req_dec_T angle 0) as [->|Hne].
    + replace (0 * PI * 2) with 0 by ring. rewrite cos_0, sin_0. f_equal; ring.
    + destruct (Hflip angle) as [Hc Hs].
      destruct (Rlt_dec angle (25 / 100)) as [Hlt|Hge];
        [rewrite Hc, Hs; f_equal; ring|].
      destruct (Rgt_dec angle (75 / 100)) as [Hgt|Hle];
        [rewrite Hc, Hs; f_equal; ring|].
      replace (5 / 10 - (angle - 5 / 10)) with (1 - angle) by field.
      rewrite Hc, Hs. f_equal; ring.
  - intros Hrange. unfold Helpers.bounceX, Helpers.bounceY.
    split; [|split; [|split]].
    + destruct (Req_dec_T angle (5 / 10)); [lra|].
      destruct (Rlt_dec angle (5 / 10)); lra.
    + destruct (Req_dec_T angle 0); [lra|].
      destruct (Rlt_dec angle (25 / 100)); [lra|].
      destruct (Rgt_dec angle (75 / 100)); lra.
    + destruct (Req_dec_T angle (5 / 10)) as [->|Hne].
      * destruct (Req_dec_T 0 (5 / 10)); [lra|].
        destruct (Rlt_dec 0 (5 / 10)); lra.
      * destruct (Rlt_dec angle (5 / 10)) as [Hlt|Hge].
        -- destruct (Req_dec_T (25 / 100 - (angle - 25 / 100)) (5 / 10)); [lra|].
           destruct (Rlt_dec (25 / 100 - (angle - 25 / 100)) (5 / 10)); lra.
        -- destruct (Req_dec_T (75 / 100 - (angle - 75 / 100)) (5 / 10)); [lra|].
           destruct (Rlt_dec (75 / 100 - (angle - 75 / 100)) (5 / 10)); lra.
    + destruct (Req_dec_T angle 0) as [->|Hne].
      * destruct (Req_dec_T 0 0); [reflexivity|lra].
      * assert (Hflip : forall a : R, a <> 0 ->
                   (if Rlt_dec a (25 / 100) then 1 - a
                    else if Rgt_dec a (75 / 100) then 1 - a
                         else 5 / 10 - (a - 5 / 10)) = 1 - a).
        { intros a _. destruct (Rlt_dec a (25 / 100)); [reflexivity|].
          destruct (Rgt_dec a (75 / 100)); [reflexivity|field]. }
        rewrite (Hflip angle Hne).
        destruct (Req_dec_T (1 - angle) 0); [lra|].
        rewrite (Hflip (1 - angle)) by lra. lra.
Qed.

Lemma bounce_mirrors_witness :
  Helpers.bounceX (Helpers.bounceX (1 / 10)) = 1 / 10.
Proof.
  refine (proj1 (proj2 (proj2 (proj2 (proj2 (bounce_mirrors (1 / 10) 1)) _)))). lra.
Defined.

Lemma tan_half_turn_more (x : R) :
  Rtrigo_def.cos x <> 0 -> tan (x - PI) = tan x.
Proof.
  intros Hcos. unfold tan.
  replace (x - PI) with (- (PI - x)) by ring.
  rewrite sin_neg, cos_neg, sin_half_turn_less, cos_half_turn_less. field. exact Hcos.
Qed.

Lemma breakVector_speed (angle magnitude : R) :
  0 <= magnitude ->
  sqrt (Helpers.vx (Helpers.breakVector angle magnitude)
          * Helpers.vx (Helpers.breakVector angle magnitude)
        + Helpers.vy (Helpers.breakVector angle magnitude)
          * Helpers.vy (Helpers.breakVector angle magnitude)) = magnitude.
Proof.
  intros Hm. unfold Helpers.breakVector. cbn [Helpers.vx Helpers.vy].
  set (t := Helpers.getRadians angle).
  pose proof (sin2_cos2 t) as Hunit. unfold Rsqr in Hunit.
  replace (Rtrigo_def.cos t * magnitude * (Rtrigo_def.cos t * magnitude)
           + - Rtrigo_def.sin t * magnitude * (- Rtrigo_def.sin t * magnitude))
    with (magnitude * magnitude
          * (Rtrigo_def.sin t * Rtrigo_def.sin t + Rtrigo_def.cos t * Rtrigo_def.cos t))
    by ring.
  rewrite Hunit, Rmult_1_r. apply sqrt_square. exact Hm.
Qed.

(** X28.  Breaking an angle and a positive magnitude into a vector and
    merging the vector again gives back the angle and the magnitude, for
    every angle from 0 up to, not including, 1 except the quarter turns
    1/4 and 3/4 (the vector has [x = 0] there) and the half turn 1/2 (the
    vector points west with [y = 0], which [mergeVector] misses). *)
Theorem mergeVector_breakVector (angle magnitude : R) :
  0 <= angle < 1 -> angle <> 1 / 4 -> angle <> 1 / 2 -> angle <> 3 / 4 ->
  0 < magnitude ->
  Helpers.mergeVector (Helpers.vx (Helpers.breakVector angle magnitude))
                      (Helpers.vy (Helpers.breakVector angle magnitude))
  = Helpers.mkPolar angle magnitude.
Proof.
  intros Hrange H14 H12 H34 Hm.
  pose proof (breakVector_speed angle magnitude (Rlt_le _ _ Hm)) as Hspeed.
  unfold Helpers.mergeVector. cbv zeta. rewrite Hspeed.
  unfold Helpers.breakVector, Helpers.getRadians. cbn [Helpers.vx Helpers.vy].
  set (t := angle * PI * 2).
  pose proof PI_RGT_0 as Hpi.
  assert (Hquot : Rtrigo_def.cos t <> 0 ->
                  - (- Rtrigo_def.sin t * magnitude) / (Rtrigo_def.cos t * magnitude)
                  = tan t).
  { intros Hc. unfold tan. field. split; lra. }
  assert (Hangle : forall k : R, (t - k * PI) / (2 * PI) = angle - k / 2).
  { intros k. unfold t. field. lra. }
  destruct (Rlt_dec angle (1 / 4)) as [Hq1|Hq1'].
  { (* first quarter *)
    assert (Ht : - (PI / 2) < t < PI / 2) by (unfold t; split; nra).
    assert (Hc : 0 < Rtrigo_def.cos t) by (apply cos_gt_0; lra).
    rewrite (Hquot ltac:(lra)), (atan_tan t Ht).
    replace (t / (2 * PI)) with angle by (unfold t; field; lra).
    destruct (Rlt_dec angle 0); [lra|].
    destruct (Rlt_dec (Rtrigo_def.cos t * magnitude) 0) as [Hx|_]; [nra|].
    reflexivity. }
  destruct (Rlt_dec angle (1 / 2)) as [Hq2|Hq2'].
  { (* second quarter *)
    assert (Ht : PI / 2 < t < PI) by (unfold t; split; nra).
    assert (Hc : Rtrigo_def.cos t < 0) by (apply cos_lt_0; lra).
    assert (Hs : 0 < Rtrigo_def.sin t) by (apply sin_gt_0; lra).
    rewrite (Hquot ltac:(lra)), <- (tan_half_turn_more t ltac:(lra)).
    rewrite atan_tan by lra.
    replace ((t - PI) / (2 * PI)) with (angle - 1 / 2) by (unfold t; field; lra).
    destruct (Rlt_dec (angle - 1 / 2) 0); [|lra].
    destruct (Rlt_dec (Rtrigo_def.cos t * magnitude) 0) as [_|Hx]; [|nra].
    destruct (Rlt_dec (- Rtrigo_def.sin t * magnitude) 0) as [_|Hy]; [|nra].
    destruct (Rgt_dec (- Rtrigo_def.sin t * magnitude) 0) as [Hy|_]; [nra|].
    f_equal. lra. }
  destruct (Rlt_dec angle (3 / 4)) as [Hq3|Hq3'].
  { (* third quarter *)
    assert (Ht : PI < t < 3 * (PI / 2)) by (unfold t; split; nra).
    assert (Hc : Rtrigo_def.cos t < 0) by (apply cos_lt_0; lra).
    assert (Hs : Rtrigo_def.sin t < 0) by (apply sin_lt_0; lra).
    rewrite (Hquot ltac:(lra)), <- (tan_half_turn_more t ltac:(lra)).
    rewrite atan_tan by lra.
    replace ((t - PI) / (2 * PI)) with (angle - 1 / 2) by (unfold t; field; lra).
    destruct (Rlt_dec (angle - 1 / 2) 0); [lra|].
    destruct (Rlt_dec (Rtrigo_def.cos t * magnitude) 0) as [_|Hx]; [|nra].
    destruct (Rlt_dec (- Rtrigo_def.sin t * magnitude) 0) as [Hy|_]; [nra|].
    destruct (Rgt_dec (- Rtrigo_def.sin t * magnitude) 0) as [_|Hy]; [|nra].
    f_equal. lra. }
  { (* fourth quarter *)
    assert (Ht : 3 * (PI / 2) < t < 2 * PI) by (unfold t; split; nra).
    assert (Hc : 0 < Rtrigo_def.cos t).
    { replace t with (t - 2 * PI + 2 * INR 1 * PI) by (cbn [INR]; ring).
      rewrite cos_period. apply cos_gt_0; lra. }
    assert (Hc' : Rtrigo_def.cos (t - PI) <> 0).
    { replace (t - PI) with (- (PI - t)) by ring.
      rewrite cos_neg, cos_half_turn_less. lra. }
    rewrite (Hquot ltac:(lra)), <- (tan_half_turn_more t ltac:(lra)).
    rewrite <- (tan_half_turn_more (t - PI) Hc').
    rewrite atan_tan by lra.
    replace ((t - PI - PI) / (2 * PI)) with (angle - 1) by (unfold t; field; lra).
    destruct (Rlt_dec (angle - 1) 0); [|lra].
    destruct (Rlt_dec (Rtrigo_def.cos t * magnitude) 0) as [Hx|_]; [nra|].
    f_equal. lra. }
Qed.

Lemma mergeVector_breakVector_witness :
  Helpers.mergeVector (Helpers.vx (Helpers.breakVector (1 / 8) 10))
                      (Helpers.vy (Helpers.breakVector (1 / 8) 10))
  = Helpers.mkPolar (1 / 8) 10.
Proof. apply mergeVector_breakVector; lra. Defined.

End EarlyHelpers.
